(** * Gerador de desenhos animados: scene sequencing, reference parsing and
    WAV encoding

  A shallow embedding of [src/components/ImageGenerator.tsx] and of the
  service module it imports ([../services/geminiService]), followed by the
  properties of the specification that were checked against it.

  Conventions of the embedding.
  - A JavaScript string is the list of its UTF-16 code units ([list N]);
    [js "..."] gives the code units of a literal.
  - A byte buffer ([ArrayBuffer] seen through a [DataView]) is a [list Z]
    of bytes; the [DataView] setters write their wrap-around out.
  - A JavaScript number is an integer that a number holds, [NaN] or an
    infinity; reading a numeral rounds to the 53 significant bits of a
    number and overflows to [Infinity], and printing gives the fewest
    digits that tell the number apart, in exponent notation from [10^21]
    on.  A number is printed as it was written up to [2^53 - 1], so
    statements about printed references carry that bound.
  - A function that may throw returns a [result]; the handlers of the
    component catch every exception, so they are total functions from the
    rendered state to the state they leave, together with the trace of
    the platform calls they made. *)

From Stdlib Require Import ZArith NArith String Ascii List Lia.
From Stdlib Require Import DecimalN DecimalFacts.
From stdpp Require Import base option list gmap.

Local Open Scope Z_scope.

(** ** JavaScript values *)

Module Js.

Abbreviation jsstring := (list N).

(** The code units of the text that a sequence of UTF-8 bytes encodes
    (string literals of this file are UTF-8). *)
Fixpoint utf16OfUtf8 (bytes : list N) : jsstring :=
  match bytes with
  | [] => []
  | a :: r =>
      if a <? 128 then a :: utf16OfUtf8 r
      else if a <? 224 then
        match r with
        | b :: r' => (a - 192) * 64 + (b - 128) :: utf16OfUtf8 r'
        | _ => []
        end
      else if a <? 240 then
        match r with
        | b :: c :: r' =>
            (a - 224) * 4096 + (b - 128) * 64 + (c - 128) :: utf16OfUtf8 r'
        | _ => []
        end
      else
        match r with
        | b :: c :: d :: r' =>
            let cp := (a - 240) * 262144 + (b - 128) * 4096 + (c - 128) * 64
                      + (d - 128) - 65536 in
            55296 + cp / 1024 :: 56320 + cp `mod` 1024 :: utf16OfUtf8 r'
        | _ => []
        end
  end%N.

Definition js (s : string) : jsstring :=
  utf16OfUtf8 (N_of_ascii <$> list_ascii_of_string s).

(** What a [throw] carries: an [Error] instance (of any subclass, told
    apart by [name]) or some other value, of which only its string
    conversion is observed.  ([null] and [undefined], which have none, are
    never thrown by the service module: it throws [Error]s of its own and
    passes on those of the client.) *)
Inductive Thrown :=
| ErrorObject (name message : jsstring)
| OtherValue (text : jsstring).

Inductive result (A : Type) :=
| Ok (a : A)
| Throw (e : Thrown).
Arguments Ok {A} a.
Arguments Throw {A} e.

#[global] Instance result_ret : MRet result := fun _ a => Ok a.
#[global] Instance result_bind : MBind result := fun _ _ f m =>
  match m with Ok a => f a | Throw e => Throw e end.

(** [new Error(message)] *)
Definition newError (message : jsstring) : Thrown :=
  ErrorObject (js "Error") message.

(** [err instanceof Error] *)
Definition instanceofError (err : Thrown) : bool :=
  match err with ErrorObject _ _ => true | OtherValue _ => false end.

(** [err.message]: [undefined] ([None]) on a value that is not an
    [Error]. *)
Definition message (err : Thrown) : option jsstring :=
  match err with ErrorObject _ m => Some m | OtherValue _ => None end.

(** [err.toString()], for an [Error] as [Error.prototype.toString]
    defines it. *)
Definition toString (err : Thrown) : jsstring :=
  match err with
  | ErrorObject name msg =>
      match name, msg with
      | [], _ => msg
      | _, [] => name
      | _, _ => name ++ js ": " ++ msg
      end
  | OtherValue text => text
  end.

(** ** Characters *)

(** [\d] *)
Definition isDigit (c : N) : bool := ((48 <=? c) && (c <=? 57))%N.

(** LineTerminator: LF, CR, LS, PS. *)
Definition isLineTerminator (c : N) : bool :=
  bool_decide (c ∈ [10; 13; 8232; 8233]%N).

(** [\s], and what [trim] strips: WhiteSpace and LineTerminator. *)
Definition isWhiteSpace (c : N) : bool :=
  bool_decide (c ∈ [9; 11; 12; 32; 160; 5760; 8239; 8287; 12288; 65279]%N)
  || ((8192 <=? c) && (c <=? 8202))%N
  || isLineTerminator c.

(** ** [String.prototype] *)

Fixpoint trimStart (s : jsstring) : jsstring :=
  match s with
  | c :: s' => if isWhiteSpace c then trimStart s' else s
  | [] => []
  end.

Definition trimEnd (s : jsstring) : jsstring :=
  reverse (trimStart (reverse s)).

Definition trim (s : jsstring) : jsstring := trimEnd (trimStart s).

(** No white space at either end. *)
Definition trimmed (l : jsstring) : Prop :=
  match l with [] => True | x :: _ => isWhiteSpace x = false end
  /\ forall q y, l = q ++ [y] -> isWhiteSpace y = false.

Fixpoint startsWith (needle s : jsstring) : bool :=
  match needle, s with
  | [], _ => true
  | n :: needle', c :: s' => bool_decide (n = c) && startsWith needle' s'
  | _ :: _, [] => false
  end.

(** [s.includes(needle)] *)
Fixpoint includes (needle s : jsstring) : bool :=
  startsWith needle s ||
  match s with
  | [] => false
  | _ :: s' => includes needle s'
  end.

(** Truthiness of a string: [""] is falsy. *)
Definition truthy (s : jsstring) : bool :=
  match s with [] => false | _ => true end.

(** ** [atob]: forgiving-base64 decoding *)

Definition isAsciiWhitespace (c : N) : bool :=
  bool_decide (c ∈ [9; 10; 12; 13; 32]%N).

Definition sextet (c : N) : option Z :=
  if ((65 <=? c) && (c <=? 90))%N then Some (Z.of_N c - 65)
  else if ((97 <=? c) && (c <=? 122))%N then Some (Z.of_N c - 71)
  else if ((48 <=? c) && (c <=? 57))%N then Some (Z.of_N c + 4)
  else if (c =? 43)%N then Some 62
  else if (c =? 47)%N then Some 63
  else None.

Definition stripPadding (s : jsstring) : jsstring :=
  if bool_decide (length s `mod` 4 = 0)%nat then
    match reverse s with
    | 61%N :: 61%N :: r => reverse r
    | 61%N :: r => reverse r
    | _ => s
    end
  else s.

Definition octet (z : Z) : N := Z.to_N (z `mod` 256).

Fixpoint decodeSextets (l : list Z) : jsstring :=
  match l with
  | a :: b :: c :: d :: r =>
      let n := ((a * 64 + b) * 64 + c) * 64 + d in
      octet (n / 65536) :: octet (n / 256) :: octet n :: decodeSextets r
  | [a; b; c] =>
      let n := ((a * 64 + b) * 64 + c) / 4 in
      [octet (n / 256); octet n]
  | [a; b] => [octet ((a * 64 + b) / 16)]
  | _ => []
  end.

Definition invalidCharacterError : Thrown :=
  ErrorObject (js "InvalidCharacterError")
              (js "The string to be decoded is not correctly encoded.").

Definition atob (data : jsstring) : result jsstring :=
  let data := stripPadding (filter (fun c => isAsciiWhitespace c = false) data) in
  if bool_decide (length data `mod` 4 = 1)%nat then Throw invalidCharacterError
  else match mapM sextet data with
       | Some l => Ok (decodeSextets l)
       | None => Throw invalidCharacterError
       end.

(** ** [DataView] over an [ArrayBuffer] *)

Definition rangeError : Thrown :=
  ErrorObject (js "RangeError") (js "Offset is outside the bounds of the DataView").

Fixpoint writeBytes (view : list Z) (byteOffset : nat) (bytes : list Z) : list Z :=
  match bytes with
  | [] => view
  | b :: bytes' => writeBytes (<[byteOffset := b]> view) (S byteOffset) bytes'
  end.

(** The bytes of the low [8 * n] bits of [value], least significant
    first. *)
Fixpoint bytesOf (n : nat) (value : Z) : list Z :=
  match n with
  | O => []
  | S n' => value `mod` 256 :: bytesOf n' (value / 256)
  end.

Definition setUint (n : nat) (view : list Z) (byteOffset : nat) (value : Z)
    (littleEndian : bool) : result (list Z) :=
  if bool_decide (byteOffset + n ≤ length view)%nat then
    Ok (writeBytes view byteOffset
          (if littleEndian then bytesOf n value else reverse (bytesOf n value)))
  else Throw rangeError.

Definition setUint8 (view : list Z) (byteOffset : nat) (value : Z) : result (list Z) :=
  setUint 1 view byteOffset value false.
Definition setUint16 := setUint 2.
Definition setUint32 := setUint 4.

(** [getUint32(byteOffset, true)] and [getUint16(byteOffset, true)], used
    to read the header fields back. *)
Definition getUintLE (n : nat) (view : list Z) (byteOffset : nat) : Z :=
  foldr (fun b acc => b + 256 * acc) 0 (take n (drop byteOffset view)).

(** ** Numbers, [parseInt(_, 10)] and number-to-string conversion *)

(** The numbers that the program meets: those that hold an integer, [NaN]
    and the two infinities. *)
Inductive number :=
| Int (z : Z)
| NaN
| PosInfinity
| NegInfinity.

(** The integer that the number nearest to the integer [z] holds: a number
    has 53 significant bits, and a tie goes to the even significand. *)
Definition roundToDouble (z : Z) : Z :=
  let a := Z.abs z in
  if a <? 2 ^ 53 then z
  else
    let e := Z.log2 a - 52 in
    let q := a / 2 ^ e in
    let r := a `mod` 2 ^ e in
    let half := 2 ^ (e - 1) in
    let q' := if r <? half then q
              else if half <? r then q + 1
              else if Z.even q then q else q + 1 in
    Z.sgn z * (q' * 2 ^ e).

(** The number nearest to the integer [z]: the largest finite number is
    [2^1024 - 2^971], and what rounds to [2^1024] or more is an infinity. *)
Definition toNumber (z : Z) : number :=
  let r := roundToDouble z in
  if Z.abs r <? 2 ^ 1024 then Int r
  else if z <? 0 then NegInfinity else PosInfinity.

(** [x + 1] *)
Definition addOne (x : number) : number :=
  match x with
  | Int z => toNumber (z + 1)
  | NaN => NaN
  | PosInfinity => PosInfinity
  | NegInfinity => NegInfinity
  end.

Definition digitOfCode (c : N) : Decimal.uint -> Decimal.uint :=
  match c with
  | 48 => Decimal.D0 | 49 => Decimal.D1 | 50 => Decimal.D2 | 51 => Decimal.D3
  | 52 => Decimal.D4 | 53 => Decimal.D5 | 54 => Decimal.D6 | 55 => Decimal.D7
  | 56 => Decimal.D8 | _ => Decimal.D9
  end%N.

Fixpoint uintOfCodes (digits : jsstring) : Decimal.uint :=
  match digits with
  | [] => Decimal.Nil
  | c :: digits' => digitOfCode c (uintOfCodes digits')
  end.

Fixpoint codesOfUint (d : Decimal.uint) : jsstring :=
  match d with
  | Decimal.Nil => []
  | Decimal.D0 d => 48 :: codesOfUint d | Decimal.D1 d => 49 :: codesOfUint d
  | Decimal.D2 d => 50 :: codesOfUint d | Decimal.D3 d => 51 :: codesOfUint d
  | Decimal.D4 d => 52 :: codesOfUint d | Decimal.D5 d => 53 :: codesOfUint d
  | Decimal.D6 d => 54 :: codesOfUint d | Decimal.D7 d => 55 :: codesOfUint d
  | Decimal.D8 d => 56 :: codesOfUint d | Decimal.D9 d => 57 :: codesOfUint d
  end%N.

(** The mathematical value of a string of decimal digits. *)
Definition digitsValue (digits : jsstring) : Z :=
  Z.of_N (N.of_uint (uintOfCodes digits)).

Fixpoint digitPrefix (s : jsstring) : jsstring :=
  match s with
  | c :: s' => if isDigit c then c :: digitPrefix s' else []
  | [] => []
  end.

(** [parseInt(s, 10)]: leading white space and a sign are skipped, the
    longest prefix of digits is read, and there is no number without a
    digit.  The result is the number nearest to the value read (for a
    numeral of more than 20 digits an implementation may read less). *)
Definition parseInt10 (s : jsstring) : number :=
  let s := trimStart s in
  let '(negative, s) :=
    match s with
    | c :: s' =>
        if bool_decide (c = 45%N) then (true, s')
        else if bool_decide (c = 43%N) then (false, s')
        else (false, s)
    | [] => (false, s)
    end in
  match digitPrefix s with
  | [] => NaN
  | digits => toNumber (if negative then - digitsValue digits else digitsValue digits)
  end.

(** *** Number to string

    The string that a template literal puts for a number
    ([Number::toString]).  For a positive number [x] it is made of the
    digits of the integer [s] and of the exponent [n], where [k] is the
    least number of digits such that some [s] of [k] digits has
    [s * 10^(n - k)] nearest to [x] among the numbers; of several such [s]
    the one with [s * 10^(n - k)] closest to [x] is taken, the even one on
    a tie. *)

Definition numeral (a : Z) : jsstring := codesOfUint (N.to_uint (Z.to_N a)).

(** The decimal exponents to try for [x]: its number of digits, and one
    more (for an [x] just under a power of ten). *)
Definition exponents (x : Z) : list nat :=
  let d := length (numeral x) in [d; S d].

(** The pairs [(s, n)] with [s] of [k] digits that stand for [x]. *)
Definition candidates (x : Z) (k : nat) : list (Z * nat) :=
  flat_map
    (fun n =>
       if (k <=? n)%nat then
         let p := 10 ^ Z.of_nat (n - k) in
         List.filter
           (fun c => (10 ^ Z.of_nat (k - 1) <=? c.1) && (c.1 <? 10 ^ Z.of_nat k)
                     && (roundToDouble (c.1 * p) =? x))
           [(x / p, n); (x / p + 1, n)]
       else [])
    (exponents x).

(** Whether [c] is to be taken rather than [best]: it is closer to [x], or
    as close and even. *)
Definition closer (x : Z) (k : nat) (c best : Z * nat) : bool :=
  let value (c : Z * nat) := c.1 * 10 ^ Z.of_nat (c.2 - k) in
  let dc := Z.abs (value c - x) in
  let db := Z.abs (value best - x) in
  (dc <? db) || ((dc =? db) && Z.even c.1 && negb (Z.even best.1)).

Definition closest (x : Z) (k : nat) (l : list (Z * nat)) : option (Z * nat) :=
  foldl (fun best c =>
           match best with
           | None => Some c
           | Some b => if closer x k c b then Some c else Some b
           end) None l.

(** The search for the least [k], from [k] up: seventeen digits tell any
    two numbers apart. *)
Fixpoint shortestFrom (x : Z) (k fuel : nat) : option (nat * (Z * nat)) :=
  match fuel with
  | O => None
  | S fuel' =>
      match closest x k (candidates x k) with
      | Some c => Some (k, c)
      | None => shortestFrom x (S k) fuel'
      end
  end.

Definition shortest (x : Z) : option (nat * (Z * nat)) := shortestFrom x 1 17.

(** The string for a positive number that holds the integer [x]. *)
Definition positiveToString (x : Z) : jsstring :=
  match shortest x with
  | Some (k, (s, n)) =>
      if (n <=? 21)%nat then
        (* the digits of [s] followed by [n - k] zeros *)
        numeral (s * 10 ^ Z.of_nat (n - k))
      else
        match numeral s with
        | [] => []
        | [d] => [d] ++ js "e+" ++ numeral (Z.of_nat (n - 1))
        | d :: ds => [d] ++ js "." ++ ds ++ js "e+" ++ numeral (Z.of_nat (n - 1))
        end
  | None => numeral x   (* not reached for a number *)
  end.

Definition numberToString (x : number) : jsstring :=
  match x with
  | NaN => js "NaN"
  | PosInfinity => js "Infinity"
  | NegInfinity => js "-Infinity"
  | Int z =>
      if z =? 0 then js "0"
      else if z <? 0 then js "-" ++ positiveToString (- z)
      else positiveToString z
  end.

(** Integers that a [number] holds exactly. *)
Definition MAX_SAFE_INTEGER : Z := 2 ^ 53 - 1.

(** ** Regular expressions

    The fragment that the patterns of the program use: one-character
    classes, greedy repetition of a class, sequence, capture groups that
    are not nested, and the two anchors.  [rmatch] is the backtracking
    matcher: it runs [r] at position [i] on the rest [s] of the input and
    hands position, rest and captures to the continuation [k]; a greedy
    star tries the longest repetition first. *)

Inductive regex :=
| RClass (p : N -> bool)
| RStar (p : N -> bool)
| RSeq (r1 r2 : regex)
| RGroup (r : regex)
| RBol
| REol.

Definition RPlus (p : N -> bool) : regex := RSeq (RClass p) (RStar p).

Fixpoint rstar {A} (p : N -> bool) (k : nat -> jsstring -> option A)
    (i : nat) (s : jsstring) : option A :=
  match s with
  | c :: s' =>
      if p c then
        match rstar p k (S i) s' with
        | Some a => Some a
        | None => k i s
        end
      else k i s
  | [] => k i s
  end.

Fixpoint rmatch (r : regex) (i : nat) (s : jsstring) (caps : list jsstring)
    (k : nat -> jsstring -> list jsstring -> option (list jsstring)) :
    option (list jsstring) :=
  match r with
  | RClass p =>
      match s with
      | c :: s' => if p c then k (S i) s' caps else None
      | [] => None
      end
  | RStar p => rstar p (fun i' s' => k i' s' caps) i s
  | RSeq r1 r2 => rmatch r1 i s caps (fun i' s' caps' => rmatch r2 i' s' caps' k)
  | RGroup r1 =>
      rmatch r1 i s caps (fun i' s' caps' => k i' s' (caps' ++ [take (i' - i) s]))
  | RBol => if bool_decide (i = 0%nat) then k i s caps else None
  | REol => match s with [] => k i s caps | _ :: _ => None end
  end.

Fixpoint exec_from (r : regex) (i : nat) (s : jsstring) : option (list jsstring) :=
  match rmatch r i s [] (fun _ _ caps => Some caps) with
  | Some caps => Some caps
  | None =>
      match s with
      | [] => None
      | _ :: s' => exec_from r (S i) s'
      end
  end.

(** [s.match(r)] for a pattern without the global flag: the captures
    [match[1]], [match[2]], ... of the first match, [None] for [null]. *)
Definition strMatch (s : jsstring) (r : regex) : option (list jsstring) :=
  exec_from r 0 s.

(** The continuation of a star that is followed by one code unit of the
    class [q], as [rmatch] builds it for [RSeq (RStar p) (RClass q)]. *)
Definition thenClass {A} (q : N -> bool) (f : nat -> A) (i : nat) (s : jsstring) :
    option A :=
  match s with
  | c :: _ => if q c then Some (f (S i)) else None
  | [] => None
  end.

(** What it is for [r] to match: from position [i], with [s] left to read
    and the captures [caps], to position [i'], with [s'] left and the
    captures [caps']. *)
Inductive rsem : regex -> nat -> jsstring -> list jsstring ->
                 nat -> jsstring -> list jsstring -> Prop :=
| sem_class p c s i caps :
    p c = true -> rsem (RClass p) i (c :: s) caps (S i) s caps
| sem_star p x s i caps :
    Forall (fun c => p c = true) x ->
    rsem (RStar p) i (x ++ s) caps (i + length x) s caps
| sem_seq r1 r2 i s caps i1 s1 caps1 i2 s2 caps2 :
    rsem r1 i s caps i1 s1 caps1 -> rsem r2 i1 s1 caps1 i2 s2 caps2 ->
    rsem (RSeq r1 r2) i s caps i2 s2 caps2
| sem_group r i s caps i' s' caps' :
    rsem r i s caps i' s' caps' ->
    rsem (RGroup r) i s caps i' s' (caps' ++ [take (i' - i) s])
| sem_bol s caps : rsem RBol 0 s caps 0 s caps
| sem_eol i caps : rsem REol i [] caps i [] caps.

(** [.]: anything but a line terminator; [\D]. *)
Definition dot (c : N) : bool := negb (isLineTerminator c).
Definition nonDigit (c : N) : bool := negb (isDigit c).

End Js.
Import Js.

(** ** WAV container ([createWavBlob]) *)

Module Wav.

Record Blob := { blob_bytes : list Z; blob_type : jsstring }.

(** [for (let i = 0; i < string.length; i++)
       view.setUint8(offset + i, string.charCodeAt(i));] *)
Fixpoint writeString_from (i : nat) (view : list Z) (offset : nat)
    (rest : jsstring) : result (list Z) :=
  match rest with
  | [] => Ok view
  | c :: rest' =>
      view' ← setUint8 view (offset + i) (Z.of_N c);
      writeString_from (S i) view' offset rest'
  end.

Definition writeString (view : list Z) (offset : nat) (string : jsstring) :
    result (list Z) :=
  writeString_from 0 view offset string.

(** [for (let i = 0; i < dataSize; i++) view.setUint8(44 + i, pcmData[i]);] *)
Fixpoint writePcm_from (i : nat) (view : list Z) (rest : list Z) : result (list Z) :=
  match rest with
  | [] => Ok view
  | b :: rest' =>
      view' ← setUint8 view (44 + i) b;
      writePcm_from (S i) view' rest'
  end.

Definition sampleRate : Z := 24000.
Definition numChannels : Z := 1.
Definition bitsPerSample : Z := 16.

Definition createWavBlob (base64 : jsstring) : result Blob :=
  binaryString ← atob base64;
  (* Uint8Array element stores keep the low eight bits *)
  let pcmData := (fun c => Z.of_N c `mod` 256) <$> binaryString in
  let dataSize := length pcmData in
  let view := replicate (44 + dataSize) 0 in
  view ← writeString view 0 (js "RIFF");
  view ← setUint32 view 4 (36 + Z.of_nat dataSize) true;
  view ← writeString view 8 (js "WAVE");
  view ← writeString view 12 (js "fmt ");
  view ← setUint32 view 16 16 true;
  view ← setUint16 view 20 1 true;
  view ← setUint16 view 22 numChannels true;
  view ← setUint32 view 24 sampleRate true;
  view ← setUint32 view 28 (sampleRate * numChannels * (bitsPerSample / 8)) true;
  view ← setUint16 view 32 (numChannels * (bitsPerSample / 8)) true;
  view ← setUint16 view 34 bitsPerSample true;
  view ← writeString view 36 (js "data");
  view ← setUint32 view 40 (Z.of_nat dataSize) true;
  view ← writePcm_from 0 view pcmData;
  mret {| blob_bytes := view; blob_type := js "audio/wav" |}.

(** The header as the specification words it, for a payload of [dataSize]
    bytes. *)
Definition wavHeader (dataSize : nat) : list Z :=
  (Z.of_N <$> js "RIFF") ++ bytesOf 4 (36 + Z.of_nat dataSize)
  ++ (Z.of_N <$> js "WAVE")
  ++ (Z.of_N <$> js "fmt ") ++ bytesOf 4 16 ++ bytesOf 2 1 ++ bytesOf 2 1
  ++ bytesOf 4 24000 ++ bytesOf 4 48000 ++ bytesOf 2 2 ++ bytesOf 2 16
  ++ (Z.of_N <$> js "data") ++ bytesOf 4 (Z.of_nat dataSize).

End Wav.


(** ** The service module ([geminiService]) *)

Module GeminiService.

Definition STYLE_PROMPT_APPENDIX : jsstring :=
  js ", no estilo de um desenho da Pixar, personagens expressivos, iluminação cinematográfica, 3D, 4K, alto detalhe".

Record SceneGenerationResult := {
  scenePrompt : jsstring;
  characterDescriptions : gmap jsstring jsstring }.

Inductive AspectRatio := Ratio_9_16 | Ratio_16_9.

(** The fields of the object that [JSON.parse] returns ([None] for an
    absent field). *)
Record ApiResponse := {
  r_scenePrompt : option jsstring;
  r_characterDescriptions : option (list (jsstring * jsstring));
  r_error : option jsstring }.

(** What the prompt of the scene request is built from: the reference and
    the character instructions, which depend on [isContinuation] and on
    the characters given. *)
Record SceneRequest := {
  req_bibleReference : jsstring;
  req_isContinuation : bool;
  req_existingChars : gmap jsstring jsstring }.

(** A value read from an object: the values of [languageMap] are strings,
    the properties it inherits from [Object.prototype] are functions and,
    for [__proto__], the prototype object. *)
Inductive JsValue :=
| VUndefined
| VString (s : jsstring)
| VFunction (name : jsstring)
| VObject.

Record TextRequest := {
  treq_bibleReference : jsstring;
  treq_languageName : JsValue }.

(** The network calls of the module. *)
Inductive Call :=
| SceneCall (req : SceneRequest)
| ImageCall (fullPrompt : jsstring) (aspectRatio : AspectRatio)
| TextCall (req : TextRequest)
| SpeechCall (promptForAudio voiceName : jsstring).

(** The generative service, seen from the module: what each call of the
    client [ai] gives back.
    - [ai_scene]: [Throw] when [generateContent] rejects (or [response.text]
      is not a string); otherwise what
      [JSON.parse(extractJsonString(response.text.trim()))] gives, itself an
      exception or the fields of the parsed object.
    - [ai_image]: [response.generatedImages], as the list of the
      [image.imageBytes] of its elements.
    - [ai_text]: [textResponse.text].
    - [ai_speech]: [candidates?.[0]?.content?.parts?.[0]?.inlineData?.data]. *)
Record Ai := {
  ai_scene : SceneRequest -> result (result ApiResponse);
  ai_image : jsstring -> AspectRatio -> result (option (list jsstring));
  ai_text : TextRequest -> result jsstring;
  ai_speech : jsstring -> jsstring -> result (option jsstring) }.

(** [acc[name] = description] on an ordinary object: the assignment to
    [__proto__] of a value that is not an object goes to the inherited
    setter, which ignores it. *)
Definition setProperty (acc : gmap jsstring jsstring) (name description : jsstring) :
    gmap jsstring jsstring :=
  if bool_decide (name = js "__proto__") then acc else <[name := description]> acc.

Definition VERSE_NOT_FOUND : jsstring := js "VERSE_NOT_FOUND".

(** The request that [generateImagePrompt] sends:
    [isContinuation = existingCharacters && Object.keys(existingCharacters).length > 0],
    and the characters are passed on only in a continuation. *)
Definition sceneRequest (bibleReference : jsstring)
    (existingCharacters : option (gmap jsstring jsstring)) : SceneRequest :=
  let isContinuation :=
    match existingCharacters with
    | Some chars => bool_decide (0 < size chars)%nat
    | None => false
    end in
  {| req_bibleReference := bibleReference;
     req_isContinuation := isContinuation;
     req_existingChars := if isContinuation then default ∅ existingCharacters else ∅ |}.

Definition generateImagePrompt (ai : Ai) (bibleReference : jsstring)
    (existingCharacters : option (gmap jsstring jsstring)) :
    list Call * result SceneGenerationResult :=
  let request := sceneRequest bibleReference existingCharacters in
  ([SceneCall request],
   match ai_scene ai request with
   | Throw error => Throw error
   | Ok parsed =>
       let inner : result SceneGenerationResult :=
         parsedJson ← parsed;
         if bool_decide (r_error parsedJson = Some VERSE_NOT_FOUND) then
           Throw (newError VERSE_NOT_FOUND)
         else
           match r_scenePrompt parsedJson, r_characterDescriptions parsedJson with
           | Some prompt, Some chars =>
               if truthy prompt then
                 Ok {| scenePrompt := prompt;
                       characterDescriptions :=
                         foldl (fun acc char => setProperty acc char.1 char.2) ∅ chars |}
               else Throw (newError (js "Resposta da IA com campos ausentes."))
           | _, _ => Throw (newError (js "Resposta da IA com campos ausentes."))
           end in
       match inner with
       | Ok r => Ok r
       | Throw e =>
           if bool_decide (message e = Some VERSE_NOT_FOUND) then Throw e
           else Throw (newError
                  (js "Falha ao processar a resposta da IA. O formato pode ser inválido."))
       end
   end).

Definition generateImage (ai : Ai) (prompt : jsstring) (aspectRatio : AspectRatio) :
    list Call * result jsstring :=
  let fullPrompt := prompt ++ STYLE_PROMPT_APPENDIX in
  ([ImageCall fullPrompt aspectRatio],
   match ai_image ai fullPrompt aspectRatio with
   | Throw error => Throw error
   | Ok (Some (imageBytes :: _)) => Ok imageBytes
   | Ok _ =>
       Throw (newError (js "A imagem não pôde ser gerada. Isso pode ocorrer devido a filtros de segurança sobre o conteúdo da cena. Tente um versículo diferente ou uma nova cena com uma descrição menos explícita."))
   end).

Definition objectPrototype_get (key : jsstring) : JsValue :=
  if bool_decide (key = js "constructor") then VFunction (js "Object")
  else if bool_decide (key = js "__proto__") then VObject
  else if bool_decide (key ∈ js <$>
            ["hasOwnProperty"; "isPrototypeOf"; "propertyIsEnumerable";
             "toLocaleString"; "toString"; "valueOf"; "__defineGetter__";
             "__defineSetter__"; "__lookupGetter__"; "__lookupSetter__"]%string)
       then VFunction key
  else VUndefined.

Definition languageMap : list (jsstring * jsstring) :=
  [ (js "pt-BR", js "Português (Brasil)");
    (js "en-US", js "Inglês (EUA)");
    (js "es-ES", js "Espanhol (Espanha)");
    (js "fr-FR", js "Francês (França)");
    (js "de-DE", js "Alemão (Alemanha)") ].

(** [languageMap[key]]: an own property, or else what the prototype has. *)
Definition languageMap_get (key : jsstring) : JsValue :=
  match (list_to_map languageMap : gmap jsstring jsstring) !! key with
  | Some name => VString name
  | None => objectPrototype_get key
  end.

Definition valueTruthy (v : JsValue) : bool :=
  match v with
  | VUndefined => false
  | VString s => truthy s
  | VFunction _ | VObject => true
  end.

(** [a || b] *)
Definition orElse (a b : JsValue) : JsValue := if valueTruthy a then a else b.

Definition getVerseText (ai : Ai) (bibleReference language : jsstring) :
    list Call * result jsstring :=
  let languageName := orElse (languageMap_get language) (VString (js "Português (Brasil)")) in
  let request := {| treq_bibleReference := bibleReference;
                    treq_languageName := languageName |} in
  ([TextCall request],
   match ai_text ai request with
   | Throw error => Throw error
   | Ok text =>
       let bibleText := trim text in
       if truthy bibleText then Ok bibleText
       else Throw (newError (js "Não foi possível obter o texto do versículo."))
   end).

Definition generateSpeech (ai : Ai) (textToNarrate voiceType : jsstring) :
    list Call * result jsstring :=
  if negb (truthy textToNarrate) then
    ([], Throw (newError (js "O texto para narração não pode estar vazio.")))
  else
    let voiceName := if bool_decide (voiceType = js "adulta") then js "Puck" else js "Kore" in
    let promptForAudio :=
      if bool_decide (voiceType = js "infantil")
      then js "Narração em tom de criança, com uma voz doce e clara: " ++ textToNarrate
      else textToNarrate in
    ([SpeechCall promptForAudio voiceName],
     match ai_speech ai promptForAudio voiceName with
     | Throw error => Throw error
     | Ok (Some base64Audio) =>
         if truthy base64Audio then Ok base64Audio
         else Throw (newError (js "A API não retornou nenhum áudio."))
     | Ok None => Throw (newError (js "A API não retornou nenhum áudio."))
     end).

(** [/\{[\s\S]*\}/]: an opening brace, anything, a closing brace.  The
    group around the whole pattern stands for [match[0]]. *)
Definition jsonObjectRegex : regex :=
  RGroup
    (RSeq (RClass (fun c => bool_decide (c = 123%N)))
      (RSeq (RStar (fun c => isWhiteSpace c || negb (isWhiteSpace c)))
            (RClass (fun c => bool_decide (c = 125%N))))).

(** The helper of [generateImagePrompt] that takes the JSON text out of
    what the model wrapped around it:
    [const match = str.match(/\{[\s\S]*\}/); return match ? match[0] : str;] *)
Definition extractJsonString (str : jsstring) : jsstring :=
  match strMatch str jsonObjectRegex with
  | Some [m0] => m0
  | _ => str
  end.

End GeminiService.

(** ** The component ([ImageGenerator]) *)

Module ImageGenerator.
Import GeminiService.

(** The state variables of the component, one field for each [useState];
    [None] is [null]. *)
Record State := mkState {
  bibleReference : jsstring;
  promptText : jsstring;
  characterDescriptions : option (gmap jsstring jsstring);
  isSequenceActive : bool;
  isPromptLoading : bool;
  promptError : option jsstring;
  isImageLoading : bool;
  generatedImage : option jsstring;
  imageError : option jsstring;
  aspectRatio : AspectRatio;
  language : jsstring;
  voiceType : jsstring;
  isAudioLoading : bool;
  audioError : option jsstring;
  generatedAudioUrl : option jsstring;
  narratedText : option jsstring;
  textForNarration : jsstring;
  isFetchingVerse : bool }.

Definition initialState : State :=
  mkState [] [] None false false None false None None Ratio_9_16
          (js "pt-BR") (js "adulta") false None None None [] false.

(** The setters of the state variables. *)
Definition setBibleReference (v : jsstring) (s : State) : State :=
  let '(mkState _ x1 x2 x3 x4 x5 x6 x7 x8 x9 x10 x11 x12 x13 x14 x15 x16 x17) := s in
  mkState v x1 x2 x3 x4 x5 x6 x7 x8 x9 x10 x11 x12 x13 x14 x15 x16 x17.
Definition setPromptText (v : jsstring) (s : State) : State :=
  let '(mkState x0 _ x2 x3 x4 x5 x6 x7 x8 x9 x10 x11 x12 x13 x14 x15 x16 x17) := s in
  mkState x0 v x2 x3 x4 x5 x6 x7 x8 x9 x10 x11 x12 x13 x14 x15 x16 x17.
Definition setCharacterDescriptions (v : option (gmap jsstring jsstring)) (s : State) : State :=
  let '(mkState x0 x1 _ x3 x4 x5 x6 x7 x8 x9 x10 x11 x12 x13 x14 x15 x16 x17) := s in
  mkState x0 x1 v x3 x4 x5 x6 x7 x8 x9 x10 x11 x12 x13 x14 x15 x16 x17.
Definition setIsSequenceActive (v : bool) (s : State) : State :=
  let '(mkState x0 x1 x2 _ x4 x5 x6 x7 x8 x9 x10 x11 x12 x13 x14 x15 x16 x17) := s in
  mkState x0 x1 x2 v x4 x5 x6 x7 x8 x9 x10 x11 x12 x13 x14 x15 x16 x17.
Definition setIsPromptLoading (v : bool) (s : State) : State :=
  let '(mkState x0 x1 x2 x3 _ x5 x6 x7 x8 x9 x10 x11 x12 x13 x14 x15 x16 x17) := s in
  mkState x0 x1 x2 x3 v x5 x6 x7 x8 x9 x10 x11 x12 x13 x14 x15 x16 x17.
Definition setPromptError (v : option jsstring) (s : State) : State :=
  let '(mkState x0 x1 x2 x3 x4 _ x6 x7 x8 x9 x10 x11 x12 x13 x14 x15 x16 x17) := s in
  mkState x0 x1 x2 x3 x4 v x6 x7 x8 x9 x10 x11 x12 x13 x14 x15 x16 x17.
Definition setIsImageLoading (v : bool) (s : State) : State :=
  let '(mkState x0 x1 x2 x3 x4 x5 _ x7 x8 x9 x10 x11 x12 x13 x14 x15 x16 x17) := s in
  mkState x0 x1 x2 x3 x4 x5 v x7 x8 x9 x10 x11 x12 x13 x14 x15 x16 x17.
Definition setGeneratedImage (v : option jsstring) (s : State) : State :=
  let '(mkState x0 x1 x2 x3 x4 x5 x6 _ x8 x9 x10 x11 x12 x13 x14 x15 x16 x17) := s in
  mkState x0 x1 x2 x3 x4 x5 x6 v x8 x9 x10 x11 x12 x13 x14 x15 x16 x17.
Definition setImageError (v : option jsstring) (s : State) : State :=
  let '(mkState x0 x1 x2 x3 x4 x5 x6 x7 _ x9 x10 x11 x12 x13 x14 x15 x16 x17) := s in
  mkState x0 x1 x2 x3 x4 x5 x6 x7 v x9 x10 x11 x12 x13 x14 x15 x16 x17.
Definition setAspectRatio (v : AspectRatio) (s : State) : State :=
  let '(mkState x0 x1 x2 x3 x4 x5 x6 x7 x8 _ x10 x11 x12 x13 x14 x15 x16 x17) := s in
  mkState x0 x1 x2 x3 x4 x5 x6 x7 x8 v x10 x11 x12 x13 x14 x15 x16 x17.
Definition setLanguage (v : jsstring) (s : State) : State :=
  let '(mkState x0 x1 x2 x3 x4 x5 x6 x7 x8 x9 _ x11 x12 x13 x14 x15 x16 x17) := s in
  mkState x0 x1 x2 x3 x4 x5 x6 x7 x8 x9 v x11 x12 x13 x14 x15 x16 x17.
Definition setVoiceType (v : jsstring) (s : State) : State :=
  let '(mkState x0 x1 x2 x3 x4 x5 x6 x7 x8 x9 x10 _ x12 x13 x14 x15 x16 x17) := s in
  mkState x0 x1 x2 x3 x4 x5 x6 x7 x8 x9 x10 v x12 x13 x14 x15 x16 x17.
Definition setIsAudioLoading (v : bool) (s : State) : State :=
  let '(mkState x0 x1 x2 x3 x4 x5 x6 x7 x8 x9 x10 x11 _ x13 x14 x15 x16 x17) := s in
  mkState x0 x1 x2 x3 x4 x5 x6 x7 x8 x9 x10 x11 v x13 x14 x15 x16 x17.
Definition setAudioError (v : option jsstring) (s : State) : State :=
  let '(mkState x0 x1 x2 x3 x4 x5 x6 x7 x8 x9 x10 x11 x12 _ x14 x15 x16 x17) := s in
  mkState x0 x1 x2 x3 x4 x5 x6 x7 x8 x9 x10 x11 x12 v x14 x15 x16 x17.
Definition setGeneratedAudioUrl (v : option jsstring) (s : State) : State :=
  let '(mkState x0 x1 x2 x3 x4 x5 x6 x7 x8 x9 x10 x11 x12 x13 _ x15 x16 x17) := s in
  mkState x0 x1 x2 x3 x4 x5 x6 x7 x8 x9 x10 x11 x12 x13 v x15 x16 x17.
Definition setNarratedText (v : option jsstring) (s : State) : State :=
  let '(mkState x0 x1 x2 x3 x4 x5 x6 x7 x8 x9 x10 x11 x12 x13 x14 _ x16 x17) := s in
  mkState x0 x1 x2 x3 x4 x5 x6 x7 x8 x9 x10 x11 x12 x13 x14 v x16 x17.
Definition setTextForNarration (v : jsstring) (s : State) : State :=
  let '(mkState x0 x1 x2 x3 x4 x5 x6 x7 x8 x9 x10 x11 x12 x13 x14 x15 _ x17) := s in
  mkState x0 x1 x2 x3 x4 x5 x6 x7 x8 x9 x10 x11 x12 x13 x14 x15 v x17.
Definition setIsFetchingVerse (v : bool) (s : State) : State :=
  let '(mkState x0 x1 x2 x3 x4 x5 x6 x7 x8 x9 x10 x11 x12 x13 x14 x15 x16 _) := s in
  mkState x0 x1 x2 x3 x4 x5 x6 x7 x8 x9 x10 x11 x12 x13 x14 x15 x16 v.

(** *** Bible reference parsers *)

Record BibleRef := { book : jsstring; chapter : number; verse : number }.

(** [/^(.*\D)\s*(\d+):(\d+)$/] *)
Definition bibleRefRegex : regex :=
  RSeq RBol
    (RSeq (RGroup (RSeq (RStar dot) (RClass nonDigit)))
      (RSeq (RStar isWhiteSpace)
        (RSeq (RGroup (RPlus isDigit))
          (RSeq (RClass (fun c => bool_decide (c = 58%N)))
            (RSeq (RGroup (RPlus isDigit)) REol))))).

Definition parseBibleRef (ref : jsstring) : option BibleRef :=
  match strMatch (trim ref) bibleRefRegex with
  | Some [m1; m2; m3] =>
      Some {| book := trim m1; chapter := parseInt10 m2; verse := parseInt10 m3 |}
  | _ => None
  end.

Definition formatBibleRef (parsed : BibleRef) : jsstring :=
  book parsed ++ js " " ++ numberToString (chapter parsed) ++ js ":"
    ++ numberToString (verse parsed).

Definition getNextVerseRef (s : State) : jsstring :=
  match parseBibleRef (bibleReference s) with
  | Some parsed =>
      formatBibleRef {| book := book parsed; chapter := chapter parsed;
                        verse := addOne (verse parsed) |}
  | None => []
  end.

(** *** Effects on the platform *)

Inductive Effect :=
| Network (call : Call)
| CreateObjectURL (url : jsstring)
| RevokeObjectURL (url : jsstring).

(** The clean-up of the effect that depends on [generatedAudioUrl]:
    [if (generatedAudioUrl) URL.revokeObjectURL(generatedAudioUrl)], with
    the value of the render that installed it. *)
Definition cleanup (url : option jsstring) : list Effect :=
  match url with
  | Some u => if truthy u then [RevokeObjectURL u] else []
  | None => []
  end.

(** A commit that takes the component from the render of [prev] to the
    render of [next]: the clean-up of the previous render runs when the
    dependency has changed. *)
Definition commit (prev next : State) : list Effect :=
  if bool_decide (generatedAudioUrl prev = generatedAudioUrl next) then []
  else cleanup (generatedAudioUrl prev).

(** The component is removed: the clean-up of the last render runs. *)
Definition unmount (s : State) : list Effect := cleanup (generatedAudioUrl s).

(** *** Messages *)

Definition serverErrorLong : jsstring :=
  js "Ocorreu um erro de comunicação com o servidor. Por favor, tente novamente em alguns instantes.".
Definition serverErrorShort : jsstring :=
  js "Ocorreu um erro de comunicação com o servidor. Por favor, tente novamente.".
Definition chapterEnded : jsstring := js "Fim do capítulo. Inicie uma nova cena.".

(** [err.toString().includes('500') || err.toString().includes('Rpc failed')] *)
Definition isServerError (err : Thrown) : bool :=
  includes (js "500") (toString err) || includes (js "Rpc failed") (toString err).

(** [err.message || fallback] *)
Definition messageOr (err : Thrown) (fallback : jsstring) : jsstring :=
  match message err with
  | Some m => if truthy m then m else fallback
  | None => fallback
  end.

(** *** Event handlers

    A handler reads the state of the render it was created in ([s]) and
    queues updates; the state it leaves is the result of all of them.  It
    is given the service [ai] and gives back the effects in the order the
    platform sees them.  A service function sends its request when it is
    called, so the request goes out before the handler yields at its
    [await]; it is then that the updates queued so far are committed and
    the clean-up of the effect runs.  The updates after the [await] are
    committed when the handler ends. *)

Notation "s |> f" := (f s) (at level 45, left associativity, only parsing).

Definition handleStartNew (s : State) : State * list Effect :=
  let s1 := s |> setIsSequenceActive false |> setCharacterDescriptions None
              |> setGeneratedImage None |> setImageError None |> setPromptError None
              |> setPromptText [] |> setBibleReference []
              |> setGeneratedAudioUrl None |> setTextForNarration []
              |> setNarratedText None in
  (s1, commit s s1).

Definition handleGeneratePrompt (ai : Ai) (s : State) : State * list Effect :=
  if negb (truthy (trim (bibleReference s))) then (s, [])
  else
    (* Reset states but keep bibleReference *)
    let s1 := s |> setIsSequenceActive false |> setCharacterDescriptions None
                |> setGeneratedImage None |> setImageError None |> setPromptError None
                |> setPromptText [] |> setGeneratedAudioUrl None
                |> setTextForNarration [] |> setNarratedText None
                |> setIsPromptLoading true in
    let '(calls, r) := generateImagePrompt ai (bibleReference s) None in
    let s2 :=
      match r with
      | Ok res =>
          s1 |> setPromptText (scenePrompt res)
             |> setCharacterDescriptions (Some (GeminiService.characterDescriptions res))
      | Throw err =>
          if isServerError err then s1 |> setPromptError (Some serverErrorLong)
          else s1 |> setPromptError (Some (messageOr err
                 (js "Ocorreu um erro ao gerar o prompt. Tente um versículo diferente.")))
      end in
    let s3 := s2 |> setIsPromptLoading false in
    (s3, (Network <$> calls) ++ commit s s1 ++ commit s1 s3).

Definition handleGenerateImage (ai : Ai) (s : State) : State * list Effect :=
  if negb (truthy (trim (promptText s))) || isImageLoading s then (s, [])
  else
    let s1 := s |> setIsImageLoading true |> setImageError None
                |> setGeneratedImage None in
    let '(calls, r) := generateImage ai (promptText s) (aspectRatio s) in
    let s2 :=
      match r with
      | Ok imageBase64 =>
          s1 |> setGeneratedImage (Some (js "data:image/jpeg;base64," ++ imageBase64))
             |> setIsSequenceActive true
      | Throw err =>
          if isServerError err then s1 |> setImageError (Some serverErrorLong)
          else s1 |> setImageError (Some (messageOr err
                 (js "Ocorreu um erro ao gerar a imagem. Por favor, tente novamente.")))
      end in
    let s3 := s2 |> setIsImageLoading false in
    (s3, (Network <$> calls) ++ commit s s1 ++ commit s1 s3).

(** The [catch] block of [handleGenerateNextVerse]. *)
Definition nextVerseCatch (lastValidRef : jsstring) (err : Thrown) (st : State) : State :=
  if instanceofError err && includes VERSE_NOT_FOUND (default [] (message err)) then
    st |> setImageError (Some chapterEnded)
       |> setIsSequenceActive false        (* End the sequence *)
       |> setBibleReference lastValidRef   (* Revert to the last valid reference *)
  else if isServerError err then
    st |> setImageError (Some serverErrorLong) |> setBibleReference lastValidRef
  else
    st |> setImageError (Some (messageOr err (js "Falha ao gerar o próximo versículo.")))
       |> setBibleReference lastValidRef.

Definition handleGenerateNextVerse (ai : Ai) (s : State) : State * list Effect :=
  let nextVerseRef := getNextVerseRef s in
  match characterDescriptions s with
  | None => (s, [])
  | Some chars =>
      if negb (truthy nextVerseRef) then (s, [])
      else
        let s1 := s |> setIsImageLoading true |> setImageError None
                    |> setPromptError None in
        let lastValidRef := bibleReference s in
        let s1 := s1 |> setBibleReference nextVerseRef in
        let '(calls1, r1) := generateImagePrompt ai nextVerseRef (Some chars) in
        let '(s2, calls2) :=
          match r1 with
          | Ok res =>
              let s2 := s1 |> setPromptText (scenePrompt res)
                          |> setCharacterDescriptions (Some (GeminiService.characterDescriptions res)) in
              let '(calls2, r2) := generateImage ai (scenePrompt res) (aspectRatio s) in
              (match r2 with
               | Ok imageBase64 =>
                   s2 |> setGeneratedImage
                           (Some (js "data:image/jpeg;base64," ++ imageBase64))
                      |> setIsSequenceActive true   (* Ensure sequence continues *)
               | Throw err => nextVerseCatch lastValidRef err s2
               end, calls2)
          | Throw err => (nextVerseCatch lastValidRef err s1, [])
          end in
        let s3 := s2 |> setIsImageLoading false in
        (s3, (Network <$> calls1) ++ commit s s1 ++ (Network <$> calls2) ++ commit s1 s3)
  end.

Definition handleFetchVerseText (ai : Ai) (s : State) : State * list Effect :=
  if negb (truthy (trim (bibleReference s))) || isFetchingVerse s then (s, [])
  else
    let s1 := s |> setIsFetchingVerse true |> setAudioError None
                |> setTextForNarration [] in
    let '(calls, r) := getVerseText ai (bibleReference s) (language s) in
    let s2 :=
      match r with
      | Ok verseText => s1 |> setTextForNarration verseText
      | Throw err =>
          if isServerError err then s1 |> setAudioError (Some serverErrorShort)
          else s1 |> setAudioError (Some
                 (js "Ocorreu um erro ao buscar o texto. Verifique a referência ou tente novamente."))
      end in
    let s3 := s2 |> setIsFetchingVerse false in
    (s3, (Network <$> calls) ++ commit s s1 ++ commit s1 s3).

(** [url] is the URL that [URL.createObjectURL] makes for the blob of this
    call. *)
Definition handleGenerateAudioClick (ai : Ai) (url : jsstring) (s : State) :
    State * list Effect :=
  if negb (truthy (trim (textForNarration s))) || isAudioLoading s then (s, [])
  else
    let s1 := s |> setIsAudioLoading true |> setAudioError None in
    let revoked :=
      match generatedAudioUrl s with
      | Some old => if truthy old then [RevokeObjectURL old] else []
      | None => []
      end in
    let s1 := s1 |> setGeneratedAudioUrl None |> setNarratedText None in
    let '(calls, r) := generateSpeech ai (textForNarration s) (voiceType s) in
    let '(s2, created) :=
      match r ≫= Wav.createWavBlob with
      | Ok audioBlob =>
          (s1 |> setGeneratedAudioUrl (Some url)
              |> setNarratedText (Some (textForNarration s)),
           [CreateObjectURL url])
      | Throw err =>
          (if isServerError err then s1 |> setAudioError (Some serverErrorShort)
           else s1 |> setAudioError (Some
                  (js "Ocorreu um erro ao gerar o áudio. Por favor, tente novamente.")),
           [])
      end in
    let s3 := s2 |> setIsAudioLoading false in
    (s3, revoked ++ (Network <$> calls) ++ commit s s1 ++ created ++ commit s1 s3).

(** *** The controls that call the handlers *)

Definition isAnyLoading (s : State) : bool :=
  isPromptLoading s || isImageLoading s || isAudioLoading s || isFetchingVerse s.

Inductive Control :=
| StartNewButton
| GeneratePromptButton
| GenerateImageButton
| NextVerseButton
| FetchVerseButton
| GenerateAudioButton.

Definition hasImage (s : State) : bool :=
  match generatedImage s with Some img => truthy img | None => false end.

(** Whether the control is in the rendered tree. *)
Definition rendered (c : Control) (s : State) : bool :=
  match c with
  | StartNewButton => isSequenceActive s
  | NextVerseButton => hasImage s && isSequenceActive s
  | _ => true
  end.

(** The [disabled] attribute of the control. *)
Definition disabled (c : Control) (s : State) : bool :=
  match c with
  | StartNewButton => isAnyLoading s
  | GeneratePromptButton =>
      negb (truthy (trim (bibleReference s))) || isAnyLoading s || isSequenceActive s
  | GenerateImageButton =>
      negb (truthy (trim (promptText s))) || isAnyLoading s || isSequenceActive s
  | NextVerseButton => isAnyLoading s
  | FetchVerseButton => negb (truthy (trim (bibleReference s))) || isAnyLoading s
  | GenerateAudioButton => negb (truthy (trim (textForNarration s))) || isAnyLoading s
  end.

Definition handler (ai : Ai) (url : jsstring) (c : Control) (s : State) :
    State * list Effect :=
  match c with
  | StartNewButton => handleStartNew s
  | GeneratePromptButton => handleGeneratePrompt ai s
  | GenerateImageButton => handleGenerateImage ai s
  | NextVerseButton => handleGenerateNextVerse ai s
  | FetchVerseButton => handleFetchVerseText ai s
  | GenerateAudioButton => handleGenerateAudioClick ai url s
  end.

(** A click: it reaches the handler only when the control is rendered and
    not disabled. *)
Definition click (ai : Ai) (url : jsstring) (c : Control) (s : State) :
    State * list Effect :=
  if rendered c s && negb (disabled c s) then handler ai url c s else (s, []).

(** *** Operations in flight

    The states that the component renders while the handler of a control,
    called in the state [s], waits for the service: the state after the
    updates that the handler queues before its first [await] and, for the
    advance, the state after those it queues before the second.  There is
    none when the handler returns at its guard, and none for
    [handleStartNew], which does not wait. *)
Definition inFlight (ai : Ai) (c : Control) (s : State) : list State :=
  match c with
  | StartNewButton => []
  | GeneratePromptButton =>
      if negb (truthy (trim (bibleReference s))) then []
      else [s |> setIsSequenceActive false |> setCharacterDescriptions None
              |> setGeneratedImage None |> setImageError None |> setPromptError None
              |> setPromptText [] |> setGeneratedAudioUrl None
              |> setTextForNarration [] |> setNarratedText None
              |> setIsPromptLoading true]
  | GenerateImageButton =>
      if negb (truthy (trim (promptText s))) || isImageLoading s then []
      else [s |> setIsImageLoading true |> setImageError None
              |> setGeneratedImage None]
  | NextVerseButton =>
      let nextVerseRef := getNextVerseRef s in
      match characterDescriptions s with
      | None => []
      | Some chars =>
          if negb (truthy nextVerseRef) then []
          else
            let s1 := s |> setIsImageLoading true |> setImageError None
                        |> setPromptError None |> setBibleReference nextVerseRef in
            s1 :: match (generateImagePrompt ai nextVerseRef (Some chars)).2 with
                  | Ok res =>
                      [s1 |> setPromptText (scenePrompt res)
                          |> setCharacterDescriptions
                               (Some (GeminiService.characterDescriptions res))]
                  | Throw _ => []
                  end
      end
  | FetchVerseButton =>
      if negb (truthy (trim (bibleReference s))) || isFetchingVerse s then []
      else [s |> setIsFetchingVerse true |> setAudioError None
              |> setTextForNarration []]
  | GenerateAudioButton =>
      if negb (truthy (trim (textForNarration s))) || isAudioLoading s then []
      else [s |> setIsAudioLoading true |> setAudioError None
              |> setGeneratedAudioUrl None |> setNarratedText None]
  end.

(** *** The grammar of a reference, as the specification words it

    The text, once trimmed, ends in [<int>:<int>], and what comes before,
    the book segment, is not empty and ends in a character that is not a
    digit. *)

Definition digits (l : jsstring) : Prop :=
  l <> [] /\ Forall (fun c => isDigit c = true) l.

Definition endsInNonDigit (pre : jsstring) : Prop :=
  exists p d, pre = p ++ [d] /\ isDigit d = false.

Definition refGrammar (t pre c v : jsstring) : Prop :=
  t = pre ++ c ++ js ":" ++ v
  /\ endsInNonDigit pre /\ digits c /\ digits v.

(** The book segment, without the white space at its end, has no line
    terminator. *)
Definition onOneLine (pre : jsstring) : Prop :=
  Forall (fun c => isLineTerminator c = false) (trimEnd pre).

(** The shape of the text that the pattern matches, with the parts that
    the three groups capture. *)
Definition refShape (t p : jsstring) (d : N) (w c v : jsstring) : Prop :=
  t = p ++ [d] ++ w ++ c ++ js ":" ++ v
  /\ Forall (fun x => dot x = true) p /\ nonDigit d = true
  /\ Forall (fun x => isWhiteSpace x = true) w
  /\ digits c /\ digits v.

Fixpoint dropZeros (l : jsstring) : jsstring :=
  match l with
  | c :: l' => if bool_decide (c = 48%N) then dropZeros l' else l
  | [] => []
  end.

(** A decimal numeral without leading zeros. *)
Definition stripLeadingZeros (l : jsstring) : jsstring :=
  match dropZeros l with
  | [] => js "0"
  | l' => l'
  end.

(** The normalized [book chapter:verse] form. *)
Definition normalizedForm (pre c v : jsstring) : jsstring :=
  trim pre ++ js " " ++ stripLeadingZeros c ++ js ":" ++ stripLeadingZeros v.

(** *** What an advance of the sequence came to

    The outcome of the two service calls of [handleGenerateNextVerse], read
    off the service functions: the handler returned at once, the
    scene-description call threw, it succeeded and the image call threw, or
    both succeeded. *)

Inductive AdvanceOutcome :=
| NotStarted
| SceneFailed (err : Thrown)
| ImageFailed (res : SceneGenerationResult) (err : Thrown)
| Advanced (res : SceneGenerationResult) (imageBase64 : jsstring).

Definition advanceOutcome (ai : Ai) (s : State) : AdvanceOutcome :=
  match characterDescriptions s with
  | None => NotStarted
  | Some chars =>
      if negb (truthy (getNextVerseRef s)) then NotStarted
      else
        match (generateImagePrompt ai (getNextVerseRef s) (Some chars)).2 with
        | Throw err => SceneFailed err
        | Ok res =>
            match (generateImage ai (scenePrompt res) (aspectRatio s)).2 with
            | Throw err => ImageFailed res err
            | Ok imageBase64 => Advanced res imageBase64
            end
        end
  end.

(** The verse-not-found outcome, as the [catch] block recognises it. *)
Definition isVerseNotFound (err : Thrown) : bool :=
  instanceofError err && includes VERSE_NOT_FOUND (default [] (message err)).

(** The number of [URL.revokeObjectURL(url)] calls in a trace. *)
Definition isRevocationOf (url : jsstring) (e : Effect) : bool :=
  match e with
  | RevokeObjectURL u => bool_decide (u = url)
  | _ => false
  end.

Definition revocations (url : jsstring) (trace : list Effect) : nat :=
  length (List.filter (isRevocationOf url) trace).

(** *** The languages of the selector

    The options of the language [<select>] are the entries of this table;
    [setLanguage] is called with the key of the chosen one. *)
Definition LANGUAGES : list (jsstring * jsstring) :=
  [ (js "pt-BR", js "Português");
    (js "en-US", js "Inglês");
    (js "es-ES", js "Espanhol");
    (js "fr-FR", js "Francês");
    (js "de-DE", js "Alemão") ].

(** A flag after a handler is as it was before, or cleared. *)
Definition keptOrCleared (flag : State -> bool) (s s' : State) : Prop :=
  flag s' = flag s \/ flag s' = false.

(** *** What the user can do

    A click on a control, or a change of one of the inputs.  An input that
    is disabled does not change; the language selector offers the keys of
    [LANGUAGES] and the voice radios the two voice types. *)
Inductive UserEvent :=
| Click (ai : Ai) (url : jsstring) (c : Control)
| ChangeReference (value : jsstring)
| ChangePrompt (value : jsstring)
| ChangeNarrationText (value : jsstring)
| ChangeAspectRatio (value : AspectRatio)
| ChangeLanguage (value : jsstring)
| ChangeVoiceType (value : jsstring).

Definition step (e : UserEvent) (s : State) : State * list Effect :=
  match e with
  | Click ai url c => click ai url c s
  | ChangeReference value =>
      (if isAnyLoading s || isSequenceActive s then s else setBibleReference value s, [])
  | ChangePrompt value =>
      (if isAnyLoading s then s else setPromptText value s, [])
  | ChangeNarrationText value =>
      (if isAnyLoading s then s else setTextForNarration value s, [])
  | ChangeAspectRatio value =>
      (if isAnyLoading s then s else setAspectRatio value s, [])
  | ChangeLanguage value =>
      (if isAnyLoading s || negb (bool_decide (value ∈ LANGUAGES.*1)) then s
       else setLanguage value s, [])
  | ChangeVoiceType value =>
      (if isAnyLoading s || negb (bool_decide (value ∈ [js "adulta"; js "infantil"]))
       then s else setVoiceType value s, [])
  end.

(** The events of a session, in order, from the state [s]. *)
Fixpoint run (events : list UserEvent) (s : State) : State * list Effect :=
  match events with
  | [] => (s, [])
  | e :: events' =>
      let '(s1, trace1) := step e s in
      let '(s2, trace2) := run events' s1 in
      (s2, trace1 ++ trace2)
  end.

(** *** References that print and parse back

    A book that is not empty, has no white space at either end and no line
    terminator, with a chapter and a verse that are non-negative integers a
    number holds exactly. *)
Definition wellFormedRef (r : BibleRef) : Prop :=
  book r <> [] /\ trim (book r) = book r
  /\ Forall (fun c => isLineTerminator c = false) (book r)
  /\ exists c v, chapter r = Int c /\ verse r = Int v
                 /\ 0 <= c <= MAX_SAFE_INTEGER /\ 0 <= v <= MAX_SAFE_INTEGER.

End ImageGenerator.

(** ** Scenarios

    Concrete services and states, used to run the handlers. *)

Module Scenario.
Import GeminiService ImageGenerator.

(** A service that gives the same reply to every request of a kind. *)
Definition service (scene : result (result ApiResponse))
    (image : result (option (list jsstring))) : Ai :=
  {| ai_scene := fun _ => scene;
     ai_image := fun _ _ => image;
     ai_text := fun _ => Ok (js "No princípio criou Deus os céus e a terra.");
     ai_speech := fun _ _ => Ok (Some (js "AAEC")) |}.

Definition sceneReply (prompt : jsstring) (chars : list (jsstring * jsstring)) :
    result (result ApiResponse) :=
  Ok (Ok {| r_scenePrompt := Some prompt; r_characterDescriptions := Some chars;
            r_error := None |}).

Definition verseNotFoundReply : result (result ApiResponse) :=
  Ok (Ok {| r_scenePrompt := None; r_characterDescriptions := None;
            r_error := Some VERSE_NOT_FOUND |}).

Definition imageReply (imageBytes : jsstring) : result (option (list jsstring)) :=
  Ok (Some [imageBytes]).

(** No image came back (the safety filter suppressed it). *)
Definition noImageReply : result (option (list jsstring)) := Ok (Some []).

Definition adam : jsstring * jsstring := (js "Adão", js "homem alto, barba escura").
Definition eve : jsstring * jsstring := (js "Eva", js "mulher de cabelos longos").

(** An active sequence at [ref] with the given cast and an image shown. *)
Definition activeAt (ref : jsstring) (cast : list (jsstring * jsstring)) : State :=
  initialState |> setBibleReference ref
               |> setPromptText (js "Um jardim ao amanhecer.")
               |> setCharacterDescriptions (Some (list_to_map cast))
               |> setGeneratedImage (Some (js "data:image/jpeg;base64,AAAA"))
               |> setIsSequenceActive true.

Definition genesis_1_5 : State := activeAt (js "Gênesis 1:5") [adam].

(** The scene is described, with a new character, and then no image comes
    back. *)
Definition sceneThenNoImage : Ai :=
  service (sceneReply (js "Luz sobre as águas.") [adam; eve]) noImageReply.

(** The reply leaves a character of the sequence out. *)
Definition sceneWithoutEve : Ai :=
  service (sceneReply (js "Adão dá nome aos animais.") [adam]) (imageReply (js "BBBB")).

Definition chapterEnds : Ai := service verseNotFoundReply (imageReply (js "AAAA")).

(** A chapter is traversed to its end: the reference is typed, the prompt
    and the first image are generated, and the advance finds no verse. *)
Definition afterChapterEnd : State :=
  let typed := initialState |> setBibleReference (js "Gênesis 1:31") in
  let prompted :=
    (handleGeneratePrompt
       (service (sceneReply (js "Deus contempla a criação.") [adam; eve])
                (imageReply (js "AAAA"))) typed).1 in
  let illustrated :=
    (handleGenerateImage
       (service (sceneReply [] []) (imageReply (js "AAAA"))) prompted).1 in
  (handleGenerateNextVerse chapterEnds illustrated).1.

Definition imageFails : Ai := service (sceneReply [] []) noImageReply.

(** A reference and a text to narrate are in their fields. *)
Definition narrationTyped : State :=
  initialState |> setBibleReference (js "Gênesis 1:1")
               |> setTextForNarration (js "No princípio").

(** The reference of a verse that does not exist (the chapter has 31) is
    typed and the prompt button clicked; the service answers that there is
    no such verse. *)
Definition missingVerseStart : State * list Effect :=
  run [ChangeReference (js "Gênesis 1:32");
       Click chapterEnds (js "blob:1") GeneratePromptButton]
      initialState.

(** A narration is being generated, and a reference is in the field. *)
Definition narrationInFlight : State :=
  initialState |> setBibleReference (js "Gênesis 1:1")
               |> setTextForNarration (js "No princípio")
               |> setIsAudioLoading true.

(** Two narrations, of different texts, and then the component goes. *)
Definition narrateTwice (url1 url2 : jsstring) : State * list Effect :=
  let ai := service (sceneReply [] []) noImageReply in
  let typed1 := initialState |> setTextForNarration (js "No princípio") in
  let '(s1, trace1) := handleGenerateAudioClick ai url1 typed1 in
  let typed2 := s1 |> setTextForNarration (js "Haja luz") in
  let '(s2, trace2) := handleGenerateAudioClick ai url2 typed2 in
  (s2, trace1 ++ commit s1 typed2 ++ trace2 ++ unmount s2).

(** A book name written on two lines. *)
Definition twoLineReference : jsstring := js "a" ++ [10%N] ++ js "b 1:2".

(** A verse number of 2^53 + 1. *)
Definition unsafeVerseReference : jsstring := js "Gen 1:9007199254740993".

End Scenario.

(** * Properties *)

(** ** The model at work *)

Example js_code_units : js "Gênesis 1:5" = [71; 234; 110; 101; 115; 105; 115; 32; 49; 58; 53]%N.
Proof. reflexivity. Qed.

Example atob_three_bytes : atob (js "AAEC") = Ok [0; 1; 2]%N.
Proof. reflexivity. Qed.

Example atob_padded : atob (js "TWE=") = Ok (js "Ma").
Proof. reflexivity. Qed.

Example createWavBlob_empty :
  Wav.createWavBlob (js "")
  = Ok {| Wav.blob_bytes :=
            [82; 73; 70; 70; 36; 0; 0; 0; 87; 65; 86; 69; 102; 109; 116; 32;
             16; 0; 0; 0; 1; 0; 1; 0; 192; 93; 0; 0; 128; 187; 0; 0; 2; 0; 16; 0;
             100; 97; 116; 97; 0; 0; 0; 0];
          Wav.blob_type := js "audio/wav" |}.
Proof. vm_compute. reflexivity. Qed.

Example parseBibleRef_genesis :
  ImageGenerator.parseBibleRef (js "Gênesis 1:5")
  = Some {| ImageGenerator.book := js "Gênesis";
            ImageGenerator.chapter := Int 1; ImageGenerator.verse := Int 5 |}.
Proof. vm_compute. reflexivity. Qed.

Example parseBibleRef_no_book : ImageGenerator.parseBibleRef (js "1:2") = None.
Proof. vm_compute. reflexivity. Qed.

Example getNextVerseRef_genesis :
  ImageGenerator.getNextVerseRef Scenario.genesis_1_5 = js "Gênesis 1:6".
Proof. vm_compute. reflexivity. Qed.

(** Numbers beyond the safe integers: the nearest number is read, and it is
    printed with the fewest digits that tell it apart. *)
Example numberToString_large :
  numberToString (parseInt10 (js "9007199254740993")) = js "9007199254740992"
  /\ numberToString (Int (2 ^ 60)) = js "1152921504606847000"
  /\ numberToString (parseInt10 (js "123456789012345678901"))
     = js "123456789012345680000"
  /\ numberToString (Int (10 ^ 21)) = js "1e+21"
  /\ numberToString (Int (2 ^ 70)) = js "1.1805916207174113e+21"
  /\ numberToString (Int (2 ^ 1024 - 2 ^ 971)) = js "1.7976931348623157e+308"
  /\ numberToString (Int (-12)) = js "-12".
Proof. repeat (split; [vm_compute; reflexivity|]). vm_compute. reflexivity. Qed.

(** A numeral too long for a number is read as [Infinity], and the
    reference that is formatted from it does not parse. *)
Example parseBibleRef_overflow :
  ImageGenerator.verse
    <$> ImageGenerator.parseBibleRef (js "Gen 1:" ++ replicate 310 57%N)
  = Some PosInfinity
  /\ ImageGenerator.formatBibleRef
       <$> ImageGenerator.parseBibleRef (js "Gen 1:" ++ replicate 310 57%N)
     = Some (js "Gen 1:Infinity")
  /\ ImageGenerator.parseBibleRef (js "Gen 1:Infinity") = None.
Proof. repeat (split; [vm_compute; reflexivity|]). vm_compute. reflexivity. Qed.

(** A fresh start at Gênesis 1:1: the scene comes back with two characters
    and the image is generated; the sequence is active at the same
    reference with a cast of two. *)
Example fresh_start_genesis_1_1 :
  let ai := Scenario.service
              (Scenario.sceneReply (js "No princípio.") [Scenario.adam; Scenario.eve])
              (Scenario.imageReply (js "AAAA")) in
  let typed := ImageGenerator.setBibleReference (js "Gênesis 1:1")
                 ImageGenerator.initialState in
  let s := (ImageGenerator.handleGenerateImage ai
              (ImageGenerator.handleGeneratePrompt ai typed).1).1 in
  ImageGenerator.isSequenceActive s = true
  /\ ImageGenerator.bibleReference s = js "Gênesis 1:1"
  /\ size <$> ImageGenerator.characterDescriptions s = Some 2%nat.
Proof. vm_compute. auto. Qed.

(** ** The WAV container *)

Section WavEncoding.
Import Wav.

Lemma writeBytes_overwrite (a old c new : list Z) :
  length old = length new ->
  writeBytes (a ++ old ++ c) (length a) new = (a ++ new) ++ c.
Proof.
  revert a old. induction new as [|b new IH]; intros a old Hlen.
  - destruct old; [|discriminate]. by rewrite app_nil_r.
  - destruct old as [|o old]; [discriminate|]. simpl in *.
    replace (length a) with (length a + 0)%nat at 1 by lia.
    rewrite insert_app_r. simpl.
    replace (a ++ b :: old ++ c) with ((a ++ [b]) ++ old ++ c)
      by (by rewrite <- app_assoc).
    replace (S (length a)) with (length (a ++ [b]))
      by (rewrite length_app; simpl; lia).
    rewrite IH by lia. by rewrite <- (app_assoc a [b] new).
Qed.

Lemma length_bytesOf n v : length (bytesOf n v) = n.
Proof. revert v. induction n; intros; simpl; auto. Qed.

Lemma setUint_overwrite n (a old c : list Z) off v :
  off = length a -> length old = n ->
  setUint n (a ++ old ++ c) off v true = Ok ((a ++ bytesOf n v) ++ c).
Proof.
  intros -> Hold. unfold setUint.
  rewrite bool_decide_true by (rewrite !length_app; lia).
  by rewrite writeBytes_overwrite by (by rewrite length_bytesOf).
Qed.

Lemma setUint8_overwrite (a c : list Z) o off v :
  off = length a ->
  setUint8 (a ++ o :: c) off v = Ok ((a ++ [v `mod` 256]) ++ c).
Proof.
  intros ->. unfold setUint8, setUint.
  rewrite bool_decide_true by (rewrite length_app; simpl; lia).
  by rewrite (writeBytes_overwrite a [o] c).
Qed.

Lemma writeString_from_overwrite (str : jsstring) :
  forall (a old c : list Z) off i,
  (off + i)%nat = length a -> length old = length str ->
  writeString_from i (a ++ old ++ c) off str
  = Ok ((a ++ ((fun ch => Z.of_N ch `mod` 256) <$> str)) ++ c).
Proof.
  induction str as [|ch str IH]; intros a old c off i Hoff Hlen.
  - destruct old; [|discriminate]. simpl. by rewrite app_nil_r.
  - destruct old as [|o old]; [discriminate|]. simpl.
    rewrite setUint8_overwrite by done. simpl.
    change (mbind ?f (Ok ?x)) with (f x). cbv beta.
    rewrite (IH (a ++ [Z.of_N ch `mod` 256]) old c off (S i)).
    + by rewrite <- (app_assoc a [_]).
    + rewrite length_app. simpl. lia.
    + simpl in Hlen. lia.
Qed.

Lemma writeString_overwrite (str : jsstring) (a old c : list Z) off :
  off = length a -> length old = length str ->
  writeString (a ++ old ++ c) off str
  = Ok ((a ++ ((fun ch => Z.of_N ch `mod` 256) <$> str)) ++ c).
Proof. intros. apply writeString_from_overwrite; lia. Qed.

Lemma writePcm_from_overwrite (pcm : list Z) :
  forall (a old : list Z) i,
  (44 + i)%nat = length a -> length old = length pcm ->
  writePcm_from i (a ++ old) pcm = Ok (a ++ ((fun b => b `mod` 256) <$> pcm)).
Proof.
  induction pcm as [|b pcm IH]; intros a old i Hoff Hlen.
  - destruct old; [|discriminate]. done.
  - destruct old as [|o old]; [discriminate|]. simpl.
    rewrite setUint8_overwrite by done.
    change (mbind ?f (Ok ?x)) with (f x). cbv beta.
    rewrite (IH (a ++ [b `mod` 256]) old (S i)).
    + by rewrite <- (app_assoc a [_]).
    + rewrite length_app. simpl. lia.
    + simpl in Hlen. lia.
Qed.


Lemma length_wavHeader n : length (wavHeader n) = 44%nat.
Proof. reflexivity. Qed.

Lemma createWavBlob_bytes (base64 binaryString : jsstring) :
  atob base64 = Ok binaryString ->
  createWavBlob base64
  = Ok {| blob_bytes := wavHeader (length binaryString)
                        ++ ((fun c => Z.of_N c `mod` 256) <$> binaryString);
          blob_type := js "audio/wav" |}.
Proof.
  intros Hatob. unfold createWavBlob. rewrite Hatob.
  change (mbind ?f (Ok ?x)) with (f x). cbv beta zeta.
  rewrite length_fmap.
  set (n := length binaryString).
  set (pcm := (fun c => Z.of_N c `mod` 256) <$> binaryString).
  assert (Hpcm : length pcm = n) by (subst pcm n; apply length_fmap).
  replace (replicate (44 + n) 0)
    with ([] ++ replicate 4 0 ++ replicate 4 0 ++ replicate 4 0 ++ replicate 4 0
          ++ replicate 4 0 ++ replicate 2 0 ++ replicate 2 0 ++ replicate 4 0
          ++ replicate 4 0 ++ replicate 2 0 ++ replicate 2 0 ++ replicate 4 0
          ++ replicate 4 0 ++ replicate n 0)
    by (rewrite <- !replicate_add; f_equal).
  unfold setUint32, setUint16.
  do 13 (first [ rewrite writeString_overwrite by reflexivity
               | rewrite setUint_overwrite by reflexivity ];
         change (mbind ?f (Ok ?x)) with (f x); cbv beta).
  rewrite writePcm_from_overwrite
    by (try reflexivity; by rewrite length_replicate).
  change (mbind ?f (Ok ?x)) with (f x). cbv beta.
  unfold mret, result_ret. do 2 f_equal.
  f_equal.
  subst pcm. rewrite <- list_fmap_compose.
  apply list_fmap_ext. intros _ c _. simpl. apply Z.mod_mod. lia.
Qed.

Lemma foldr_bytesOf n v :
  foldr (fun b acc => b + 256 * acc) 0 (bytesOf n v) = v `mod` 256 ^ Z.of_nat n.
Proof.
  revert v. induction n as [|n IH]; intros v.
  - simpl. by rewrite Z.mod_1_r.
  - cbn [bytesOf foldr]. rewrite IH, Nat2Z.inj_succ, Z.pow_succ_r by lia.
    rewrite Z.rem_mul_r by lia. reflexivity.
Qed.

Lemma bytesOf_range n v : Forall (fun b => 0 <= b < 256) (bytesOf n v).
Proof.
  revert v. induction n; intros v; constructor; auto.
  apply Z.mod_pos_bound. lia.
Qed.

Lemma octet_lt z : (octet z < 256)%N.
Proof. unfold octet. pose proof (Z.mod_pos_bound z 256). lia. Qed.

Lemma decodeSextets_octets l : Forall (fun c => (c < 256)%N) (decodeSextets l).
Proof.
  assert (H : forall n l, (length l <= n)%nat ->
              Forall (fun c => (c < 256)%N) (decodeSextets l)).
  { clear l. induction n as [|n IH]; intros l Hl.
    - destruct l; [constructor | simpl in Hl; lia].
    - destruct l as [|a [|b [|c [|d r]]]]; simpl;
        repeat (constructor; try apply octet_lt).
      apply IH. simpl in Hl. lia. }
  by apply (H (length l)).
Qed.

Lemma atob_octets (data binaryString : jsstring) :
  atob data = Ok binaryString -> Forall (fun c => (c < 256)%N) binaryString.
Proof.
  unfold atob. case_bool_decide; [discriminate|].
  destruct (mapM _ _); [|discriminate].
  intros [= <-]. apply decodeSextets_octets.
Qed.

End WavEncoding.

(** C4.  For every byte buffer that the base64 payload decodes to, the
    empty one included, and of a size that the 32-bit size fields can hold,
    [createWavBlob] does not throw and returns a blob of [44 + len] bytes:
    the 44-byte header, little-endian, with RIFF and its size [36 + len],
    WAVE, the fmt sub-chunk (size 16, format 1, one channel, 24000 Hz, byte
    rate 48000, block align 2, 16 bits) and the data tag with size [len],
    followed by the decoded bytes unchanged.  The result is a function of
    the input bytes alone. *)
Theorem createWavBlob_container (base64 pcmBytes : jsstring) :
  atob base64 = Ok pcmBytes ->
  36 + Z.of_nat (length pcmBytes) < 2 ^ 32 ->
  exists bytes,
    Wav.createWavBlob base64
      = Ok {| Wav.blob_bytes := bytes; Wav.blob_type := js "audio/wav" |}
    /\ bytes = Wav.wavHeader (length pcmBytes) ++ (Z.of_N <$> pcmBytes)
    /\ length bytes = (44 + length pcmBytes)%nat
    /\ Forall (fun b => 0 <= b < 256) bytes
    /\ take 4 bytes = Z.of_N <$> js "RIFF"
    /\ getUintLE 4 bytes 4 = 36 + Z.of_nat (length pcmBytes)
    /\ take 4 (drop 8 bytes) = Z.of_N <$> js "WAVE"
    /\ take 4 (drop 12 bytes) = Z.of_N <$> js "fmt "
    /\ getUintLE 4 bytes 16 = 16
    /\ getUintLE 2 bytes 20 = 1
    /\ getUintLE 2 bytes 22 = 1
    /\ getUintLE 4 bytes 24 = 24000
    /\ getUintLE 4 bytes 28 = 48000
    /\ getUintLE 2 bytes 32 = 2
    /\ getUintLE 2 bytes 34 = 16
    /\ take 4 (drop 36 bytes) = Z.of_N <$> js "data"
    /\ getUintLE 4 bytes 40 = Z.of_nat (length pcmBytes)
    /\ drop 44 bytes = Z.of_N <$> pcmBytes.
Proof.
  intros Hatob Hsize.
  pose proof (atob_octets _ _ Hatob) as Hoct.
  assert (Hpcm : (fun c => Z.of_N c `mod` 256) <$> pcmBytes = Z.of_N <$> pcmBytes).
  { apply Forall_fmap_ext_1. eapply Forall_impl; [exact Hoct|].
    intros c Hc. simpl in *. apply Z.mod_small. lia. }
  exists (Wav.wavHeader (length pcmBytes) ++ (Z.of_N <$> pcmBytes)).
  split; [by rewrite (createWavBlob_bytes _ _ Hatob), Hpcm|].
  split; [reflexivity|].
  split; [by rewrite length_app, length_fmap, length_wavHeader|].
  split.
  { apply Forall_app. split.
    - unfold Wav.wavHeader. repeat (apply Forall_app; split);
        try apply bytesOf_range;
        match goal with
        | |- Forall _ ?l =>
            let l' := eval vm_compute in l in
            change l with l'; repeat (constructor; [lia|]); constructor
        end.
    - apply Forall_fmap. eapply Forall_impl; [exact Hoct|]. intros c Hc. simpl in *. lia. }
  set (n := length pcmBytes) in *. set (pcm := Z.of_N <$> pcmBytes).
  assert (H32 : forall v, 0 <= v < 2 ^ 32 ->
            foldr (fun b acc => b + 256 * acc) 0 (bytesOf 4 v) = v).
  { intros v Hv. rewrite foldr_bytesOf. apply Z.mod_small. simpl. lia. }
  repeat split; try reflexivity.
  - change (getUintLE 4 (Wav.wavHeader n ++ pcm) 4)
      with (foldr (fun b acc => b + 256 * acc) 0 (bytesOf 4 (36 + Z.of_nat n))).
    apply H32. lia.
  - change (getUintLE 4 (Wav.wavHeader n ++ pcm) 40)
      with (foldr (fun b acc => b + 256 * acc) 0 (bytesOf 4 (Z.of_nat n))).
    apply H32. lia.
Qed.

Lemma createWavBlob_container_witness :
  exists bytes,
    Wav.createWavBlob (js "AAEC")
      = Ok {| Wav.blob_bytes := bytes; Wav.blob_type := js "audio/wav" |}
    /\ bytes = Wav.wavHeader 3 ++ [0; 1; 2]
    /\ length bytes = 47%nat.
Proof.
  destruct (createWavBlob_container (js "AAEC") [0; 1; 2]%N) as (bytes & H1 & H2 & H3 & _).
  - reflexivity.
  - simpl. lia.
  - exists bytes. auto.
Defined.


(** ** Advancing the sequence *)

Section Sequence.
Import GeminiService ImageGenerator.

(** Every case of the handler, with the state it leaves as a function of
    the outcome. *)
Ltac advance_cases ai s :=
  unfold handleGenerateNextVerse, advanceOutcome;
  destruct (characterDescriptions s) as [chars|] eqn:Hchars; [|try done];
  destruct (truthy (getNextVerseRef s)) eqn:Hnext; cbn [negb]; cbv iota; [|try done];
  cbv zeta;
  destruct (generateImagePrompt ai (getNextVerseRef s) (Some chars)) as [calls1 [res|err1]];
  cbn [snd];
  [ destruct (generateImage ai (scenePrompt res) (aspectRatio s)) as [calls2 [img|err2]];
    cbn [snd] | ];
  unfold nextVerseCatch;
  repeat match goal with
         | |- context [if ?b then _ else _] => destruct b eqn:?
         end.

Lemma advance_reference (ai : Ai) (s : State) :
  bibleReference (handleGenerateNextVerse ai s).1
  = match advanceOutcome ai s with
    | Advanced _ _ => getNextVerseRef s
    | _ => bibleReference s
    end.
Proof. advance_cases ai s; by destruct s. Qed.

Lemma advance_characters (ai : Ai) (s : State) :
  characterDescriptions (handleGenerateNextVerse ai s).1
  = match advanceOutcome ai s with
    | NotStarted | SceneFailed _ => characterDescriptions s
    | ImageFailed res _ | Advanced res _ => Some (GeminiService.characterDescriptions res)
    end.
Proof. advance_cases ai s; by destruct s. Qed.

Lemma advance_active (ai : Ai) (s : State) :
  isSequenceActive (handleGenerateNextVerse ai s).1
  = match advanceOutcome ai s with
    | NotStarted => isSequenceActive s
    | SceneFailed err | ImageFailed _ err =>
        if isVerseNotFound err then false else isSequenceActive s
    | Advanced _ _ => true
    end.
Proof. unfold isVerseNotFound. advance_cases ai s; by destruct s. Qed.

Lemma advance_imageError (ai : Ai) (s : State) :
  imageError (handleGenerateNextVerse ai s).1
  = match advanceOutcome ai s with
    | NotStarted => imageError s
    | SceneFailed err | ImageFailed _ err =>
        Some (if isVerseNotFound err then chapterEnded
              else if isServerError err then serverErrorLong
              else messageOr err (js "Falha ao gerar o próximo versículo."))
    | Advanced _ _ => None
    end.
Proof. unfold isVerseNotFound. advance_cases ai s; by destruct s. Qed.

(** The service function on a reply that carries the verse-not-found
    field: it throws [Error('VERSE_NOT_FOUND')], whatever else the reply
    holds. *)
Lemma generateImagePrompt_verse_not_found (ai : Ai) ref existing resp :
  (forall req, req_bibleReference req = ref -> ai_scene ai req = Ok (Ok resp)) ->
  r_error resp = Some VERSE_NOT_FOUND ->
  (generateImagePrompt ai ref existing).2 = Throw (newError VERSE_NOT_FOUND).
Proof.
  intros Hai Herr. unfold generateImagePrompt. cbn [snd].
  rewrite Hai by reflexivity.
  change (mbind ?f (Ok ?x)) with (f x). cbv beta.
  rewrite Herr. by rewrite bool_decide_true.
Qed.

Lemma commit_same_url (a b : State) :
  generatedAudioUrl a = generatedAudioUrl b -> commit a b = [].
Proof. intros H. unfold commit. by rewrite bool_decide_true. Qed.

(** The commit of [setGeneratedAudioUrl(null)] runs the clean-up of the
    render before it. *)
Lemma commit_to_none (a b : State) :
  generatedAudioUrl b = None -> commit a b = cleanup (generatedAudioUrl a).
Proof.
  intros Hb. unfold commit. rewrite Hb.
  case_bool_decide as Ha; [by rewrite Ha|done].
Qed.

(** The clean-up of a render without a URL does nothing. *)
Lemma commit_from_none (a b : State) : generatedAudioUrl a = None -> commit a b = [].
Proof. intros Ha. unfold commit. rewrite Ha. by case_bool_decide. Qed.

Lemma advance_trace (ai : Ai) (s : State) :
  (handleGenerateNextVerse ai s).2
  = Network <$>
    match advanceOutcome ai s with
    | NotStarted => []
    | SceneFailed _ =>
        [SceneCall (sceneRequest (getNextVerseRef s) (characterDescriptions s))]
    | ImageFailed res _ | Advanced res _ =>
        [SceneCall (sceneRequest (getNextVerseRef s) (characterDescriptions s));
         ImageCall (scenePrompt res ++ STYLE_PROMPT_APPENDIX) (aspectRatio s)]
    end.
Proof.
  unfold handleGenerateNextVerse, advanceOutcome.
  destruct (characterDescriptions s) as [chars|] eqn:Hchars; [|done].
  destruct (truthy (getNextVerseRef s)) eqn:Hnext; cbn [negb]; cbv iota; [|done].
  cbv zeta. unfold generateImagePrompt at 1 2. cbv zeta.
  set (r1 := match ai_scene ai _ with Ok _ => _ | Throw e => _ end).
  destruct r1 as [res|err1]; cbn [snd].
  - unfold generateImage. cbv zeta.
    set (r2 := match ai_image ai _ _ with Ok _ => _ | Throw e => _ end).
    destruct r2 as [img|err2]; cbn [snd];
      rewrite !commit_same_url; try done;
      unfold nextVerseCatch;
      repeat match goal with
             | |- context [if ?b then _ else _] => destruct b
             end; by destruct s.
  - rewrite !commit_same_url; try done;
      unfold nextVerseCatch;
      repeat match goal with
             | |- context [if ?b then _ else _] => destruct b
             end; by destruct s.
Qed.

Lemma chapterEnded_not_generic :
  chapterEnded <> serverErrorLong
  /\ chapterEnded <> js "Falha ao gerar o próximo versículo."
  /\ chapterEnded <> VERSE_NOT_FOUND.
Proof. repeat split; intros H; vm_compute in H; discriminate H. Qed.

(** In a fresh start the same signal is not told apart: the prompt error
    shown is the message of the error, the raw signal. *)
Lemma generatePrompt_verse_not_found_message (ai : Ai) (s : State) :
  truthy (trim (bibleReference s)) = true ->
  (generateImagePrompt ai (bibleReference s) None).2 = Throw (newError VERSE_NOT_FOUND) ->
  promptError (handleGeneratePrompt ai s).1 = Some VERSE_NOT_FOUND.
Proof.
  intros Hblank Hthrow. unfold handleGeneratePrompt. rewrite Hblank. cbn [negb].
  destruct (generateImagePrompt ai _ None) as [calls r]. cbn [snd] in Hthrow. subst r.
  assert (Hs : isServerError (newError VERSE_NOT_FOUND) = false)
    by (vm_compute; reflexivity).
  rewrite Hs. by destruct s.
Qed.

End Sequence.

(** C1.  After [handleGenerateNextVerse], the reference is the next verse
    exactly when both the scene-description call and the image call
    succeeded; when the handler returns at once, when the scene-description
    call fails (the verse-not-found outcome included) and when the image
    call fails, the reference is the one from before the call. *)
Theorem advanceSequence_reference_commit
    (ai : GeminiService.Ai) (s : ImageGenerator.State) :
  let s' := (ImageGenerator.handleGenerateNextVerse ai s).1 in
  ImageGenerator.bibleReference s'
  = match ImageGenerator.advanceOutcome ai s with
    | ImageGenerator.NotStarted => ImageGenerator.bibleReference s
    | ImageGenerator.SceneFailed _ => ImageGenerator.bibleReference s
    | ImageGenerator.ImageFailed _ _ => ImageGenerator.bibleReference s
    | ImageGenerator.Advanced _ _ => ImageGenerator.getNextVerseRef s
    end
  /\ (ImageGenerator.bibleReference s' <> ImageGenerator.bibleReference s ->
      exists res imageBase64,
        ImageGenerator.advanceOutcome ai s = ImageGenerator.Advanced res imageBase64).
Proof.
  cbv zeta. rewrite advance_reference.
  destruct (ImageGenerator.advanceOutcome ai s) as [|err|res err|res img];
    (split; [reflexivity|]); intros Hne; try done; eauto.
Qed.

Lemma advanceSequence_reference_commit_witness :
  ImageGenerator.bibleReference
    (ImageGenerator.handleGenerateNextVerse
       Scenario.sceneThenNoImage Scenario.genesis_1_5).1
  = js "Gênesis 1:5".
Proof.
  destruct (advanceSequence_reference_commit
              Scenario.sceneThenNoImage Scenario.genesis_1_5) as [H _].
  rewrite H. vm_compute. reflexivity.
Defined.


(** The verse-not-found outcome in an advance.  When the reply to the
    scene-description request carries the verse-not-found field, the
    service function throws [Error('VERSE_NOT_FOUND')] and the handler ends
    the sequence, puts the reference back, and shows the chapter-ended
    message, which is none of the generic error messages nor the raw
    signal; no image is requested. *)
Theorem advanceSequence_verse_not_found
    (ai : GeminiService.Ai) (s : ImageGenerator.State)
    (chars : gmap jsstring jsstring) (resp : GeminiService.ApiResponse) :
  ImageGenerator.characterDescriptions s = Some chars ->
  ImageGenerator.getNextVerseRef s <> [] ->
  (forall req,
     GeminiService.req_bibleReference req = ImageGenerator.getNextVerseRef s ->
     GeminiService.ai_scene ai req = Ok (Ok resp)) ->
  GeminiService.r_error resp = Some GeminiService.VERSE_NOT_FOUND ->
  let s' := (ImageGenerator.handleGenerateNextVerse ai s).1 in
  ImageGenerator.advanceOutcome ai s
    = ImageGenerator.SceneFailed (newError GeminiService.VERSE_NOT_FOUND)
  /\ ImageGenerator.isSequenceActive s' = false
  /\ ImageGenerator.bibleReference s' = ImageGenerator.bibleReference s
  /\ ImageGenerator.imageError s' = Some ImageGenerator.chapterEnded
  /\ ImageGenerator.chapterEnded <> ImageGenerator.serverErrorLong
  /\ ImageGenerator.chapterEnded <> js "Falha ao gerar o próximo versículo."
  /\ ImageGenerator.chapterEnded <> GeminiService.VERSE_NOT_FOUND
  /\ (ImageGenerator.handleGenerateNextVerse ai s).2
     = [ImageGenerator.Network (GeminiService.SceneCall
          (GeminiService.sceneRequest (ImageGenerator.getNextVerseRef s) (Some chars)))].
Proof.
  intros Hchars Hnext Hai Herr s'.
  assert (Ht : truthy (ImageGenerator.getNextVerseRef s) = true)
    by (destruct (ImageGenerator.getNextVerseRef s); done).
  pose proof (generateImagePrompt_verse_not_found ai _ (Some chars) resp Hai Herr)
    as Hthrow.
  assert (Hout : ImageGenerator.advanceOutcome ai s
                 = ImageGenerator.SceneFailed (newError GeminiService.VERSE_NOT_FOUND)).
  { unfold ImageGenerator.advanceOutcome. by rewrite Hchars, Ht, Hthrow. }
  split; [exact Hout|].
  subst s'.
  rewrite advance_active, advance_reference, advance_imageError, advance_trace, Hout.
  rewrite Hchars.
  pose proof chapterEnded_not_generic as (H1 & H2 & H3).
  repeat split; assumption || reflexivity.
Qed.

Lemma advanceSequence_verse_not_found_witness :
  ImageGenerator.isSequenceActive Scenario.genesis_1_5 = true
  /\ ImageGenerator.isSequenceActive
       (ImageGenerator.handleGenerateNextVerse
          Scenario.chapterEnds Scenario.genesis_1_5).1 = false
  /\ ImageGenerator.bibleReference
       (ImageGenerator.handleGenerateNextVerse
          Scenario.chapterEnds Scenario.genesis_1_5).1 = js "Gênesis 1:5"
  /\ ImageGenerator.imageError
       (ImageGenerator.handleGenerateNextVerse
          Scenario.chapterEnds Scenario.genesis_1_5).1
     = Some (js "Fim do capítulo. Inicie uma nova cena.").
Proof.
  destruct (advanceSequence_verse_not_found Scenario.chapterEnds Scenario.genesis_1_5
              (list_to_map [Scenario.adam])
              {| GeminiService.r_scenePrompt := None;
                 GeminiService.r_characterDescriptions := None;
                 GeminiService.r_error := Some GeminiService.VERSE_NOT_FOUND |})
    as (_ & Hactive & Href & Herr & _).
  - reflexivity.
  - vm_compute. discriminate.
  - intros req _. reflexivity.
  - reflexivity.
  - rewrite Hactive, Href, Herr. repeat split; reflexivity.
Defined.

(** C2 on the component: the verse-not-found signal is handled in the
    advance only.  In a fresh start, with the reference of a verse that
    does not exist typed and the prompt button clicked, the service answers
    with the verse-not-found reply and throws the same signal; the handler
    has no branch for it and shows the message of the error through its
    generic branch: the prompt error is the raw text [VERSE_NOT_FOUND], not
    the chapter-ended message that the advance shows for the same reply
    of the same service. *)
Theorem fresh_start_surfaces_verse_not_found :
  Scenario.missingVerseStart.2
  = [ImageGenerator.Network (GeminiService.SceneCall
       (GeminiService.sceneRequest (js "Gênesis 1:32") None))]
  /\ (GeminiService.generateImagePrompt Scenario.chapterEnds (js "Gênesis 1:32") None).2
     = Throw (newError GeminiService.VERSE_NOT_FOUND)
  /\ ImageGenerator.promptError Scenario.missingVerseStart.1
     = Some (js "VERSE_NOT_FOUND")
  /\ ImageGenerator.promptError Scenario.missingVerseStart.1
     = Some (ImageGenerator.messageOr (newError GeminiService.VERSE_NOT_FOUND)
               (js "Ocorreu um erro ao gerar o prompt. Tente um versículo diferente."))
  /\ ImageGenerator.promptError Scenario.missingVerseStart.1
     <> Some ImageGenerator.chapterEnded
  /\ ImageGenerator.imageError Scenario.missingVerseStart.1 = None
  /\ ImageGenerator.imageError
       (ImageGenerator.handleGenerateNextVerse Scenario.chapterEnds
          Scenario.genesis_1_5).1
     = Some ImageGenerator.chapterEnded.
Proof.
  do 4 (split; [vm_compute; reflexivity|]).
  split; [intros H; vm_compute in H; discriminate H|].
  split; vm_compute; reflexivity.
Qed.

(** C3, as the component has it.  The character set after an advance is
    the one from before the call when the handler returns at once or the
    scene-description call fails; once the scene-description call has
    succeeded, the set it returned is the set of the component, whether the
    image call then succeeds or fails. *)
Theorem advanceSequence_characters
    (ai : GeminiService.Ai) (s : ImageGenerator.State) :
  ImageGenerator.characterDescriptions (ImageGenerator.handleGenerateNextVerse ai s).1
  = match ImageGenerator.advanceOutcome ai s with
    | ImageGenerator.NotStarted => ImageGenerator.characterDescriptions s
    | ImageGenerator.SceneFailed _ => ImageGenerator.characterDescriptions s
    | ImageGenerator.ImageFailed res _ =>
        Some (GeminiService.characterDescriptions res)
    | ImageGenerator.Advanced res _ =>
        Some (GeminiService.characterDescriptions res)
    end.
Proof.
  rewrite advance_characters.
  by destruct (ImageGenerator.advanceOutcome ai s).
Qed.

(** C3 as stated fails: the scene-description call succeeds with a new
    character, the image call fails with an error that is not the boundary
    signal, and the merged set is still there after the call. *)
Lemma advanceSequence_merge_survives_image_failure :
  (exists res err,
     ImageGenerator.advanceOutcome Scenario.sceneThenNoImage Scenario.genesis_1_5
       = ImageGenerator.ImageFailed res err
     /\ ImageGenerator.isVerseNotFound err = false)
  /\ ImageGenerator.bibleReference
       (ImageGenerator.handleGenerateNextVerse
          Scenario.sceneThenNoImage Scenario.genesis_1_5).1
     = ImageGenerator.bibleReference Scenario.genesis_1_5
  /\ ImageGenerator.characterDescriptions
       (ImageGenerator.handleGenerateNextVerse
          Scenario.sceneThenNoImage Scenario.genesis_1_5).1
     <> ImageGenerator.characterDescriptions Scenario.genesis_1_5.
Proof.
  split; [|split].
  - eexists _, _. split; [vm_compute; reflexivity | vm_compute; reflexivity].
  - vm_compute. reflexivity.
  - intros H. apply (f_equal (fun o => o ≫= (.!! js "Eva"))) in H.
    vm_compute in H. discriminate H.
Qed.

(** C5.  When the scene-description call succeeds, the character set of
    the component is the set of the result, in a fresh start
    ([handleGeneratePrompt]) and in an advance ([handleGenerateNextVerse]):
    a character that the component had and that the result lacks is
    gone. *)
Theorem continuity_merge_is_replace
    (ai : GeminiService.Ai) (s : ImageGenerator.State)
    (res : GeminiService.SceneGenerationResult) :
  (truthy (trim (ImageGenerator.bibleReference s)) = true ->
   (GeminiService.generateImagePrompt ai (ImageGenerator.bibleReference s) None).2
     = Ok res ->
   ImageGenerator.characterDescriptions (ImageGenerator.handleGeneratePrompt ai s).1
     = Some (GeminiService.characterDescriptions res))
  /\ (forall chars,
        ImageGenerator.characterDescriptions s = Some chars ->
        ImageGenerator.getNextVerseRef s <> [] ->
        (GeminiService.generateImagePrompt ai (ImageGenerator.getNextVerseRef s)
           (Some chars)).2 = Ok res ->
        ImageGenerator.characterDescriptions
          (ImageGenerator.handleGenerateNextVerse ai s).1
          = Some (GeminiService.characterDescriptions res)
        /\ forall name,
             is_Some (chars !! name) ->
             GeminiService.characterDescriptions res !! name = None ->
             ImageGenerator.characterDescriptions
               (ImageGenerator.handleGenerateNextVerse ai s).1 ≫= (.!! name)
             = None).
Proof.
  split.
  - intros Hblank Hres. unfold ImageGenerator.handleGeneratePrompt.
    rewrite Hblank. cbn [negb].
    destruct (GeminiService.generateImagePrompt ai _ None) as [calls r].
    cbn [snd] in Hres. subst r. by destruct s.
  - intros chars Hchars Hnext Hres.
    assert (Ht : truthy (ImageGenerator.getNextVerseRef s) = true)
      by (destruct (ImageGenerator.getNextVerseRef s); done).
    rewrite advance_characters. unfold ImageGenerator.advanceOutcome.
    rewrite Hchars, Ht, Hres. cbn [negb].
    destruct (GeminiService.generateImage ai _ _).2;
      (split; [reflexivity|]); intros name _ Hnone; exact Hnone.
Qed.

Lemma continuity_merge_is_replace_witness :
  ImageGenerator.characterDescriptions
    (Scenario.activeAt (js "Gênesis 2:19") [Scenario.adam; Scenario.eve])
    ≫= (.!! js "Eva") = Some (js "mulher de cabelos longos")
  /\ ImageGenerator.characterDescriptions
       (ImageGenerator.handleGenerateNextVerse Scenario.sceneWithoutEve
          (Scenario.activeAt (js "Gênesis 2:19") [Scenario.adam; Scenario.eve])).1
       ≫= (.!! js "Eva") = None.
Proof.
  split; [reflexivity|].
  destruct (continuity_merge_is_replace Scenario.sceneWithoutEve
              (Scenario.activeAt (js "Gênesis 2:19") [Scenario.adam; Scenario.eve])
              {| GeminiService.scenePrompt := js "Adão dá nome aos animais.";
                 GeminiService.characterDescriptions := list_to_map [Scenario.adam] |})
    as [_ H].
  destruct (H (list_to_map [Scenario.adam; Scenario.eve])) as [_ Hdrop].
  - reflexivity.
  - vm_compute. discriminate.
  - vm_compute. reflexivity.
  - apply Hdrop; [vm_compute; eauto | vm_compute; reflexivity].
Defined.

(** ** Generating an image for the prompt *)

(** C8, as the component has it.  When the prompt is not blank and no
    image is being generated, a failure of the image call leaves the active
    flag, the reference and the character set as they were and clears the
    image shown; a success marks the sequence active and stores the image. *)
Theorem generateImageForPrompt_state
    (ai : GeminiService.Ai) (s : ImageGenerator.State) :
  truthy (trim (ImageGenerator.promptText s)) = true ->
  ImageGenerator.isImageLoading s = false ->
  let s' := (ImageGenerator.handleGenerateImage ai s).1 in
  ImageGenerator.bibleReference s' = ImageGenerator.bibleReference s
  /\ ImageGenerator.characterDescriptions s' = ImageGenerator.characterDescriptions s
  /\ match (GeminiService.generateImage ai (ImageGenerator.promptText s)
              (ImageGenerator.aspectRatio s)).2 with
     | Ok imageBase64 =>
         ImageGenerator.isSequenceActive s' = true
         /\ ImageGenerator.generatedImage s'
            = Some (js "data:image/jpeg;base64," ++ imageBase64)
     | Throw err =>
         ImageGenerator.isSequenceActive s' = ImageGenerator.isSequenceActive s
         /\ ImageGenerator.generatedImage s' = None
         /\ exists msg, ImageGenerator.imageError s' = Some msg
     end.
Proof.
  intros Hprompt Hloading. unfold ImageGenerator.handleGenerateImage.
  rewrite Hprompt, Hloading. cbn [negb orb].
  destruct (GeminiService.generateImage ai _ _) as [calls [img|err]]; cbn [snd].
  - by destruct s.
  - destruct (ImageGenerator.isServerError err); destruct s;
      (repeat split; try reflexivity); eexists; reflexivity.
Qed.

Lemma generateImageForPrompt_state_witness :
  ImageGenerator.isSequenceActive
    (ImageGenerator.handleGenerateImage Scenario.imageFails Scenario.afterChapterEnd).1
  = false
  /\ ImageGenerator.generatedImage
       (ImageGenerator.handleGenerateImage Scenario.imageFails Scenario.afterChapterEnd).1
     = None.
Proof.
  destruct (generateImageForPrompt_state Scenario.imageFails Scenario.afterChapterEnd)
    as (_ & _ & H).
  - vm_compute. reflexivity.
  - vm_compute. reflexivity.
  - change (GeminiService.generateImage Scenario.imageFails
              (ImageGenerator.promptText Scenario.afterChapterEnd)
              (ImageGenerator.aspectRatio Scenario.afterChapterEnd)).2
      with (@Throw jsstring (newError (js "A imagem não pôde ser gerada. Isso pode ocorrer devido a filtros de segurança sobre o conteúdo da cena. Tente um versículo diferente ou uma nova cena com uma descrição menos explícita."))) in H.
    destruct H as (H1 & H2 & _). rewrite H1, H2. split; [vm_compute|]; reflexivity.
Defined.

(** C8 as stated fails: at the end of a chapter the last image is still
    shown and the image button is enabled; when the image call then fails,
    the image is gone. *)
Lemma generateImage_failure_clears_image :
  ImageGenerator.rendered ImageGenerator.GenerateImageButton Scenario.afterChapterEnd
    && negb (ImageGenerator.disabled ImageGenerator.GenerateImageButton
               Scenario.afterChapterEnd) = true
  /\ (exists err,
        (GeminiService.generateImage Scenario.imageFails
           (ImageGenerator.promptText Scenario.afterChapterEnd)
           (ImageGenerator.aspectRatio Scenario.afterChapterEnd)).2 = Throw err)
  /\ ImageGenerator.generatedImage Scenario.afterChapterEnd
     = Some (js "data:image/jpeg;base64,AAAA")
  /\ ImageGenerator.generatedImage
       (ImageGenerator.handleGenerateImage Scenario.imageFails Scenario.afterChapterEnd).1
     <> ImageGenerator.generatedImage Scenario.afterChapterEnd.
Proof.
  split; [vm_compute; reflexivity|].
  split; [eexists; vm_compute; reflexivity|].
  split; [vm_compute; reflexivity|].
  intros H. vm_compute in H. discriminate H.
Qed.

(** ** One operation at a time *)

Section InFlight.
Import GeminiService ImageGenerator.

Lemma trim_truthy t : truthy (trim t) = true -> truthy t = true.
Proof. destruct t; [|done]. by vm_compute. Qed.

Lemma truthy_false (t : jsstring) : truthy t = false <-> t = [].
Proof. by destruct t. Qed.

(** A trace with a request in it is not empty. *)
Lemma request_in_trace (pre : list Effect) (c : Call) (calls : list Call)
    (rest : list Effect) :
  pre ++ (Network <$> c :: calls) ++ rest <> [].
Proof. by destruct pre. Qed.

Lemma isAnyLoading_flag (s : State) :
  isPromptLoading s = true \/ isImageLoading s = true
  \/ isAudioLoading s = true \/ isFetchingVerse s = true ->
  isAnyLoading s = true.
Proof.
  unfold isAnyLoading. intros [H | [H | [H | H]]]; rewrite H; by rewrite ?orb_true_r.
Qed.

(** While a flag is set, no click and no change of an input does
    anything. *)
Lemma step_while_loading (e : UserEvent) (s : State) :
  isAnyLoading s = true -> step e s = (s, []).
Proof.
  intros Hload. destruct e as [ai url c|v|v|v|v|v|v]; cbn [step];
    rewrite ?Hload; cbn [orb]; try reflexivity.
  unfold click. replace (disabled c s) with true; [by rewrite andb_false_r|].
  destruct c; unfold disabled; rewrite Hload; by rewrite ?orb_true_r.
Qed.

Lemma inFlight_loading (ai : Ai) (c : Control) (s s1 : State) :
  s1 ∈ inFlight ai c s -> isAnyLoading s1 = true.
Proof.
  intros Hin. apply isAnyLoading_flag. destruct c; cbn [inFlight] in Hin.
  - by apply elem_of_nil in Hin.
  - destruct (negb _); [by apply elem_of_nil in Hin|].
    apply list_elem_of_singleton in Hin as ->. left. by destruct s.
  - destruct (_ || _); [by apply elem_of_nil in Hin|].
    apply list_elem_of_singleton in Hin as ->. right; left. by destruct s.
  - cbv zeta in Hin. destruct (characterDescriptions s) as [chars|];
      [|by apply elem_of_nil in Hin].
    destruct (negb _); [by apply elem_of_nil in Hin|].
    right; left. apply elem_of_cons in Hin as [->|Hin]; [by destruct s|].
    destruct (generateImagePrompt ai _ _).2 as [res|err];
      [|by apply elem_of_nil in Hin].
    apply list_elem_of_singleton in Hin as ->. by destruct s.
  - destruct (_ || _); [by apply elem_of_nil in Hin|].
    apply list_elem_of_singleton in Hin as ->. do 3 right. by destruct s.
  - destruct (_ || _); [by apply elem_of_nil in Hin|].
    apply list_elem_of_singleton in Hin as ->. right; right; left. by destruct s.
Qed.

(** The guards of the handlers: each returns without an effect exactly on
    its guard, since past the guard it sends a request. *)
Lemma handleGeneratePrompt_guard (ai : Ai) (s : State) :
  handleGeneratePrompt ai s = (s, []) <-> truthy (trim (bibleReference s)) = false.
Proof.
  unfold handleGeneratePrompt.
  destruct (truthy (trim (bibleReference s))); cbn [negb]; [|done].
  split; [|done]. cbv zeta. unfold generateImagePrompt. cbv beta iota zeta.
  intros H. apply (f_equal snd) in H. cbn [snd] in H.
  by apply (request_in_trace []) in H.
Qed.

Lemma handleGenerateImage_guard (ai : Ai) (s : State) :
  handleGenerateImage ai s = (s, [])
  <-> truthy (trim (promptText s)) = false \/ isImageLoading s = true.
Proof.
  unfold handleGenerateImage.
  destruct (truthy (trim (promptText s))), (isImageLoading s); cbn [negb orb];
    try (split; [auto|done]).
  split; [|by intros [?|?]]. cbv zeta. unfold generateImage. cbv beta iota zeta.
  intros H. apply (f_equal snd) in H. cbn [snd] in H.
  by apply (request_in_trace []) in H.
Qed.

Lemma handleFetchVerseText_guard (ai : Ai) (s : State) :
  handleFetchVerseText ai s = (s, [])
  <-> truthy (trim (bibleReference s)) = false \/ isFetchingVerse s = true.
Proof.
  unfold handleFetchVerseText.
  destruct (truthy (trim (bibleReference s))), (isFetchingVerse s); cbn [negb orb];
    try (split; [auto|done]).
  split; [|by intros [?|?]]. cbv zeta. unfold getVerseText. cbv beta iota zeta.
  intros H. apply (f_equal snd) in H. cbn [snd] in H.
  by apply (request_in_trace []) in H.
Qed.

Lemma handleGenerateAudioClick_guard (ai : Ai) (url : jsstring) (s : State) :
  handleGenerateAudioClick ai url s = (s, [])
  <-> truthy (trim (textForNarration s)) = false \/ isAudioLoading s = true.
Proof.
  unfold handleGenerateAudioClick.
  destruct (truthy (trim (textForNarration s))) eqn:Htext, (isAudioLoading s);
    cbn [negb orb]; try (split; [auto|done]).
  split; [|by intros [?|?]]. cbv zeta. unfold generateSpeech.
  rewrite (trim_truthy _ Htext). cbn [negb]. cbv beta iota zeta.
  destruct (_ ≫= Wav.createWavBlob) as [blob|err];
    intros H; apply (f_equal snd) in H; cbn [snd] in H;
    by apply request_in_trace in H.
Qed.

Lemma handleGenerateNextVerse_guard (ai : Ai) (s : State) :
  handleGenerateNextVerse ai s = (s, [])
  <-> characterDescriptions s = None \/ getNextVerseRef s = [].
Proof.
  unfold handleGenerateNextVerse. cbv zeta.
  destruct (characterDescriptions s) as [chars|]; [|split; [auto|done]].
  destruct (truthy (getNextVerseRef s)) eqn:Hnext; cbn [negb].
  - split.
    + unfold generateImagePrompt at 1. cbv beta iota zeta.
      intros H. apply (f_equal snd) in H.
      destruct (match _ with Ok _ => _ | Throw _ => _ end) as [s2 calls2] in H.
      cbn [snd] in H. by apply (request_in_trace []) in H.
    + intros [?|Hn]; [done|]. by rewrite Hn in Hnext.
  - split; [|done]. intros _. right. by apply truthy_false.
Qed.

Lemma inFlight_guard (ai : Ai) (url : jsstring) (c : Control) (s : State) :
  c <> StartNewButton ->
  (inFlight ai c s = [] <-> handler ai url c s = (s, [])).
Proof.
  intros Hc. destruct c; [done|..]; cbn [inFlight handler].
  - rewrite handleGeneratePrompt_guard.
    destruct (truthy (trim (bibleReference s))); cbn [negb]; split; done.
  - rewrite handleGenerateImage_guard.
    destruct (truthy (trim (promptText s))), (isImageLoading s); cbn [negb orb];
      split; auto; try done; by intros [?|?].
  - rewrite handleGenerateNextVerse_guard. cbv zeta.
    destruct (characterDescriptions s) as [chars|]; [|split; auto].
    destruct (truthy (getNextVerseRef s)) eqn:Hnext; cbn [negb].
    + split; [done|]. intros [?|Hn]; [done|]. by rewrite Hn in Hnext.
    + split; [|done]. intros _. right. by apply truthy_false.
  - rewrite handleFetchVerseText_guard.
    destruct (truthy (trim (bibleReference s))), (isFetchingVerse s); cbn [negb orb];
      split; auto; try done; by intros [?|?].
  - rewrite handleGenerateAudioClick_guard.
    destruct (truthy (trim (textForNarration s))), (isAudioLoading s);
      cbn [negb orb]; split; auto; try done; by intros [?|?].
Qed.

End InFlight.




(** ** The audio URL *)

Section AudioUrl.
Import GeminiService ImageGenerator.

(** A narration generated while a URL is held: the handler revokes the URL
    itself and sends the speech request; when it yields, the commit of
    [setGeneratedAudioUrl(null)] runs the clean-up of the effect, which
    revokes the URL again. *)
Lemma regenerate_revokes_twice (ai : Ai) (url old : jsstring) (s : State) :
  generatedAudioUrl s = Some old ->
  truthy old = true ->
  truthy (trim (textForNarration s)) = true ->
  isAudioLoading s = false ->
  exists rest,
    (handleGenerateAudioClick ai url s).2
    = RevokeObjectURL old
      :: (Network <$> (generateSpeech ai (textForNarration s) (voiceType s)).1)
      ++ RevokeObjectURL old :: rest.
Proof.
  intros Hurl Hold Htext Hloading. unfold handleGenerateAudioClick.
  rewrite Htext, Hloading, Hurl, Hold. cbn [negb orb]. cbv zeta.
  destruct (generateSpeech ai _ _) as [calls r].
  assert (Hcommit : forall s1, generatedAudioUrl s1 = None ->
            commit s s1 = [RevokeObjectURL old]).
  { intros s1 H1. unfold commit, cleanup. rewrite Hurl, H1, Hold.
    by rewrite bool_decide_false. }
  destruct (r ≫= Wav.createWavBlob) as [blob|err];
    [|destruct (isServerError err)]; cbn [fst snd app];
    rewrite Hcommit by (by destruct s); cbn [app]; eauto.
Qed.

(** A held URL is revoked by the clean-up when the component goes. *)
Lemma unmount_revokes (s : State) (url : jsstring) :
  generatedAudioUrl s = Some url -> truthy url = true ->
  unmount s = [RevokeObjectURL url].
Proof. intros H Ht. unfold unmount, cleanup. by rewrite H, Ht. Qed.

End AudioUrl.

(** C7 on the component: two narrations of different texts and the
    removal of the component.  The first URL is revoked before the second
    is created and the second when the component goes, and the narrated
    text is the second input; but the first URL is revoked twice: by the
    handler of the second narration before it sends its request, and by
    the clean-up of the effect when the handler yields. *)
Theorem narration_twice_revokes_first_url_twice :
  (Scenario.narrateTwice (js "blob:1") (js "blob:2")).2
  = [ ImageGenerator.Network (GeminiService.SpeechCall (js "No princípio") (js "Puck"));
      ImageGenerator.CreateObjectURL (js "blob:1");
      ImageGenerator.RevokeObjectURL (js "blob:1");
      ImageGenerator.Network (GeminiService.SpeechCall (js "Haja luz") (js "Puck"));
      ImageGenerator.RevokeObjectURL (js "blob:1");
      ImageGenerator.CreateObjectURL (js "blob:2");
      ImageGenerator.RevokeObjectURL (js "blob:2") ]
  /\ ImageGenerator.revocations (js "blob:1")
       (Scenario.narrateTwice (js "blob:1") (js "blob:2")).2 = 2%nat
  /\ ImageGenerator.revocations (js "blob:2")
       (Scenario.narrateTwice (js "blob:1") (js "blob:2")).2 = 1%nat
  /\ ImageGenerator.narratedText (Scenario.narrateTwice (js "blob:1") (js "blob:2")).1
     = Some (js "Haja luz").
Proof. repeat split; vm_compute; reflexivity. Qed.

(** ** The language of the verse text *)

Section Language.
Import GeminiService.

(** A code that is neither a key of [languageMap] nor a property that the
    object inherits gets the fallback, and the call is the one for
    [pt-BR]. *)
Lemma getVerseText_fallback (ai : Ai) (bibleReference language : jsstring) :
  (language ∉ languageMap.*1) ->
  objectPrototype_get language = VUndefined ->
  getVerseText ai bibleReference language
  = getVerseText ai bibleReference (js "pt-BR").
Proof.
  intros Hkey Hproto. unfold getVerseText, languageMap_get.
  rewrite (not_elem_of_list_to_map_1 _ _ Hkey), Hproto.
  assert (Hpt : (list_to_map languageMap : gmap jsstring jsstring) !! js "pt-BR"
                = Some (js "Português (Brasil)")) by (vm_compute; reflexivity).
  rewrite Hpt. unfold orElse, valueTruthy.
  assert (Ht : truthy (js "Português (Brasil)") = true) by (vm_compute; reflexivity).
  by rewrite Ht.
Qed.

End Language.

(** C10 on the service module: the code [constructor] is none of the five
    supported codes, and the language put in the request is not the
    fallback but the function that [languageMap] inherits under that
    name. *)
Theorem getVerseText_inherited_key_no_fallback
    (ai : GeminiService.Ai) (bibleReference : jsstring) :
  (js "constructor" ∉ GeminiService.languageMap.*1)
  /\ (GeminiService.getVerseText ai bibleReference (js "constructor")).1
     = [GeminiService.TextCall
          {| GeminiService.treq_bibleReference := bibleReference;
             GeminiService.treq_languageName :=
               GeminiService.VFunction (js "Object") |}]
  /\ (GeminiService.getVerseText ai bibleReference (js "pt-BR")).1
     = [GeminiService.TextCall
          {| GeminiService.treq_bibleReference := bibleReference;
             GeminiService.treq_languageName :=
               GeminiService.VString (js "Português (Brasil)") |}].
Proof.
  split; [|split].
  - intros H. vm_compute in H.
    repeat (apply elem_of_cons in H as [H|H]; [discriminate H|]).
    by apply elem_of_nil in H.
  - vm_compute. reflexivity.
  - vm_compute. reflexivity.
Qed.

(** ** Bible references *)

Section Matcher.

Lemma rstar_sound {A} p (k : nat -> jsstring -> option A) s :
  forall i a, rstar p k i s = Some a ->
  exists x y, s = x ++ y /\ Forall (fun c => p c = true) x
              /\ k (i + length x)%nat y = Some a.
Proof.
  induction s as [|c s IH]; intros i a H; simpl in H.
  - exists [], []. rewrite Nat.add_0_r. auto.
  - destruct (p c) eqn:Hp.
    + destruct (rstar p k (S i) s) as [a'|] eqn:Hrec.
      * injection H as ->. destruct (IH _ _ Hrec) as (x & y & -> & Hx & Hk).
        exists (c :: x), y. repeat split; [by constructor|].
        simpl. by rewrite Nat.add_succ_r.
      * exists [], (c :: s). rewrite Nat.add_0_r. auto.
    + exists [], (c :: s). rewrite Nat.add_0_r. auto.
Qed.

Lemma rstar_complete {A} p (k : nat -> jsstring -> option A) x :
  forall i y, Forall (fun c => p c = true) x ->
  is_Some (k (i + length x)%nat y) -> is_Some (rstar p k i (x ++ y)).
Proof.
  induction x as [|c x IH]; intros i y Hx Hk.
  - rewrite Nat.add_0_r in Hk. destruct y as [|c y]; simpl; [done|].
    destruct (p c); [|done]. by destruct (rstar p k (S i) y).
  - apply Forall_cons in Hx as [Hc Hx]. simpl. rewrite Hc.
    simpl in Hk. rewrite <- Nat.add_succ_comm in Hk.
    destruct (IH (S i) y Hx Hk) as [a ->]. eauto.
Qed.

(** The matcher finds a match only if there is one ... *)
Lemma rmatch_sound r :
  forall i s caps k a, rmatch r i s caps k = Some a ->
  exists i' s' caps', rsem r i s caps i' s' caps' /\ k i' s' caps' = Some a.
Proof.
  induction r as [p|p|r1 IH1 r2 IH2|r IH| |]; intros i s caps k a H; simpl in H.
  - destruct s as [|c s]; [done|]. destruct (p c) eqn:Hp; [|done].
    eexists _, _, _. split; [by constructor | done].
  - apply rstar_sound in H as (x & y & -> & Hx & Hk).
    eexists _, _, _. split; [by constructor | done].
  - apply IH1 in H as (i1 & s1 & caps1 & H1 & H).
    apply IH2 in H as (i2 & s2 & caps2 & H2 & H).
    eexists _, _, _. split; [by econstructor | done].
  - apply IH in H as (i' & s' & caps' & H1 & H).
    eexists _, _, _. split; [by constructor | done].
  - case_bool_decide; [subst|done]. eexists _, _, _. split; [constructor | done].
  - destruct s; [|done]. eexists _, _, _. split; [constructor | done].
Qed.

(** ... and finds one whenever there is one that the continuation
    accepts. *)
Lemma rmatch_complete r :
  forall i s caps i' s' caps' k,
  rsem r i s caps i' s' caps' -> is_Some (k i' s' caps') ->
  is_Some (rmatch r i s caps k).
Proof.
  induction r as [p|p|r1 IH1 r2 IH2|r IH| |];
    intros i s caps i' s' caps' k Hsem Hk; inversion Hsem; subst; simpl.
  - match goal with H : p _ = true |- _ => by rewrite H end.
  - by apply rstar_complete.
  - eapply IH1; [eassumption|]. eapply IH2; eassumption.
  - eapply IH; [eassumption|]. done.
  - done.
  - done.
Qed.

(** A match reads a prefix of what is left. *)
Lemma rsem_consumed r i s caps i' s' caps' :
  rsem r i s caps i' s' caps' ->
  exists x, s = x ++ s' /\ i' = (i + length x)%nat.
Proof.
  induction 1 as [p c s i caps Hp|p x s i caps Hx| r1 r2 i s caps i1 s1 caps1 i2 s2 caps2 _ IH1 _ IH2
                 |r i s caps i' s' caps' _ IH|s caps|i caps].
  - exists [c]. split; [done|]. simpl. lia.
  - by exists x.
  - destruct IH1 as (x1 & -> & ->), IH2 as (x2 & -> & ->).
    exists (x1 ++ x2). rewrite <- app_assoc, length_app. split; [done|lia].
  - done.
  - by exists [].
  - exists []. split; [done|]. simpl. lia.
Qed.


Lemma rsem_class_inv p i s caps i' s' caps' :
  rsem (RClass p) i s caps i' s' caps' ->
  exists c, s = c :: s' /\ p c = true /\ i' = S i /\ caps' = caps.
Proof. inversion 1; subst; eauto. Qed.

Lemma rsem_star_inv p i s caps i' s' caps' :
  rsem (RStar p) i s caps i' s' caps' ->
  exists x, s = x ++ s' /\ Forall (fun c => p c = true) x
            /\ i' = (i + length x)%nat /\ caps' = caps.
Proof. inversion 1; subst; eauto. Qed.

Lemma rsem_seq_inv r1 r2 i s caps i2 s2 caps2 :
  rsem (RSeq r1 r2) i s caps i2 s2 caps2 ->
  exists i1 s1 caps1, rsem r1 i s caps i1 s1 caps1 /\ rsem r2 i1 s1 caps1 i2 s2 caps2.
Proof. inversion 1; subst; eauto. Qed.

Lemma rsem_group_inv r i s caps i' s' caps' :
  rsem (RGroup r) i s caps i' s' caps' ->
  exists caps0 x, rsem r i s caps i' s' caps0 /\ s = x ++ s' /\ caps' = caps0 ++ [x].
Proof.
  inversion 1 as [| | |r0 i0 s0 caps0 i0' s0' caps0' Hr| |]; subst.
  destruct (rsem_consumed _ _ _ _ _ _ _ Hr) as (x & -> & ->).
  exists caps0', x. repeat split; [done|].
  replace (i + length x - i)%nat with (length x) by lia.
  by rewrite take_app_length.
Qed.

Lemma rsem_bol_inv i s caps i' s' caps' :
  rsem RBol i s caps i' s' caps' -> i = 0%nat /\ i' = 0%nat /\ s' = s /\ caps' = caps.
Proof. inversion 1; subst; eauto. Qed.

Lemma rsem_eol_inv i s caps i' s' caps' :
  rsem REol i s caps i' s' caps' -> s = [] /\ s' = [] /\ i' = i /\ caps' = caps.
Proof. inversion 1; subst; eauto. Qed.

Lemma sem_group_app r i x s' caps caps0 :
  rsem r i (x ++ s') caps (i + length x) s' caps0 ->
  rsem (RGroup r) i (x ++ s') caps (i + length x) s' (caps0 ++ [x]).
Proof.
  intros H. apply sem_group in H.
  replace (i + length x - i)%nat with (length x) in H by lia.
  by rewrite take_app_length in H.
Qed.

Lemma sem_plus_app p i x s' caps :
  x <> [] -> Forall (fun c => p c = true) x ->
  rsem (RPlus p) i (x ++ s') caps (i + length x) s' caps.
Proof.
  intros Hne Hx. destruct x as [|c x]; [done|].
  apply Forall_cons in Hx as [Hc Hx]. unfold RPlus. simpl.
  eapply sem_seq; [by apply sem_class|].
  replace (i + S (length x))%nat with (S i + length x)%nat by lia.
  by apply sem_star.
Qed.

Lemma rsem_plus_inv p i s caps i' s' caps' :
  rsem (RPlus p) i s caps i' s' caps' ->
  exists x, s = x ++ s' /\ x <> [] /\ Forall (fun c => p c = true) x
            /\ i' = (i + length x)%nat /\ caps' = caps.
Proof.
  intros H. apply rsem_seq_inv in H as (i1 & s1 & caps1 & H1 & H2).
  apply rsem_class_inv in H1 as (c & -> & Hc & -> & ->).
  apply rsem_star_inv in H2 as (x & -> & Hx & -> & ->).
  exists (c :: x). repeat split; try done; [by constructor|]. simpl. lia.
Qed.

End Matcher.

Section Reference.
Import GeminiService ImageGenerator.

Lemma bibleRefRegex_sem t i' s' caps' :
  rsem bibleRefRegex 0 t [] i' s' caps' ->
  exists p d w c v, refShape t p d w c v /\ caps' = [p ++ [d]; c; v].
Proof.
  unfold bibleRefRegex. intros H.
  apply rsem_seq_inv in H as (i1 & s1 & caps1 & Hbol & H).
  apply rsem_bol_inv in Hbol as (_ & -> & -> & ->).
  apply rsem_seq_inv in H as (i2 & s2 & caps2 & Hg1 & H).
  apply rsem_group_inv in Hg1 as (caps0 & g1 & Hg1 & -> & ->).
  apply rsem_seq_inv in Hg1 as (i3 & s3 & caps3 & Hdot & Hnd).
  apply rsem_star_inv in Hdot as (p & Hp & Hdot & -> & ->).
  apply rsem_class_inv in Hnd as (d & -> & Hd & -> & ->).
  assert (g1 = p ++ [d]) as ->.
  { apply (app_inv_tail s2). by rewrite <- app_assoc. }
  clear Hp.
  apply rsem_seq_inv in H as (i4 & s4 & caps4 & Hws & H).
  apply rsem_star_inv in Hws as (w & -> & Hw & -> & ->).
  apply rsem_seq_inv in H as (i5 & s5 & caps5 & Hg2 & H).
  apply rsem_group_inv in Hg2 as (caps6 & c & Hg2 & -> & ->).
  apply rsem_plus_inv in Hg2 as (c' & Hc' & Hcne & Hc & _ & ->).
  apply app_inv_tail in Hc' as <-.
  apply rsem_seq_inv in H as (i6 & s6 & caps6 & Hcolon & H).
  apply rsem_class_inv in Hcolon as (colon & -> & Hcolon & -> & ->).
  apply bool_decide_eq_true in Hcolon as ->.
  apply rsem_seq_inv in H as (i7 & s7 & caps7 & Hg3 & H).
  apply rsem_group_inv in Hg3 as (caps8 & v & Hg3 & -> & ->).
  apply rsem_plus_inv in Hg3 as (v' & Hv' & Hvne & Hv & _ & ->).
  apply app_inv_tail in Hv' as <-.
  apply rsem_eol_inv in H as (-> & -> & -> & ->).
  exists p, d, w, c, v. split; [|done].
  repeat split; try done. by rewrite !app_nil_r, <- !app_assoc.
Qed.

Lemma bibleRefRegex_sem_intro t p d w c v :
  refShape t p d w c v ->
  exists i', rsem bibleRefRegex 0 t [] i' [] [p ++ [d]; c; v].
Proof.
  intros (-> & Hp & Hd & Hw & [Hcne Hc] & [Hvne Hv]).
  change (js ":") with [58%N].
  replace (p ++ [d] ++ w ++ c ++ [58%N] ++ v)
    with (p ++ [d] ++ w ++ c ++ [58%N] ++ v ++ []) by (by rewrite app_nil_r).
  eexists. unfold bibleRefRegex.
  eapply sem_seq; [apply sem_bol|].
  eapply sem_seq.
  { rewrite (app_assoc p [d]).
    apply (sem_group_app _ 0 (p ++ [d]) _ [] []).
    rewrite <- app_assoc.
    eapply sem_seq; [by apply sem_star|].
    replace (0 + length (p ++ [d]))%nat with (S (0 + length p))
      by (rewrite length_app; simpl; lia).
    by apply sem_class. }
  eapply sem_seq; [by apply (sem_star isWhiteSpace w)|].
  eapply sem_seq.
  { apply (sem_group_app _ _ c _ _ [p ++ [d]]). by apply sem_plus_app. }
  eapply sem_seq; [apply sem_class; by apply bool_decide_eq_true|].
  eapply sem_seq.
  { apply (sem_group_app _ _ v [] _ [p ++ [d]; c]). by apply sem_plus_app. }
  apply sem_eol.
Qed.

Lemma exec_from_bibleRefRegex_later i s :
  i <> 0%nat -> exec_from bibleRefRegex i s = None.
Proof.
  revert i. induction s as [|c s IH]; intros i Hi; simpl;
    rewrite bool_decide_false by done; [done|]. by apply IH.
Qed.

(** The pattern matches exactly the texts of that shape, and the groups
    are the book segment up to its last character that is not white space
    before the chapter, the chapter and the verse. *)
Lemma strMatch_bibleRefRegex t :
  (forall caps, strMatch t bibleRefRegex = Some caps ->
     exists p d w c v, refShape t p d w c v /\ caps = [p ++ [d]; c; v])
  /\ (forall p d w c v, refShape t p d w c v ->
        is_Some (strMatch t bibleRefRegex)).
Proof.
  assert (Hexec : strMatch t bibleRefRegex
                  = rmatch bibleRefRegex 0 t [] (fun _ _ caps => Some caps)).
  { unfold strMatch. destruct t as [|c t]; cbn [exec_from];
      destruct (rmatch bibleRefRegex 0 _ [] _); try done.
    by apply exec_from_bibleRefRegex_later. }
  rewrite Hexec. split.
  - intros caps H. apply rmatch_sound in H as (i' & s' & caps' & Hsem & [= ->]).
    by apply bibleRefRegex_sem in Hsem.
  - intros p d w c v Hshape.
    destruct (bibleRefRegex_sem_intro _ _ _ _ _ _ Hshape) as [i' Hsem].
    by eapply rmatch_complete.
Qed.

End Reference.

Section Characters.

Lemma isDigit_range c : isDigit c = true <-> (48 <= c <= 57)%N.
Proof. unfold isDigit. rewrite andb_true_iff, !N.leb_le. tauto. Qed.

Lemma isLineTerminator_whiteSpace c :
  isLineTerminator c = true -> isWhiteSpace c = true.
Proof. intros H. unfold isWhiteSpace. by rewrite H, orb_true_r. Qed.

Lemma isWhiteSpace_not_digit c : isWhiteSpace c = true -> isDigit c = false.
Proof.
  intros H. destruct (isDigit c) eqn:Hd; [|done].
  apply isDigit_range in Hd. unfold isWhiteSpace, isLineTerminator in H.
  rewrite !orb_true_iff, andb_true_iff, !N.leb_le, !bool_decide_eq_true in H.
  destruct H as [[H|H]|H]; [| lia |];
    repeat (apply elem_of_cons in H as [->|H]; [lia|]); by apply elem_of_nil in H.
Qed.

Lemma isDigit_not_whiteSpace c : isDigit c = true -> isWhiteSpace c = false.
Proof.
  intros H. destruct (isWhiteSpace c) eqn:Hw; [|done].
  apply isWhiteSpace_not_digit in Hw. congruence.
Qed.

End Characters.

Section Trimming.

Lemma trimStart_app_ws w l :
  Forall (fun x => isWhiteSpace x = true) w -> trimStart (w ++ l) = trimStart l.
Proof. induction 1 as [|x w Hx _ IH]; [done|]. simpl. by rewrite Hx. Qed.

Lemma trimStart_all_ws w :
  Forall (fun x => isWhiteSpace x = true) w -> trimStart w = [].
Proof. intros H. rewrite <- (app_nil_r w). by rewrite trimStart_app_ws. Qed.

Lemma trimStart_decomp l :
  exists w, l = w ++ trimStart l /\ Forall (fun x => isWhiteSpace x = true) w
            /\ match trimStart l with
               | [] => True
               | x :: _ => isWhiteSpace x = false
               end.
Proof.
  induction l as [|x l (w & Hl & Hw & Hhd)]; [by exists []|].
  simpl. destruct (isWhiteSpace x) eqn:Hx.
  - exists (x :: w). repeat split; [by rewrite Hl at 1 | by constructor | done].
  - by exists [].
Qed.

Lemma trimEnd_app_ws l w :
  Forall (fun x => isWhiteSpace x = true) w -> trimEnd (l ++ w) = trimEnd l.
Proof.
  intros Hw. unfold trimEnd. rewrite reverse_app, trimStart_app_ws; [done|].
  by apply Forall_reverse.
Qed.

Lemma trimEnd_snoc l d : isWhiteSpace d = false -> trimEnd (l ++ [d]) = l ++ [d].
Proof.
  intros Hd. unfold trimEnd. rewrite reverse_app. simpl.
  change (reverse [d]) with [d]. simpl. rewrite Hd.
  change (d :: reverse l) with ([d] ++ reverse l).
  by rewrite reverse_app, reverse_involutive.
Qed.

Lemma trimEnd_decomp l :
  exists w, l = trimEnd l ++ w /\ Forall (fun x => isWhiteSpace x = true) w
            /\ forall q x, trimEnd l = q ++ [x] -> isWhiteSpace x = false.
Proof.
  unfold trimEnd. destruct (trimStart_decomp (reverse l)) as (w & Hl & Hw & Hhd).
  exists (reverse w). repeat split.
  - rewrite <- reverse_app, <- Hl. by rewrite reverse_involutive.
  - by apply Forall_reverse.
  - intros q x Hq. apply (f_equal reverse) in Hq.
    rewrite reverse_involutive, reverse_app in Hq. change (reverse [x]) with [x] in Hq.
    by rewrite Hq in Hhd.
Qed.

Lemma trim_app_ws l w :
  Forall (fun x => isWhiteSpace x = true) w -> trim (l ++ w) = trim l.
Proof.
  intros Hw. unfold trim.
  destruct (trimStart_decomp l) as (w0 & Hl & Hw0 & Hhd).
  destruct (trimStart l) as [|x r] eqn:E.
  - rewrite app_nil_r in Hl. subst l.
    by rewrite trimStart_all_ws by (by apply Forall_app).
  - rewrite Hl at 1. rewrite <- app_assoc, trimStart_app_ws by done.
    simpl. rewrite Hhd. change (x :: r ++ w) with ((x :: r) ++ w).
    by rewrite trimEnd_app_ws.
Qed.

End Trimming.

Section Numerals.
Import ImageGenerator.

Lemma digit_cases c :
  isDigit c = true ->
  c = 48%N \/ c = 49%N \/ c = 50%N \/ c = 51%N \/ c = 52%N \/ c = 53%N
  \/ c = 54%N \/ c = 55%N \/ c = 56%N \/ c = 57%N.
Proof. intros H%isDigit_range. lia. Qed.

Lemma codesOfUint_uintOfCodes l :
  Forall (fun c => isDigit c = true) l -> codesOfUint (uintOfCodes l) = l.
Proof.
  induction 1 as [|c l Hc _ IH]; [done|]. simpl.
  destruct (digit_cases c Hc) as [->|[->|[->|[->|[->|[->|[->|[->|[->| ->]]]]]]]]];
    simpl; by rewrite IH.
Qed.

Lemma nzhead_uintOfCodes l :
  Forall (fun c => isDigit c = true) l ->
  codesOfUint (Decimal.nzhead (uintOfCodes l)) = dropZeros l.
Proof.
  induction 1 as [|c l Hc Hl IH]; [done|].
  destruct (digit_cases c Hc) as [->|[->|[->|[->|[->|[->|[->|[->|[->| ->]]]]]]]]];
    simpl; try done; by rewrite codesOfUint_uintOfCodes.
Qed.

Lemma codesOfUint_nil d : codesOfUint d = [] -> d = Decimal.Nil.
Proof. by destruct d. Qed.

Lemma unorm_uintOfCodes l :
  Forall (fun c => isDigit c = true) l ->
  codesOfUint (Decimal.unorm (uintOfCodes l)) = stripLeadingZeros l.
Proof.
  intros Hl. unfold Decimal.unorm, stripLeadingZeros.
  rewrite <- (nzhead_uintOfCodes l Hl).
  by destruct (Decimal.nzhead (uintOfCodes l)).
Qed.

Lemma digitPrefix_digits l :
  Forall (fun c => isDigit c = true) l -> digitPrefix l = l.
Proof. induction 1 as [|c l Hc _ IH]; [done|]. simpl. by rewrite Hc, IH. Qed.

Lemma roundToDouble_safe z :
  Z.abs z <= MAX_SAFE_INTEGER -> roundToDouble z = z.
Proof.
  unfold roundToDouble, MAX_SAFE_INTEGER. intros H. cbv zeta.
  destruct (Z.ltb_spec (Z.abs z) (2 ^ 53)) as [_|Hge]; [done|lia].
Qed.

Lemma digitsValue_nonneg l : 0 <= digitsValue l.
Proof. unfold digitsValue. lia. Qed.

(** What has 54 bits or more is rounded to a number of 54 bits or more. *)
Lemma roundToDouble_large z : 2 ^ 53 <= Z.abs z -> 2 ^ 53 <= Z.abs (roundToDouble z).
Proof.
  intros Hz. unfold roundToDouble. cbv zeta.
  destruct (Z.ltb_spec (Z.abs z) (2 ^ 53)) as [Hlt|_]; [lia|].
  set (a := Z.abs z) in *.
  assert (Hlog : 53 <= Z.log2 a) by (apply Z.log2_le_pow2; lia).
  set (e := Z.log2 a - 52).
  assert (He : 1 <= e) by (unfold e; lia).
  assert (Hq : 2 ^ 52 <= a / 2 ^ e).
  { apply Z.div_le_lower_bound; [lia|].
    rewrite <- Z.pow_add_r by lia. replace (e + 52) with (Z.log2 a) by (unfold e; lia).
    apply Z.log2_spec. lia. }
  set (q := a / 2 ^ e) in *.
  assert (Hq' : q <= (if a `mod` 2 ^ e <? 2 ^ (e - 1) then q
                      else if 2 ^ (e - 1) <? a `mod` 2 ^ e then q + 1
                      else if Z.even q then q else q + 1)).
  { repeat match goal with |- context [if ?b then _ else _] => destruct b end; lia. }
  set (q' := if a `mod` 2 ^ e <? 2 ^ (e - 1) then _ else _) in *.
  assert (Hpow : 2 <= 2 ^ e).
  { change 2 with (2 ^ 1) at 1. apply Z.pow_le_mono_r; lia. }
  assert (Hprod : 2 ^ 53 <= q' * 2 ^ e).
  { change (2 ^ 53) with (2 ^ 52 * 2). apply Z.mul_le_mono_nonneg; lia. }
  rewrite Z.abs_mul.
  assert (Hsgn : Z.abs (Z.sgn z) = 1) by (unfold a in Hz; lia).
  rewrite Hsgn, Z.mul_1_l, Z.abs_eq; lia.
Qed.

(** The only integer that rounds to a safe integer is that integer. *)
Lemma roundToDouble_inv_safe y x :
  roundToDouble y = x -> Z.abs x <= MAX_SAFE_INTEGER -> y = x.
Proof.
  intros Hround Hx.
  destruct (Z.lt_ge_cases (Z.abs y) (2 ^ 53)) as [Hy|Hy].
  - rewrite roundToDouble_safe in Hround; [done|]. unfold MAX_SAFE_INTEGER. lia.
  - apply roundToDouble_large in Hy. rewrite Hround in Hy.
    unfold MAX_SAFE_INTEGER in Hx. lia.
Qed.

Lemma toNumber_safe z : Z.abs z <= MAX_SAFE_INTEGER -> toNumber z = Int z.
Proof.
  intros Hz. unfold toNumber. cbv zeta. rewrite roundToDouble_safe by done.
  destruct (Z.ltb_spec (Z.abs z) (2 ^ 1024)) as [_|Hbig]; [done|].
  unfold MAX_SAFE_INTEGER in Hz.
  assert (2 ^ 53 <= 2 ^ 1024) by (apply Z.pow_le_mono_r; lia). lia.
Qed.

(** A value that is not negative is read as an integer that is not
    negative, or as the positive infinity. *)
Lemma toNumber_nonneg z :
  0 <= z ->
  (exists c, toNumber z = Int c /\ 0 <= c < 2 ^ 1024) \/ toNumber z = PosInfinity.
Proof.
  intros Hz. unfold toNumber. cbv zeta.
  assert (Hr : 0 <= roundToDouble z).
  { unfold roundToDouble. cbv zeta.
    destruct (Z.abs z <? 2 ^ 53); [done|].
    apply Z.mul_nonneg_nonneg; [lia|].
    apply Z.mul_nonneg_nonneg; [|apply Z.pow_nonneg; lia].
    assert (0 <= Z.abs z / 2 ^ (Z.log2 (Z.abs z) - 52))
      by (apply Z_div_nonneg_nonneg; [lia|apply Z.pow_nonneg; lia]).
    repeat match goal with |- context [if ?b then _ else _] => destruct b end; lia. }
  destruct (Z.ltb_spec (Z.abs (roundToDouble z)) (2 ^ 1024)) as [Hlt|_].
  - left. eexists. split; [reflexivity|]. lia.
  - right. destruct (Z.ltb_spec z 0); [lia|done].
Qed.

Lemma candidates_sound x k c :
  c ∈ candidates x k ->
  10 ^ Z.of_nat (k - 1) <= c.1 /\ (k <= c.2)%nat
  /\ roundToDouble (c.1 * 10 ^ Z.of_nat (c.2 - k)) = x.
Proof.
  unfold candidates. intros Hc.
  apply list_elem_of_In, in_flat_map in Hc as (n & _ & Hc).
  destruct (Nat.leb_spec k n) as [Hkn|_]; [|destruct Hc].
  apply filter_In in Hc as [Hin Hok].
  assert (Hn : c.2 = n) by (destruct Hin as [<-|[<-|[]]]; reflexivity).
  apply andb_prop in Hok as [Hok Hround]. apply andb_prop in Hok as [Hlow _].
  apply Z.leb_le in Hlow. apply Z.eqb_eq in Hround.
  rewrite Hn. repeat split; [lia|done|lia].
Qed.

Lemma closest_in x k l c : closest x k l = Some c -> c ∈ l.
Proof.
  unfold closest.
  assert (Hgen : forall best,
            foldl (fun best c =>
                     match best with
                     | None => Some c
                     | Some b => if closer x k c b then Some c else Some b
                     end) best l = Some c ->
            c ∈ l \/ best = Some c).
  { induction l as [|a l IH]; intros best H; cbn [foldl] in H; [by right|].
    apply IH in H as [H|H]; [left; by right|].
    destruct best as [b|].
    - destruct (closer x k a b); injection H as <-; [left; by left|by right].
    - injection H as <-. left. by left. }
  intros H. by destruct (Hgen None H).
Qed.

Lemma shortestFrom_sound x fuel :
  forall k k' c, shortestFrom x k fuel = Some (k', c) ->
  (k <= k')%nat /\ c ∈ candidates x k'.
Proof.
  induction fuel as [|fuel IH]; intros k k' c H; cbn [shortestFrom] in H; [done|].
  destruct (closest x k (candidates x k)) as [c0|] eqn:Hclosest.
  - injection H as <- <-. split; [done|]. by eapply closest_in.
  - apply IH in H as [Hle Hin]. split; [lia|done].
Qed.

(** A safe integer is printed as its decimal numeral. *)
Lemma positiveToString_safe x :
  0 < x <= MAX_SAFE_INTEGER -> positiveToString x = numeral x.
Proof.
  intros Hx. unfold positiveToString, shortest.
  destruct (shortestFrom x 1 17) as [[k [s n]]|] eqn:Hshortest; [|done].
  apply shortestFrom_sound in Hshortest as [Hk Hin].
  apply candidates_sound in Hin as (Hlow & Hkn & Hround). cbn [fst snd] in *.
  apply roundToDouble_inv_safe in Hround; [|lia].
  destruct (Nat.leb_spec n 21) as [_|Hn]; [by rewrite Hround|].
  exfalso.
  assert (Hpow : 10 ^ 21 <= 10 ^ Z.of_nat (k - 1) * 10 ^ Z.of_nat (n - k)).
  { rewrite <- Z.pow_add_r by lia. apply Z.pow_le_mono_r; lia. }
  assert (Hs : 10 ^ Z.of_nat (k - 1) * 10 ^ Z.of_nat (n - k)
               <= s * 10 ^ Z.of_nat (n - k)).
  { apply Z.mul_le_mono_nonneg_r; [|done]. apply Z.pow_nonneg. lia. }
  unfold MAX_SAFE_INTEGER in Hx. lia.
Qed.

Lemma numberToString_safe z :
  0 <= z <= MAX_SAFE_INTEGER -> numberToString (Int z) = numeral z.
Proof.
  intros Hz. unfold numberToString.
  destruct (Z.eqb_spec z 0) as [->|Hnz]; [reflexivity|].
  destruct (Z.ltb_spec z 0); [lia|]. apply positiveToString_safe. lia.
Qed.

Lemma parseInt10_digits l :
  digits l -> parseInt10 l = toNumber (digitsValue l).
Proof.
  intros [Hne Hl]. destruct l as [|c l]; [done|].
  pose proof (Forall_inv Hl) as Hc. unfold parseInt10.
  cbn [trimStart]. rewrite (isDigit_not_whiteSpace c Hc).
  apply isDigit_range in Hc.
  rewrite !bool_decide_false by lia.
  by rewrite digitPrefix_digits.
Qed.

Lemma parseInt10_safe l :
  digits l -> digitsValue l <= MAX_SAFE_INTEGER -> parseInt10 l = Int (digitsValue l).
Proof.
  intros Hl Hsafe. rewrite parseInt10_digits by done.
  rewrite toNumber_safe; [done|].
  pose proof (digitsValue_nonneg l). lia.
Qed.

Lemma numberToString_digitsValue l :
  Forall (fun c => isDigit c = true) l ->
  digitsValue l <= MAX_SAFE_INTEGER ->
  numberToString (Int (digitsValue l)) = stripLeadingZeros l.
Proof.
  intros Hl Hsafe. pose proof (digitsValue_nonneg l).
  rewrite numberToString_safe by lia. unfold numeral, digitsValue.
  rewrite N2Z.id.
  rewrite DecimalN.Unsigned.to_of. simpl. by apply unorm_uintOfCodes.
Qed.

End Numerals.

Section Splitting.
Import ImageGenerator.

(** Where a run of digits ends is determined by the text. *)
Lemma digit_run_unique x x' (n n' : N) r r' :
  Forall (fun c => isDigit c = true) x -> Forall (fun c => isDigit c = true) x' ->
  isDigit n = false -> isDigit n' = false ->
  x ++ n :: r = x' ++ n' :: r' -> x = x' /\ n = n' /\ r = r'.
Proof.
  intros Hx. revert x'. induction Hx as [|c x Hc _ IH]; intros x' Hx' Hn Hn' Heq.
  - destruct Hx' as [|c' x' Hc' _]; simpl in Heq.
    + by injection Heq as -> ->.
    + injection Heq as -> _. congruence.
  - destruct Hx' as [|c' x' Hc' Hx']; simpl in Heq.
    + injection Heq as <- _. congruence.
    + injection Heq as -> Heq. destruct (IH x' Hx' Hn Hn' Heq) as (-> & -> & ->). done.
Qed.

Lemma reference_split_unique pre c v pre' c' v' :
  endsInNonDigit pre -> endsInNonDigit pre' ->
  Forall (fun x => isDigit x = true) c -> Forall (fun x => isDigit x = true) c' ->
  Forall (fun x => isDigit x = true) v -> Forall (fun x => isDigit x = true) v' ->
  pre ++ c ++ [58%N] ++ v = pre' ++ c' ++ [58%N] ++ v' ->
  pre = pre' /\ c = c' /\ v = v'.
Proof.
  intros (p & d & -> & Hd) (p' & d' & -> & Hd') Hc Hc' Hv Hv' Heq.
  apply (f_equal reverse) in Heq.
  rewrite !reverse_app in Heq. change (reverse [58%N]) with [58%N] in Heq.
  change (reverse [d]) with [d] in Heq. change (reverse [d']) with [d'] in Heq.
  rewrite <- !app_assoc in Heq. simpl in Heq.
  apply digit_run_unique in Heq as (Hv1 & _ & Heq);
    [| by apply Forall_reverse | by apply Forall_reverse | done | done].
  apply digit_run_unique in Heq as (Hc1 & -> & Hp);
    [| by apply Forall_reverse | by apply Forall_reverse | done | done].
  apply (inj reverse) in Hv1, Hc1, Hp. by subst.
Qed.

End Splitting.

Section Grammar.
Import GeminiService ImageGenerator.

Lemma shape_of_grammar t pre c v :
  refGrammar t pre c v -> onOneLine pre ->
  exists p d w, pre = p ++ [d] ++ w /\ refShape t p d w c v.
Proof.
  intros (-> & (p0 & d0 & -> & Hd0) & [Hcne Hc] & [Hvne Hv]) Hline.
  unfold onOneLine in Hline.
  destruct (isWhiteSpace d0) eqn:Hws.
  - destruct (trimEnd_decomp (p0 ++ [d0])) as (w & Hsplit & Hw & Hlast).
    destruct w as [|x w].
    { rewrite app_nil_r in Hsplit. rewrite (Hlast p0 d0) in Hws; [done|by symmetry]. }
    apply Forall_cons in Hw as [Hx Hw].
    exists (trimEnd (p0 ++ [d0])), x, w. split; [done|].
    repeat split; try done.
    + rewrite Hsplit at 1. by rewrite <- !app_assoc.
    + eapply Forall_impl; [exact Hline|]. intros y Hy. unfold dot. by rewrite Hy.
    + unfold nonDigit. by rewrite (isWhiteSpace_not_digit x Hx).
  - rewrite trimEnd_snoc in Hline by done.
    apply Forall_app in Hline as [Hp _].
    exists p0, d0, []. split; [done|].
    repeat split; try done.
    + by rewrite <- !app_assoc.
    + eapply Forall_impl; [exact Hp|]. intros y Hy. unfold dot. by rewrite Hy.
    + unfold nonDigit. by rewrite Hd0.
Qed.

Lemma grammar_of_shape t p d w c v :
  refShape t p d w c v ->
  refGrammar t (p ++ [d] ++ w) c v /\ onOneLine (p ++ [d] ++ w).
Proof.
  intros (-> & Hp & Hd & Hw & [Hcne Hc] & [Hvne Hv]).
  apply negb_true_iff in Hd.
  split; [repeat split; try done|].
  - by rewrite <- !app_assoc.
  - destruct (decide (w = [])) as [->|Hne].
    + exists p, d. by rewrite app_nil_r.
    + destruct (exists_last Hne) as (w' & x & ->).
      apply Forall_app in Hw as [_ Hx]. apply Forall_inv in Hx.
      exists (p ++ [d] ++ w'), x. split; [by rewrite <- !app_assoc|].
      by apply isWhiteSpace_not_digit.
  - unfold onOneLine. rewrite (app_assoc p [d] w), trimEnd_app_ws by done.
    assert (Hp' : Forall (fun x => isLineTerminator x = false) p).
    { eapply Forall_impl; [exact Hp|]. intros y Hy. by apply negb_true_iff in Hy. }
    destruct (isWhiteSpace d) eqn:Hws.
    + rewrite trimEnd_app_ws by (by constructor).
      destruct (trimEnd_decomp p) as (w0 & Hsplit & _).
      rewrite Hsplit in Hp'. by apply Forall_app in Hp' as [? _].
    + rewrite trimEnd_snoc by done. apply Forall_app. split; [done|].
      constructor; [|done]. destruct (isLineTerminator d) eqn:Hlt; [|done].
      apply isLineTerminator_whiteSpace in Hlt. congruence.
Qed.

Lemma parseBibleRef_some s pre c v :
  refGrammar (trim s) pre c v -> onOneLine pre ->
  parseBibleRef s
  = Some {| book := trim pre; chapter := parseInt10 c; verse := parseInt10 v |}.
Proof.
  intros Hg Hline.
  destruct (shape_of_grammar _ _ _ _ Hg Hline) as (p & d & w & Hpre & Hshape).
  destruct (strMatch_bibleRefRegex (trim s)) as [Hsound Hcomplete].
  destruct (Hcomplete _ _ _ _ _ Hshape) as [caps Hcaps].
  destruct (Hsound _ Hcaps) as (p' & d' & w' & c' & v' & Hshape' & ->).
  destruct (grammar_of_shape _ _ _ _ _ _ Hshape') as [Hg' _].
  destruct Hg as (Ht & Hend & [_ Hc] & [_ Hv]).
  destruct Hg' as (Ht' & Hend' & [Hcne' Hc'] & [Hvne' Hv']).
  rewrite Ht in Ht'. change (js ":") with [58%N] in Ht'.
  destruct (reference_split_unique _ _ _ _ _ _ Hend Hend' Hc Hc' Hv Hv' Ht')
    as (Hpre' & <- & <-).
  unfold parseBibleRef. rewrite Hcaps.
  do 2 f_equal.
  destruct Hshape' as (_ & _ & _ & Hw' & _).
  rewrite Hpre', (app_assoc p' [d'] w'). symmetry. by apply trim_app_ws.
Qed.

Lemma parseBibleRef_inv s r :
  parseBibleRef s = Some r ->
  exists pre c v, refGrammar (trim s) pre c v /\ onOneLine pre.
Proof.
  unfold parseBibleRef. intros H.
  destruct (strMatch (trim s) bibleRefRegex) as [caps|] eqn:Hcaps; [|done].
  destruct (strMatch_bibleRefRegex (trim s)) as [Hsound _].
  destruct (Hsound _ Hcaps) as (p & d & w & c & v & Hshape & ->).
  exists (p ++ [d] ++ w), c, v. by apply grammar_of_shape.
Qed.

Lemma formatBibleRef_normalized pre c v :
  digits c -> digits v ->
  digitsValue c <= MAX_SAFE_INTEGER -> digitsValue v <= MAX_SAFE_INTEGER ->
  formatBibleRef {| book := trim pre; chapter := Int (digitsValue c);
                    verse := Int (digitsValue v) |}
  = normalizedForm pre c v.
Proof.
  intros [_ Hc] [_ Hv] Hcs Hvs. unfold formatBibleRef, normalizedForm.
  cbn [book chapter verse].
  by rewrite !numberToString_digitsValue.
Qed.

End Grammar.




(** ** References that print and parse back *)

Section RoundTrip.
Import GeminiService ImageGenerator.

Lemma trimEnd_nil : trimEnd [] = [].
Proof. reflexivity. Qed.

Lemma trimStart_head l : 
  match trimStart l with [] => True | x :: _ => isWhiteSpace x = false end.
Proof. by destruct (trimStart_decomp l) as (w & _ & _ & H). Qed.

Lemma trimStart_id x l : isWhiteSpace x = false -> trimStart (x :: l) = x :: l.
Proof. intros H. simpl. by rewrite H. Qed.

Lemma trim_trimmed s : trimmed (trim s).
Proof.
  unfold trim. pose proof (trimStart_head s) as Hhd.
  destruct (trimStart s) as [|x u] eqn:Hu; [split; [done|by intros [|??] ?]|].
  destruct (trimEnd_decomp (x :: u)) as (w & Hsplit & Hw & Hlast).
  split; [|exact Hlast].
  destruct (trimEnd (x :: u)) as [|x' t]; [done|].
  simpl in Hsplit. by injection Hsplit as <- _.
Qed.

Lemma trimmed_trim l : trimmed l -> trim l = l.
Proof.
  intros [Hhd Hlast]. destruct l as [|x l]; [done|].
  unfold trim. rewrite trimStart_id by done.
  destruct (exists_last (l:=x :: l)) as (q & y & E); [done|].
  rewrite E. apply trimEnd_snoc. by apply (Hlast q).
Qed.

Lemma trim_idempotent s : trim (trim s) = trim s.
Proof. apply trimmed_trim, trim_trimmed. Qed.


Lemma codesOfUint_digits d : Forall (fun c => isDigit c = true) (codesOfUint d).
Proof. induction d; simpl; constructor; done. Qed.

Lemma uintOfCodes_codesOfUint d : uintOfCodes (codesOfUint d) = d.
Proof. induction d; simpl; by rewrite ?IHd. Qed.

Lemma to_uint_nonnil n : N.to_uint n <> Decimal.Nil.
Proof.
  destruct n as [|p]; [done|]. simpl. apply DecimalPos.Unsigned.to_uint_nonnil.
Qed.

(** A safe integer that is not negative prints as a numeral that reads
    back as it. *)
Lemma numberToString_numeral z :
  0 <= z <= MAX_SAFE_INTEGER ->
  digits (numberToString (Int z)) /\ digitsValue (numberToString (Int z)) = z.
Proof.
  intros Hz. rewrite numberToString_safe by done. unfold numeral.
  split; [split|].
  - intros H%codesOfUint_nil. by apply to_uint_nonnil in H.
  - apply codesOfUint_digits.
  - unfold digitsValue. rewrite uintOfCodes_codesOfUint, DecimalN.Unsigned.of_to. lia.
Qed.

Lemma parseBibleRef_formatBibleRef_gen b c v :
  b <> [] -> trimmed b -> Forall (fun x => isLineTerminator x = false) b ->
  0 <= c <= MAX_SAFE_INTEGER -> 0 <= v <= MAX_SAFE_INTEGER ->
  parseBibleRef (formatBibleRef {| book := b; chapter := Int c; verse := Int v |})
  = Some {| book := b; chapter := Int c; verse := Int v |}.
Proof.
  intros Hne Htrim Hline Hc Hv. unfold formatBibleRef. cbn [book chapter verse].
  destruct (numberToString_numeral c) as [HC HCv]; [lia|].
  destruct (numberToString_numeral v) as [HV HVv]; [lia|].
  set (C := numberToString (Int c)) in *. set (V := numberToString (Int v)) in *.
  change (js " ") with [32%N]. 
  assert (Hg : refGrammar (trim (b ++ [32%N] ++ C ++ js ":" ++ V)) (b ++ [32%N]) C V).
  { repeat split; try apply HC; try apply HV; [|by exists b, 32%N].
    rewrite <- app_assoc. apply trimmed_trim. split.
    - destruct b; [done|]. apply Htrim.
    - intros q y E. destruct HV as [HVne HVd].
      destruct (exists_last HVne) as (V' & y' & EV). rewrite EV in E.
      change (js ":") with [58%N] in E.
      rewrite !app_assoc in E. apply app_inj_tail in E as [_ <-].
      rewrite EV in HVd. apply Forall_app in HVd as [_ HVd]. apply Forall_inv in HVd.
      by apply isDigit_not_whiteSpace. }
  assert (Hb : trimEnd b = b).
  { destruct (exists_last Hne) as (q & y & E). rewrite E. apply trimEnd_snoc.
    destruct Htrim as [_ Hlast]. by apply (Hlast q). }
  rewrite (parseBibleRef_some _ _ _ _ Hg).
  - rewrite (trim_app_ws b [32%N]) by (by repeat constructor).
    rewrite (trimmed_trim b Htrim).
    rewrite !parseInt10_safe by (done || lia). by rewrite HCv, HVv.
  - unfold onOneLine. rewrite trimEnd_app_ws by (by repeat constructor).
    by rewrite Hb.
Qed.


Lemma parseBibleRef_result s r :
  parseBibleRef s = Some r ->
  book r <> [] /\ trim (book r) = book r
  /\ Forall (fun c => isLineTerminator c = false) (book r)
  /\ exists cs vs, digits cs /\ digits vs
       /\ chapter r = toNumber (digitsValue cs)
       /\ verse r = toNumber (digitsValue vs).
Proof.
  intros Hr. destruct (parseBibleRef_inv _ _ Hr) as (pre & cs & vs & Hg & Hline).
  rewrite (parseBibleRef_some _ _ _ _ Hg Hline) in Hr. injection Hr as <-.
  cbn [book chapter verse].
  destruct Hg as (Ht & (p & d & -> & Hd) & Hcs & Hvs).
  assert (Hpre : exists x pre', p ++ [d] = x :: pre' /\ isWhiteSpace x = false).
  { destruct (trim_trimmed s) as [Hhd _]. rewrite Ht in Hhd.
    destruct p as [|x p]; simpl in *; eauto. }
  destruct Hpre as (x & pre' & Epre & Hx). rewrite Epre in *.
  assert (Etrim : trim (x :: pre') = trimEnd (x :: pre'))
    by (unfold trim; by rewrite trimStart_id).
  repeat split.
  - rewrite Etrim. destruct (trimEnd_decomp (x :: pre')) as (w & Hsplit & Hw & _).
    intros E. rewrite E in Hsplit. simpl in Hsplit. subst w.
    apply Forall_inv in Hw. congruence.
  - apply trim_idempotent.
  - by rewrite Etrim.
  - exists cs, vs. by rewrite !parseInt10_digits.
Qed.

End RoundTrip.

(** X1.  A reference that [parseBibleRef] returns has a book that is not
    empty, has no white space at either end and no line terminator, and a
    chapter and a verse that are each an integer that is not negative or,
    for a numeral too large for a number, [Infinity]; neither is ever
    [NaN] or negative. *)
Theorem parseBibleRef_result_shape (s : jsstring) (r : ImageGenerator.BibleRef) :
  ImageGenerator.parseBibleRef s = Some r ->
  ImageGenerator.book r <> []
  /\ trim (ImageGenerator.book r) = ImageGenerator.book r
  /\ Forall (fun c => isLineTerminator c = false) (ImageGenerator.book r)
  /\ ((exists c, ImageGenerator.chapter r = Int c /\ 0 <= c < 2 ^ 1024)
      \/ ImageGenerator.chapter r = PosInfinity)
  /\ ((exists v, ImageGenerator.verse r = Int v /\ 0 <= v < 2 ^ 1024)
      \/ ImageGenerator.verse r = PosInfinity).
Proof.
  intros Hr.
  destruct (parseBibleRef_result s r Hr) as (H1 & H2 & H3 & cs & vs & _ & _ & Hc & Hv).
  split; [exact H1|]. split; [exact H2|]. split; [exact H3|].
  rewrite Hc, Hv. split; apply toNumber_nonneg, digitsValue_nonneg.
Qed.

Lemma parseBibleRef_result_shape_witness :
  ImageGenerator.book
    {| ImageGenerator.book := js "1 John"; ImageGenerator.chapter := Int 3;
       ImageGenerator.verse := Int 16 |} <> [].
Proof.
  destruct (parseBibleRef_result_shape (js "  1 John   03:016  ")
              {| ImageGenerator.book := js "1 John"; ImageGenerator.chapter := Int 3;
                 ImageGenerator.verse := Int 16 |}) as [H _].
  - vm_compute. reflexivity.
  - exact H.
Defined.

(** X2.  Formatting a well-formed reference and parsing the text gives the
    reference back. *)
Theorem parseBibleRef_formatBibleRef (r : ImageGenerator.BibleRef) :
  ImageGenerator.wellFormedRef r ->
  ImageGenerator.parseBibleRef (ImageGenerator.formatBibleRef r) = Some r.
Proof.
  intros (Hne & Htrim & Hline & c & v & Hc & Hv & Hcs & Hvs).
  destruct r as [b ch ve]. cbn in *. subst ch ve.
  apply parseBibleRef_formatBibleRef_gen; try done.
  rewrite <- Htrim. apply trim_trimmed.
Qed.

Lemma parseBibleRef_formatBibleRef_witness :
  ImageGenerator.parseBibleRef (js "Gênesis 1:5")
  = Some {| ImageGenerator.book := js "Gênesis"; ImageGenerator.chapter := Int 1;
            ImageGenerator.verse := Int 5 |}.
Proof.
  apply (parseBibleRef_formatBibleRef
           {| ImageGenerator.book := js "Gênesis"; ImageGenerator.chapter := Int 1;
              ImageGenerator.verse := Int 5 |}).
  unfold ImageGenerator.wellFormedRef. cbn [ImageGenerator.book
    ImageGenerator.chapter ImageGenerator.verse].
  split; [vm_compute; discriminate|]. split; [vm_compute; reflexivity|].
  split; [vm_compute; repeat constructor|].
  exists 1, 5. unfold MAX_SAFE_INTEGER. repeat split; lia.
Defined.

(** X3.  The next-verse reference of a reference that parses, with a
    chapter and a next verse that a number holds exactly, parses to the
    same book and chapter and the verse plus one. *)
Theorem getNextVerseRef_parses (s : ImageGenerator.State)
    (r : ImageGenerator.BibleRef) (c v : Z) :
  ImageGenerator.parseBibleRef (ImageGenerator.bibleReference s) = Some r ->
  ImageGenerator.chapter r = Int c -> ImageGenerator.verse r = Int v ->
  c <= MAX_SAFE_INTEGER -> v + 1 <= MAX_SAFE_INTEGER ->
  ImageGenerator.parseBibleRef (ImageGenerator.getNextVerseRef s)
  = Some {| ImageGenerator.book := ImageGenerator.book r;
            ImageGenerator.chapter := Int c;
            ImageGenerator.verse := Int (v + 1) |}.
Proof.
  intros Hr Hc Hv Hcs Hvs.
  destruct (parseBibleRef_result _ r Hr) as (H1 & H2 & H3 & cs & vs & _ & _ & Hc' & Hv').
  assert (0 <= c /\ 0 <= v) as [Hc0 Hv0].
  { rewrite Hc in Hc'. rewrite Hv in Hv'. split.
    - destruct (toNumber_nonneg _ (digitsValue_nonneg cs)) as [(c0 & E & Hc0)|E];
        rewrite E in Hc'; [|discriminate Hc']. injection Hc' as ->. lia.
    - destruct (toNumber_nonneg _ (digitsValue_nonneg vs)) as [(v0 & E & Hv0)|E];
        rewrite E in Hv'; [|discriminate Hv']. injection Hv' as ->. lia. }
  unfold ImageGenerator.getNextVerseRef. rewrite Hr, Hc, Hv. cbn [addOne].
  rewrite toNumber_safe by lia.
  apply parseBibleRef_formatBibleRef_gen; try done; try lia.
  rewrite <- H2. apply trim_trimmed.
Qed.

Lemma getNextVerseRef_parses_witness :
  ImageGenerator.parseBibleRef (ImageGenerator.getNextVerseRef Scenario.genesis_1_5)
  = Some {| ImageGenerator.book := js "Gênesis"; ImageGenerator.chapter := Int 1;
            ImageGenerator.verse := Int 6 |}.
Proof.
  apply (getNextVerseRef_parses Scenario.genesis_1_5
           {| ImageGenerator.book := js "Gênesis"; ImageGenerator.chapter := Int 1;
              ImageGenerator.verse := Int 5 |} 1 5).
  - vm_compute. reflexivity.
  - reflexivity.
  - reflexivity.
  - unfold MAX_SAFE_INTEGER. lia.
  - unfold MAX_SAFE_INTEGER. lia.
Defined.

Section NotStarted.
Import GeminiService ImageGenerator.

Lemma formatBibleRef_nonempty r : formatBibleRef r <> [].
Proof.
  unfold formatBibleRef. change (js " ") with [32%N].
  intros H. apply app_eq_nil in H as [_ H]. apply app_eq_nil in H as [H _].
  discriminate H.
Qed.

Lemma getNextVerseRef_empty s :
  getNextVerseRef s = [] <-> parseBibleRef (bibleReference s) = None.
Proof.
  unfold getNextVerseRef. destruct (parseBibleRef (bibleReference s)); [|done].
  split; [|done]. intros H. by apply formatBibleRef_nonempty in H.
Qed.

End NotStarted.

(** X4.  [handleGenerateNextVerse] returns at once, with the state as it
    was and no call made, exactly when there is no character set or the
    reference does not parse; an empty character set does not stop it. *)
Theorem advance_not_started (ai : GeminiService.Ai) (s : ImageGenerator.State) :
  (ImageGenerator.advanceOutcome ai s = ImageGenerator.NotStarted
   <-> ImageGenerator.characterDescriptions s = None
       \/ ImageGenerator.parseBibleRef (ImageGenerator.bibleReference s) = None)
  /\ (ImageGenerator.advanceOutcome ai s = ImageGenerator.NotStarted ->
      ImageGenerator.handleGenerateNextVerse ai s = (s, []))
  /\ (ImageGenerator.advanceOutcome ai s <> ImageGenerator.NotStarted ->
      exists req rest,
        (ImageGenerator.handleGenerateNextVerse ai s).2
        = ImageGenerator.Network (GeminiService.SceneCall req) :: rest).
Proof.
  assert (Hiff : ImageGenerator.advanceOutcome ai s = ImageGenerator.NotStarted
    <-> ImageGenerator.characterDescriptions s = None
        \/ ImageGenerator.parseBibleRef (ImageGenerator.bibleReference s) = None).
  { rewrite <- getNextVerseRef_empty. unfold ImageGenerator.advanceOutcome.
    destruct (ImageGenerator.characterDescriptions s) as [chars|]; [|tauto].
    destruct (ImageGenerator.getNextVerseRef s) as [|x l]; cbn [truthy negb]; [tauto|].
    split; [|by intros [?|?]].
    destruct (GeminiService.generateImagePrompt ai _ _).2; [|done].
    by destruct (GeminiService.generateImage ai _ _).2. }
  split; [exact Hiff|]. split.
  - intros [Hn|Hn]%Hiff; unfold ImageGenerator.handleGenerateNextVerse.
    + by rewrite Hn.
    + apply getNextVerseRef_empty in Hn. rewrite Hn.
      by destruct (ImageGenerator.characterDescriptions s).
  - intros Hne. rewrite advance_trace.
    destruct (ImageGenerator.advanceOutcome ai s); [done| | |]; simpl; eauto.
Qed.

Lemma advance_not_started_witness :
  ImageGenerator.handleGenerateNextVerse Scenario.chapterEnds
    (ImageGenerator.setCharacterDescriptions None Scenario.genesis_1_5)
  = (ImageGenerator.setCharacterDescriptions None Scenario.genesis_1_5, []).
Proof.
  destruct (advance_not_started Scenario.chapterEnds
              (ImageGenerator.setCharacterDescriptions None Scenario.genesis_1_5))
    as (H1 & H2 & _).
  apply H2, H1. left. reflexivity.
Defined.

(** ** What the handlers keep *)

Section Handlers.
Import GeminiService ImageGenerator.

Lemma data_url_truthy img : truthy (js "data:image/jpeg;base64," ++ img) = true.
Proof. reflexivity. Qed.

Lemma messageOr_nonempty err fallback : fallback <> [] -> messageOr err fallback <> [].
Proof.
  intros Hf. unfold messageOr. destruct (message err) as [m|]; [|done].
  by destruct m.
Qed.

Lemma advance_image (ai : Ai) (s : State) :
  generatedImage (handleGenerateNextVerse ai s).1
  = match advanceOutcome ai s with
    | Advanced _ img => Some (js "data:image/jpeg;base64," ++ img)
    | _ => generatedImage s
    end.
Proof.
  unfold handleGenerateNextVerse, advanceOutcome;
  destruct (characterDescriptions s) as [chars|] eqn:Hchars; [|try done];
  destruct (truthy (getNextVerseRef s)) eqn:Hnext; cbn [negb]; cbv iota; [|try done];
  cbv zeta;
  destruct (generateImagePrompt ai (getNextVerseRef s) (Some chars)) as [calls1 [res|err1]];
  cbn [snd];
  [ destruct (generateImage ai (scenePrompt res) (aspectRatio s)) as [calls2 [img|err2]];
    cbn [snd] | ];
  unfold nextVerseCatch;
  repeat match goal with
         | |- context [if ?b then _ else _] => destruct b eqn:?
         end; by destruct s.
Qed.

Lemma advance_flags (ai : Ai) (s : State) :
  let s' := (handleGenerateNextVerse ai s).1 in
  isPromptLoading s' = isPromptLoading s
  /\ isAudioLoading s' = isAudioLoading s
  /\ isFetchingVerse s' = isFetchingVerse s
  /\ isImageLoading s'
     = match advanceOutcome ai s with NotStarted => isImageLoading s | _ => false end.
Proof.
  cbv zeta.
  unfold handleGenerateNextVerse, advanceOutcome;
  destruct (characterDescriptions s) as [chars|] eqn:Hchars; [|try done];
  destruct (truthy (getNextVerseRef s)) eqn:Hnext; cbn [negb]; cbv iota; [|try done];
  cbv zeta;
  destruct (generateImagePrompt ai (getNextVerseRef s) (Some chars)) as [calls1 [res|err1]];
  cbn [snd];
  [ destruct (generateImage ai (scenePrompt res) (aspectRatio s)) as [calls2 [img|err2]];
    cbn [snd] | ];
  unfold nextVerseCatch;
  repeat match goal with
         | |- context [if ?b then _ else _] => destruct b eqn:?
         end; by destruct s.
Qed.


Lemma handler_flags (ai : Ai) (url : jsstring) (c : Control) (s : State) :
  let s' := (handler ai url c s).1 in
  keptOrCleared isPromptLoading s s' /\ keptOrCleared isImageLoading s s'
  /\ keptOrCleared isAudioLoading s s' /\ keptOrCleared isFetchingVerse s s'.
Proof.
  cbv zeta. unfold keptOrCleared. destruct c; cbn [handler].
  - by destruct s; cbn; auto.
  - unfold handleGeneratePrompt.
    destruct (negb _); [by auto|]. cbv zeta.
    destruct (generateImagePrompt ai _ _) as [calls [res|err]];
      [|destruct (isServerError err)]; destruct s; cbn [fst]; auto.
  - unfold handleGenerateImage.
    destruct (_ || _); [by auto|]. cbv zeta.
    destruct (generateImage ai _ _) as [calls [res|err]];
      [|destruct (isServerError err)]; destruct s; cbn [fst]; auto.
  - destruct (advance_flags ai s) as (H1 & H2 & H3 & H4).
    rewrite H1, H2, H3, H4. destruct (advanceOutcome ai s); auto.
  - unfold handleFetchVerseText.
    destruct (_ || _); [by auto|]. cbv zeta.
    destruct (getVerseText ai _ _) as [calls [res|err]];
      [|destruct (isServerError err)]; destruct s; cbn [fst]; auto.
  - unfold handleGenerateAudioClick.
    destruct (_ || _); [by auto|]. cbv zeta.
    destruct (generateSpeech ai _ _) as [calls r].
    destruct (r ≫= Wav.createWavBlob) as [blob|err];
      [|destruct (isServerError err)]; destruct s; cbn [fst]; auto.
Qed.

End Handlers.

(** X5.  Every handler leaves each of the four loading flags as it was or
    cleared: the flag it raises is lowered again on every path, so when no
    operation was in flight before, none is marked in flight after. *)
Theorem handlers_lower_their_flag
    (ai : GeminiService.Ai) (url : jsstring) (c : ImageGenerator.Control)
    (s : ImageGenerator.State) :
  ImageGenerator.isAnyLoading s = false ->
  ImageGenerator.isAnyLoading (ImageGenerator.handler ai url c s).1 = false.
Proof.
  intros H. destruct (handler_flags ai url c s) as (H1 & H2 & H3 & H4).
  unfold ImageGenerator.isAnyLoading in *.
  apply orb_false_iff in H as [H Hf]. apply orb_false_iff in H as [H Ha].
  apply orb_false_iff in H as [Hp Hi].
  unfold ImageGenerator.keptOrCleared in *. rewrite Hp in H1. rewrite Hi in H2.
  rewrite Ha in H3. rewrite Hf in H4.
  destruct H1 as [->| ->], H2 as [->| ->], H3 as [->| ->], H4 as [->| ->]; reflexivity.
Qed.

Lemma handlers_lower_their_flag_witness :
  ImageGenerator.isAnyLoading
    (ImageGenerator.handler Scenario.sceneThenNoImage (js "blob:1")
       ImageGenerator.NextVerseButton Scenario.genesis_1_5).1 = false.
Proof.
  apply (handlers_lower_their_flag Scenario.sceneThenNoImage (js "blob:1")
           ImageGenerator.NextVerseButton Scenario.genesis_1_5).
  reflexivity.
Defined.

Section ActiveImage.
Import GeminiService ImageGenerator.

Lemma click_active_image (ai : Ai) (url : jsstring) (c : Control) (s : State) :
  (isSequenceActive s = true -> hasImage s = true) ->
  isSequenceActive (click ai url c s).1 = true -> hasImage (click ai url c s).1 = true.
Proof.
  intros Hinv. unfold click.
  destruct (rendered c s && negb (disabled c s)) eqn:Hclick; [|exact Hinv].
  apply andb_true_iff in Hclick as [Hr Hd]. apply negb_true_iff in Hd.
  destruct c; cbn [handler].
  - by destruct s.
  - unfold handleGeneratePrompt.
    destruct (negb _); [exact Hinv|]. cbv zeta.
    destruct (generateImagePrompt ai _ _) as [calls [res|err]];
      [|destruct (isServerError err)]; by destruct s.
  - cbn [disabled] in Hd. apply orb_false_iff in Hd as [_ Hactive].
    unfold handleGenerateImage.
    destruct (_ || _); [exact Hinv|]. cbv zeta.
    destruct (generateImage ai _ _) as [calls [res|err]];
      [|destruct (isServerError err)]; destruct s;
      cbn [isSequenceActive] in Hactive; subst; intros H;
      first [ reflexivity
            | cbv [isSequenceActive fst setIsImageLoading setImageError
                   setGeneratedImage] in H; discriminate H ].
  - cbn [rendered] in Hr. apply andb_true_iff in Hr as [Himg Hact].
    unfold hasImage. rewrite advance_active, advance_image.
    unfold hasImage in Himg.
    destruct (advanceOutcome ai s); try done.
  - unfold handleFetchVerseText.
    destruct (_ || _); [exact Hinv|]. cbv zeta.
    destruct (getVerseText ai _ _) as [calls [res|err]];
      [|destruct (isServerError err)]; by destruct s.
  - unfold handleGenerateAudioClick.
    destruct (_ || _); [exact Hinv|]. cbv zeta.
    destruct (generateSpeech ai _ _) as [calls r].
    destruct (r ≫= Wav.createWavBlob) as [blob|err];
      [|destruct (isServerError err)]; by destruct s.
Qed.

End ActiveImage.

(** ** Sessions *)

Section Sessions.
Import GeminiService ImageGenerator.

Lemma run_invariant (P : State -> Prop) :
  (forall e s, P s -> P (step e s).1) ->
  forall events s, P s -> P (run events s).1.
Proof.
  intros Hstep events. induction events as [|e events IH]; intros s Hs; [done|].
  simpl. specialize (Hstep e s Hs). destruct (step e s) as [s1 t1].
  specialize (IH s1 Hstep). by destruct (run events s1).
Qed.

Ltac handler_paths ai s :=
  match goal with
  | |- context [handleGeneratePrompt ai s] =>
      unfold handleGeneratePrompt; destruct (negb _); [|cbv zeta;
        destruct (generateImagePrompt ai _ _) as [? [?|err]];
        [|destruct (isServerError err)]]
  | |- context [handleGenerateImage ai s] =>
      unfold handleGenerateImage; destruct (_ || _); [|cbv zeta;
        destruct (generateImage ai _ _) as [? [?|err]];
        [|destruct (isServerError err)]]
  | |- context [handleFetchVerseText ai s] =>
      unfold handleFetchVerseText; destruct (_ || _); [|cbv zeta;
        destruct (getVerseText ai _ _) as [? [?|err]];
        [|destruct (isServerError err)]]
  | |- context [handleGenerateAudioClick ai ?url s] =>
      unfold handleGenerateAudioClick; destruct (_ || _); [|cbv zeta;
        destruct (generateSpeech ai _ _) as [? r];
        destruct (r ≫= Wav.createWavBlob) as [?|err];
        [|destruct (isServerError err)]]
  | |- context [handleGenerateNextVerse ai s] =>
      unfold handleGenerateNextVerse;
      destruct (characterDescriptions s) as [chars|]; [|];
      [destruct (negb _); [|cbv zeta;
        destruct (generateImagePrompt ai _ _) as [? [res|err1]];
        [destruct (generateImage ai _ _) as [? [?|err2]]|];
        unfold nextVerseCatch;
        repeat match goal with
               | |- context [if ?b then _ else _] => destruct b
               end]|]
  end.

(** No handler touches the settings. *)
Lemma handler_settings (ai : Ai) (url : jsstring) (c : Control) (s : State) :
  language (handler ai url c s).1 = language s
  /\ voiceType (handler ai url c s).1 = voiceType s
  /\ aspectRatio (handler ai url c s).1 = aspectRatio s.
Proof.
  destruct c; cbn [handler]; [by destruct s|..]; handler_paths ai s; by destruct s.
Qed.

(** The URL and the narrated text are set together and cleared together. *)
Lemma handler_audio_pair (ai : Ai) (url : jsstring) (c : Control) (s : State) :
  (generatedAudioUrl s = None <-> narratedText s = None) ->
  (generatedAudioUrl (handler ai url c s).1 = None
   <-> narratedText (handler ai url c s).1 = None).
Proof.
  intros H.
  destruct c; cbn [handler]; [by destruct s|..]; handler_paths ai s;
    try exact H; by destruct s.
Qed.

Lemma step_click_cases e s (P : State -> Prop) :
  P s ->
  (forall ai url c, e = Click ai url c -> P (handler ai url c s).1) ->
  (forall v, P (setBibleReference v s)) -> (forall v, P (setPromptText v s)) ->
  (forall v, P (setTextForNarration v s)) -> (forall v, P (setAspectRatio v s)) ->
  (forall v, v ∈ LANGUAGES.*1 -> P (setLanguage v s)) ->
  (forall v, v ∈ [js "adulta"; js "infantil"] -> P (setVoiceType v s)) ->
  P (step e s).1.
Proof.
  intros Hs Hclick Href Hprompt Htext Haspect Hlang Hvoice.
  destruct e as [ai url c|v|v|v|v|v|v]; cbn [step fst].
  - unfold click. destruct (_ && _); [by eapply Hclick|done].
  - destruct (_ || _); auto.
  - destruct (isAnyLoading s); auto.
  - destruct (isAnyLoading s); auto.
  - destruct (isAnyLoading s); auto.
  - destruct (isAnyLoading s); [done|]. cbn [orb].
    case_bool_decide; cbn [negb]; auto.
  - destruct (isAnyLoading s); [done|]. cbn [orb].
    case_bool_decide; cbn [negb]; auto.
Qed.

End Sessions.

Section SessionInvariants.
Import GeminiService ImageGenerator.

Lemma step_active_image e s :
  (isSequenceActive s = true -> hasImage s = true) ->
  isSequenceActive (step e s).1 = true -> hasImage (step e s).1 = true.
Proof.
  intros H. destruct e as [ai url c|v|v|v|v|v|v]; cbn [step fst].
  - by apply click_active_image.
  - destruct (_ || _); [done|]. by destruct s.
  - destruct (isAnyLoading s); [done|]. by destruct s.
  - destruct (isAnyLoading s); [done|]. by destruct s.
  - destruct (isAnyLoading s); [done|]. by destruct s.
  - destruct (_ || _); [done|]. by destruct s.
  - destruct (_ || _); [done|]. by destruct s.
Qed.

Lemma step_audio_pair e s :
  (generatedAudioUrl s = None <-> narratedText s = None) ->
  (generatedAudioUrl (step e s).1 = None <-> narratedText (step e s).1 = None).
Proof.
  intros H. apply (step_click_cases e s
    (fun s' => generatedAudioUrl s' = None <-> narratedText s' = None));
    try done; try (intros; by destruct s).
  intros ai url c _. by apply handler_audio_pair.
Qed.

Lemma step_settings e s :
  language s ∈ LANGUAGES.*1 /\ voiceType s ∈ [js "adulta"; js "infantil"] ->
  language (step e s).1 ∈ LANGUAGES.*1
  /\ voiceType (step e s).1 ∈ [js "adulta"; js "infantil"].
Proof.
  intros H. apply (step_click_cases e s
    (fun s' => language s' ∈ LANGUAGES.*1
               /\ voiceType s' ∈ [js "adulta"; js "infantil"]));
    try done; try (intros; by destruct s).
  - intros ai url c _. destruct (handler_settings ai url c s) as (-> & -> & _). done.
  - intros v Hv. destruct H as [_ H]. by destruct s.
  - intros v Hv. destruct H as [H _]. by destruct s.
Qed.

Lemma selector_language_in_table code :
  code ∈ LANGUAGES.*1 ->
  exists name, (code, name) ∈ languageMap /\ languageMap_get code = VString name
               /\ truthy name = true.
Proof.
  intros H.
  assert (Hall : Forall (fun code => exists name,
            (code, name) ∈ languageMap /\ languageMap_get code = VString name
            /\ truthy name = true) (LANGUAGES.*1)).
  { change (LANGUAGES.*1)
      with [js "pt-BR"; js "en-US"; js "es-ES"; js "fr-FR"; js "de-DE"].
    repeat (apply List.Forall_cons;
      [cbv beta; eexists; split; [|split];
       [ | vm_compute; reflexivity | ]; [ | vm_compute; reflexivity ];
       apply (bool_decide_unpack _); vm_compute; exact I|]).
    apply List.Forall_nil. }
  by apply (proj1 (Forall_forall _ _) Hall).
Qed.

End SessionInvariants.

(** X6.  In every state that a session reaches from the initial state, by
    clicks on the controls and changes of the inputs, an active sequence
    shows an image. *)
Theorem session_active_shows_image (events : list ImageGenerator.UserEvent) :
  ImageGenerator.isSequenceActive
    (ImageGenerator.run events ImageGenerator.initialState).1 = true ->
  ImageGenerator.hasImage
    (ImageGenerator.run events ImageGenerator.initialState).1 = true.
Proof.
  apply (run_invariant
    (fun s => ImageGenerator.isSequenceActive s = true ->
              ImageGenerator.hasImage s = true)).
  - intros e s. apply step_active_image.
  - done.
Qed.

(** X7.  In every state that a session reaches, the audio URL and the
    narrated text are both set or both null. *)
Theorem session_audio_pair (events : list ImageGenerator.UserEvent) :
  ImageGenerator.generatedAudioUrl
    (ImageGenerator.run events ImageGenerator.initialState).1 = None
  <-> ImageGenerator.narratedText
        (ImageGenerator.run events ImageGenerator.initialState).1 = None.
Proof.
  apply (run_invariant
    (fun s => ImageGenerator.generatedAudioUrl s = None
              <-> ImageGenerator.narratedText s = None)).
  - intros e s. apply step_audio_pair.
  - done.
Qed.

(** X8.  In every state that a session reaches, the language is a key of
    the table of the service and the voice type is one of the two: the
    verse-text request names a language of the table, never the fallback
    for a missing key nor an inherited property. *)
Theorem session_language_supported (events : list ImageGenerator.UserEvent)
    (ai : GeminiService.Ai) (bibleReference : jsstring) :
  ImageGenerator.voiceType (ImageGenerator.run events ImageGenerator.initialState).1
    ∈ [js "adulta"; js "infantil"]
  /\ exists name,
       (ImageGenerator.language (ImageGenerator.run events ImageGenerator.initialState).1,
        name) ∈ GeminiService.languageMap
       /\ (GeminiService.getVerseText ai bibleReference
             (ImageGenerator.language
                (ImageGenerator.run events ImageGenerator.initialState).1)).1
          = [GeminiService.TextCall
               {| GeminiService.treq_bibleReference := bibleReference;
                  GeminiService.treq_languageName := GeminiService.VString name |}].
Proof.
  assert (H : ImageGenerator.language
                (ImageGenerator.run events ImageGenerator.initialState).1
                ∈ ImageGenerator.LANGUAGES.*1
              /\ ImageGenerator.voiceType
                   (ImageGenerator.run events ImageGenerator.initialState).1
                   ∈ [js "adulta"; js "infantil"]).
  { apply (run_invariant
      (fun s => ImageGenerator.language s ∈ ImageGenerator.LANGUAGES.*1
                /\ ImageGenerator.voiceType s ∈ [js "adulta"; js "infantil"])).
    - intros e s. apply step_settings.
    - split; apply (bool_decide_unpack _); vm_compute; exact I. }
  destruct H as [Hlang Hvoice]. split; [exact Hvoice|].
  destruct (selector_language_in_table _ Hlang) as (name & Hin & Hget & Ht).
  exists name. split; [exact Hin|].
  unfold GeminiService.getVerseText. cbn [fst]. rewrite Hget.
  unfold GeminiService.orElse, GeminiService.valueTruthy. by rewrite Ht.
Qed.

Lemma session_active_shows_image_witness :
  ImageGenerator.hasImage
    (ImageGenerator.run
       [ImageGenerator.ChangeReference (js "Gênesis 1:1");
        ImageGenerator.Click Scenario.sceneWithoutEve (js "blob:1")
          ImageGenerator.GeneratePromptButton;
        ImageGenerator.Click Scenario.sceneWithoutEve (js "blob:1")
          ImageGenerator.GenerateImageButton]
       ImageGenerator.initialState).1 = true.
Proof.
  apply session_active_shows_image. vm_compute. reflexivity.
Defined.

(** ** The service module *)

Section Service.
Import GeminiService.

Lemma setProperty_lookup acc name description key :
  setProperty acc name description !! key
  = if bool_decide (name = key /\ name <> js "__proto__") then Some description
    else acc !! key.
Proof.
  unfold setProperty. case_bool_decide as Hp.
  - rewrite bool_decide_false; [done|]. intros [_ ?]. done.
  - destruct (decide (name = key)) as [->|Hne].
    + rewrite bool_decide_true by done. apply lookup_insert_eq.
    + rewrite bool_decide_false by (by intros [? _]). by apply lookup_insert_ne.
Qed.

(** The object that the [reduce] builds: a name has the description of its
    last entry, and [__proto__] is never a key. *)
Lemma reduce_lookup (chars : list (jsstring * jsstring)) :
  forall acc key,
  foldl (fun acc char => setProperty acc char.1 char.2) acc chars !! key
  = if bool_decide (key = js "__proto__") then acc !! key
    else match last (filter (fun char => char.1 = key) chars) with
         | Some char => Some char.2
         | None => acc !! key
         end.
Proof.
  induction chars as [|[name description] chars IH]; intros acc key.
  - simpl. by case_bool_decide.
  - cbn [foldl fst snd]. rewrite IH, setProperty_lookup.
    rewrite filter_cons. cbn [fst].
    case_bool_decide as Hproto; [subst key|].
    + rewrite bool_decide_false; [done|]. intros [-> ?]. done.
    + destruct (decide (name = key)) as [->|Hne].
      * rewrite bool_decide_true by done.
        destruct (filter _ chars) as [|c l]; [done|].
        rewrite last_cons_cons.
        destruct (last (c :: l)) eqn:E; [done|]. by apply last_None in E.
      * by rewrite bool_decide_false by (by intros [? _]).
Qed.

End Service.

(** X9.  Of a successful [generateImagePrompt]: the scene prompt is not
    empty, and the character set is read from the reply alone, a name
    having the description of its last entry in the reply and [__proto__]
    never being a name. *)
Theorem scene_result_shape (ai : GeminiService.Ai) (bibleReference : jsstring)
    (existing : option (gmap jsstring jsstring))
    (res : GeminiService.SceneGenerationResult) :
  (GeminiService.generateImagePrompt ai bibleReference existing).2 = Ok res ->
  GeminiService.scenePrompt res <> []
  /\ exists resp chars,
       GeminiService.ai_scene ai (GeminiService.sceneRequest bibleReference existing)
         = Ok (Ok resp)
       /\ GeminiService.r_scenePrompt resp = Some (GeminiService.scenePrompt res)
       /\ GeminiService.r_characterDescriptions resp = Some chars
       /\ forall name,
            GeminiService.characterDescriptions res !! name
            = if bool_decide (name = js "__proto__") then None
              else snd <$> last (filter (fun char => char.1 = name) chars).
Proof.
  unfold GeminiService.generateImagePrompt. cbn [snd]. cbv zeta.
  destruct (GeminiService.ai_scene ai _) as [[resp|e0]|e0]; [| |done].
  - change (mbind ?f (Ok ?x)) with (f x). cbv beta.
    case_bool_decide as Herr;
      [cbv beta iota; case_bool_decide; intros Hd; discriminate Hd|].
    destruct (GeminiService.r_scenePrompt resp) as [prompt|] eqn:Hprompt;
      [|cbv beta iota; case_bool_decide; intros Hd; discriminate Hd].
    destruct (GeminiService.r_characterDescriptions resp) as [chars|] eqn:Hchars;
      [|cbv beta iota; case_bool_decide; intros Hd; discriminate Hd].
    destruct prompt as [|x prompt];
      [cbv beta iota delta [truthy]; case_bool_decide; intros Hd; discriminate Hd|].
    cbn [truthy].
    intros [= <-]. cbn [GeminiService.scenePrompt GeminiService.characterDescriptions].
    split; [done|]. exists resp, chars. repeat split; try done.
    intros name. rewrite reduce_lookup, lookup_empty.
    case_bool_decide; [done|]. by destruct (last _).
  - change (mbind ?f (Throw ?x)) with (@Throw GeminiService.SceneGenerationResult x).
    cbv beta iota. case_bool_decide; intros Hd; discriminate Hd.
Qed.

Lemma scene_result_shape_witness :
  GeminiService.scenePrompt
    {| GeminiService.scenePrompt := js "Adão dá nome aos animais.";
       GeminiService.characterDescriptions := list_to_map [Scenario.adam] |} <> [].
Proof.
  destruct (scene_result_shape Scenario.sceneWithoutEve (js "Gênesis 2:20") None
              {| GeminiService.scenePrompt := js "Adão dá nome aos animais.";
                 GeminiService.characterDescriptions := list_to_map [Scenario.adam] |})
    as [H _].
  - vm_compute. reflexivity.
  - exact H.
Defined.

(** X10.  A failure of [generateImagePrompt] is the error of the client
    passed on, an error whose message is the verse-not-found signal, or the
    one processing-failure error: the missing-fields error that the
    function makes is never what it throws. *)
Theorem scene_failure_kinds (ai : GeminiService.Ai) (bibleReference : jsstring)
    (existing : option (gmap jsstring jsstring)) (e : Thrown) :
  (GeminiService.generateImagePrompt ai bibleReference existing).2 = Throw e ->
  GeminiService.ai_scene ai (GeminiService.sceneRequest bibleReference existing)
    = Throw e
  \/ message e = Some GeminiService.VERSE_NOT_FOUND
  \/ e = newError
           (js "Falha ao processar a resposta da IA. O formato pode ser inválido.").
Proof.
  unfold GeminiService.generateImagePrompt. cbn [snd]. cbv zeta.
  destruct (GeminiService.ai_scene ai _) as [parsed|e0]; [|intros [= ->]; by left].
  intros Hd. right. destruct parsed as [resp|e1].
  - change (mbind ?f (Ok ?x)) with (f x) in Hd. cbv beta in Hd.
    repeat match type of Hd with
           | context [match ?x with Some _ => _ | None => _ end] => destruct x
           | context [if truthy ?x then _ else _] => destruct (truthy x)
           | context [if bool_decide ?P then _ else _] =>
               destruct (bool_decide_reflect P)
           end; try discriminate Hd; injection Hd as <-;
      first [left; assumption | right; reflexivity].
  - change (mbind ?f (Throw ?x))
      with (@Throw GeminiService.SceneGenerationResult x) in Hd.
    cbv beta iota in Hd. case_bool_decide; injection Hd as <-;
      first [left; assumption | right; reflexivity].
Qed.

Lemma scene_failure_kinds_witness :
  message (newError GeminiService.VERSE_NOT_FOUND) = Some GeminiService.VERSE_NOT_FOUND.
Proof.
  destruct (scene_failure_kinds Scenario.chapterEnds (js "Gênesis 1:32") None
              (newError GeminiService.VERSE_NOT_FOUND)) as [H|[H|H]].
  - vm_compute. reflexivity.
  - vm_compute in H. discriminate H.
  - exact H.
  - vm_compute in H. discriminate H.
Defined.

(** X11.  [createWavBlob] throws exactly when the base64 text does not
    decode, and then what [atob] throws. *)
Theorem createWavBlob_throws (base64 : jsstring) (e : Thrown) :
  Wav.createWavBlob base64 = Throw e <-> atob base64 = Throw e.
Proof.
  destruct (atob base64) as [binaryString|e0] eqn:Hatob.
  - rewrite (createWavBlob_bytes _ _ Hatob). split; discriminate.
  - unfold Wav.createWavBlob. rewrite Hatob.
    change (mbind ?f (Throw ?x)) with (@Throw Wav.Blob x).
    split; intros [= ->]; reflexivity.
Qed.

Lemma getVerseText_ok (ai : GeminiService.Ai)
    (bibleReference language text : jsstring) :
  (GeminiService.getVerseText ai bibleReference language).2 = Ok text ->
  text <> [] /\ trim text = text
  /\ exists req reply, GeminiService.ai_text ai req = Ok reply /\ text = trim reply.
Proof.
  unfold GeminiService.getVerseText. cbn [snd]. cbv zeta.
  destruct (GeminiService.ai_text ai _) as [reply|e0] eqn:Hreply; [|done].
  destruct (trim reply) as [|x t] eqn:Htrim; [done|]. cbn [truthy].
  intros [= <-]. split; [done|]. split.
  - rewrite <- Htrim. apply trim_idempotent.
  - eauto.
Qed.

(** X12.  [getVerseText] sends one request, for the reference and for the
    name of the language in the table (the Portuguese one when the table
    gives nothing truthy).  It returns exactly when that request is
    answered with a text that is not blank, and then the answer without the
    white space around it, which trimming leaves as it is; a blank answer
    is the error of the function, and an error of the client is passed
    on. *)
Theorem getVerseText_trimmed (ai : GeminiService.Ai)
    (bibleReference language : jsstring) :
  let request :=
    {| GeminiService.treq_bibleReference := bibleReference;
       GeminiService.treq_languageName :=
         GeminiService.orElse (GeminiService.languageMap_get language)
           (GeminiService.VString (js "Português (Brasil)")) |} in
  let result := (GeminiService.getVerseText ai bibleReference language).2 in
  (GeminiService.getVerseText ai bibleReference language).1
  = [GeminiService.TextCall request]
  /\ (forall text,
        result = Ok text
        <-> exists reply,
              GeminiService.ai_text ai request = Ok reply
              /\ text = trim reply /\ text <> [])
  /\ (forall text, result = Ok text -> trim text = text)
  /\ (forall reply,
        GeminiService.ai_text ai request = Ok reply -> trim reply = [] ->
        result = Throw (newError (js "Não foi possível obter o texto do versículo.")))
  /\ (forall e, GeminiService.ai_text ai request = Throw e -> result = Throw e).
Proof.
  cbv zeta. split; [reflexivity|].
  unfold GeminiService.getVerseText. cbn [snd]. cbv zeta.
  destruct (GeminiService.ai_text ai _) as [reply|e0] eqn:Hreply.
  - destruct (trim reply) as [|x t] eqn:Htrim; cbn [truthy].
    + split; [|split; [|split]].
      * intros text. split; [discriminate|].
        intros (reply' & Hr & -> & Hne). injection Hr as <-. by rewrite Htrim in Hne.
      * discriminate.
      * reflexivity.
      * discriminate.
    + split; [|split; [|split]].
      * intros text. split.
        -- intros [= <-]. exists reply. by rewrite Htrim.
        -- intros (reply' & Hr & -> & _). injection Hr as <-. by rewrite Htrim.
      * intros text [= <-]. rewrite <- Htrim. apply trim_idempotent.
      * intros reply' Hr Hblank. injection Hr as <-. rewrite Htrim in Hblank.
        discriminate Hblank.
      * discriminate.
  - split; [|split; [|split]].
    + intros text. split; [discriminate|]. intros (reply & Hr & _). discriminate Hr.
    + discriminate.
    + discriminate.
    + intros e Hr. by injection Hr as ->.
Qed.

Lemma getVerseText_trimmed_witness :
  (GeminiService.getVerseText Scenario.chapterEnds (js "Gênesis 1:1") (js "pt-BR")).2
  = Ok (js "No princípio criou Deus os céus e a terra.").
Proof.
  destruct (getVerseText_trimmed Scenario.chapterEnds (js "Gênesis 1:1") (js "pt-BR"))
    as (_ & H & _).
  apply H. exists (js "No princípio criou Deus os céus e a terra.").
  split; [reflexivity|]. split; [vm_compute; reflexivity|].
  intros Hd. vm_compute in Hd. discriminate Hd.
Defined.

(** ** Narration and verse text *)

(** X13.  When the narration handler runs (text not blank, no narration
    loading), its calls are, in this order: the revocation of a URL it
    holds; one speech request, for the text as typed, with the tone
    instruction before it for the child voice only, and the voice Puck for
    the adult voice and Kore otherwise; the revocation of the same URL by
    the clean-up of the effect; and, when the speech comes back and
    decodes, the creation of the new URL.  On that path the new URL is held
    and the narrated text is the text of the call, with no error shown; on
    the other no URL is held, no text is narrated, and an error message
    that is not empty is shown.  The loading flag is lowered on both. *)
Theorem narration_outcome (ai : GeminiService.Ai) (url : jsstring)
    (s : ImageGenerator.State) :
  truthy (trim (ImageGenerator.textForNarration s)) = true ->
  ImageGenerator.isAudioLoading s = false ->
  let s' := (ImageGenerator.handleGenerateAudioClick ai url s).1 in
  let text := ImageGenerator.textForNarration s in
  let prompt := if bool_decide (ImageGenerator.voiceType s = js "infantil")
                then js "Narração em tom de criança, com uma voz doce e clara: " ++ text
                else text in
  let voice := if bool_decide (ImageGenerator.voiceType s = js "adulta")
               then js "Puck" else js "Kore" in
  let held := ImageGenerator.cleanup (ImageGenerator.generatedAudioUrl s) in
  ImageGenerator.isAudioLoading s' = false
  /\ ImageGenerator.textForNarration s' = text
  /\ match (GeminiService.generateSpeech ai text (ImageGenerator.voiceType s)).2
           ≫= Wav.createWavBlob with
     | Ok _ =>
         (ImageGenerator.handleGenerateAudioClick ai url s).2
         = held ++ [ImageGenerator.Network (GeminiService.SpeechCall prompt voice)]
           ++ held ++ [ImageGenerator.CreateObjectURL url]
         /\ ImageGenerator.generatedAudioUrl s' = Some url
         /\ ImageGenerator.narratedText s' = Some text
         /\ ImageGenerator.audioError s' = None
     | Throw _ =>
         (ImageGenerator.handleGenerateAudioClick ai url s).2
         = held ++ [ImageGenerator.Network (GeminiService.SpeechCall prompt voice)]
           ++ held
         /\ ImageGenerator.generatedAudioUrl s' = None
         /\ ImageGenerator.narratedText s' = None
         /\ exists msg, ImageGenerator.audioError s' = Some msg /\ msg <> []
     end.
Proof.
  intros Htext Hloading. cbv zeta.
  assert (Ht : truthy (ImageGenerator.textForNarration s) = true)
    by (by apply trim_truthy).
  unfold ImageGenerator.handleGenerateAudioClick. rewrite Htext, Hloading.
  cbn [negb orb]. cbv zeta.
  assert (Hcall : (GeminiService.generateSpeech ai (ImageGenerator.textForNarration s)
                     (ImageGenerator.voiceType s)).1
    = [GeminiService.SpeechCall
         (if bool_decide (ImageGenerator.voiceType s = js "infantil")
          then js "Narração em tom de criança, com uma voz doce e clara: "
               ++ ImageGenerator.textForNarration s
          else ImageGenerator.textForNarration s)
         (if bool_decide (ImageGenerator.voiceType s = js "adulta")
          then js "Puck" else js "Kore")]).
  { unfold GeminiService.generateSpeech. rewrite Ht. reflexivity. }
  destruct (GeminiService.generateSpeech ai _ _) as [calls r].
  cbn [fst snd] in *. subst calls.
  destruct (r ≫= Wav.createWavBlob) as [blob|err];
    [|destruct (ImageGenerator.isServerError err)]; cbn [fst snd];
    rewrite (commit_to_none s) by (by destruct s);
    rewrite commit_from_none by (by destruct s);
    rewrite ?app_nil_r.
  - by destruct s.
  - destruct s; (repeat split; try reflexivity); eexists; (split; [reflexivity|]);
      intros Hd; vm_compute in Hd; discriminate Hd.
  - destruct s; (repeat split; try reflexivity); eexists; (split; [reflexivity|]);
      intros Hd; vm_compute in Hd; discriminate Hd.
Qed.

Lemma narration_outcome_witness :
  ImageGenerator.narratedText
    (ImageGenerator.handleGenerateAudioClick Scenario.chapterEnds (js "blob:1")
       (ImageGenerator.setTextForNarration (js "Haja luz")
          ImageGenerator.initialState)).1
  = Some (js "Haja luz").
Proof.
  destruct (narration_outcome Scenario.chapterEnds (js "blob:1")
              (ImageGenerator.setTextForNarration (js "Haja luz")
                 ImageGenerator.initialState)) as (_ & _ & H).
  - vm_compute. reflexivity.
  - reflexivity.
  - change ((GeminiService.generateSpeech Scenario.chapterEnds
               (ImageGenerator.textForNarration
                  (ImageGenerator.setTextForNarration (js "Haja luz")
                     ImageGenerator.initialState))
               (ImageGenerator.voiceType
                  (ImageGenerator.setTextForNarration (js "Haja luz")
                     ImageGenerator.initialState))).2 ≫= Wav.createWavBlob)
      with (Ok {| Wav.blob_bytes := Wav.wavHeader 3 ++ [0; 1; 2];
                  Wav.blob_type := js "audio/wav" |}) in H.
    destruct H as (_ & _ & H & _). rewrite H. reflexivity.
Defined.

(** X14.  When the verse-text handler runs (reference not blank, no fetch
    running), it sends one request, for the reference and the language of
    the state, and touches nothing of the sequence nor the audio URL.  On
    success the narration text is the verse text, which is not blank; on
    failure the narration text is emptied, whatever was typed, and an error
    message that is not empty is shown. *)
Theorem fetchVerseText_outcome (ai : GeminiService.Ai) (s : ImageGenerator.State) :
  truthy (trim (ImageGenerator.bibleReference s)) = true ->
  ImageGenerator.isFetchingVerse s = false ->
  let s' := (ImageGenerator.handleFetchVerseText ai s).1 in
  let call := GeminiService.getVerseText ai (ImageGenerator.bibleReference s)
                (ImageGenerator.language s) in
  (ImageGenerator.handleFetchVerseText ai s).2 = ImageGenerator.Network <$> call.1
  /\ ImageGenerator.bibleReference s' = ImageGenerator.bibleReference s
  /\ ImageGenerator.characterDescriptions s' = ImageGenerator.characterDescriptions s
  /\ ImageGenerator.isSequenceActive s' = ImageGenerator.isSequenceActive s
  /\ ImageGenerator.generatedImage s' = ImageGenerator.generatedImage s
  /\ ImageGenerator.promptText s' = ImageGenerator.promptText s
  /\ ImageGenerator.generatedAudioUrl s' = ImageGenerator.generatedAudioUrl s
  /\ ImageGenerator.isFetchingVerse s' = false
  /\ match call.2 with
     | Ok verseText =>
         ImageGenerator.textForNarration s' = verseText
         /\ truthy (trim verseText) = true
         /\ ImageGenerator.audioError s' = None
     | Throw _ =>
         ImageGenerator.textForNarration s' = []
         /\ exists msg, ImageGenerator.audioError s' = Some msg /\ msg <> []
     end.
Proof.
  intros Href Hfetch. cbv zeta.
  unfold ImageGenerator.handleFetchVerseText. rewrite Href, Hfetch.
  cbn [negb orb]. cbv zeta.
  pose proof (getVerseText_ok ai (ImageGenerator.bibleReference s)
                (ImageGenerator.language s)) as Htrim.
  destruct (GeminiService.getVerseText ai _ _) as [calls [verseText|err]]; cbn [fst snd].
  - destruct (Htrim verseText eq_refl) as (Hne & Hid & _).
    rewrite !commit_same_url by (by destruct s). rewrite app_nil_r.
    destruct s; repeat split; try reflexivity.
    rewrite Hid. by destruct verseText.
  - destruct (ImageGenerator.isServerError err);
      rewrite !commit_same_url by (by destruct s); rewrite app_nil_r;
      destruct s; (repeat split; try reflexivity); eexists;
      (split; [reflexivity|]); intros Hd; vm_compute in Hd; discriminate Hd.
Qed.

Lemma fetchVerseText_outcome_witness :
  ImageGenerator.textForNarration
    (ImageGenerator.handleFetchVerseText Scenario.chapterEnds Scenario.genesis_1_5).1
  = js "No princípio criou Deus os céus e a terra.".
Proof.
  destruct (fetchVerseText_outcome Scenario.chapterEnds Scenario.genesis_1_5)
    as (_ & _ & _ & _ & _ & _ & _ & _ & H).
  - vm_compute. reflexivity.
  - reflexivity.
  - change (GeminiService.getVerseText Scenario.chapterEnds
              (ImageGenerator.bibleReference Scenario.genesis_1_5)
              (ImageGenerator.language Scenario.genesis_1_5)).2
      with (Ok (js "No princípio criou Deus os céus e a terra.")) in H.
    by destruct H as [H _].
Defined.

(** X15.  The two resets release a held audio URL once, through the
    clean-up of the effect: [handleStartNew] makes that one call and
    nothing else; [handleGeneratePrompt] sends the scene request and, when
    it yields, the clean-up makes that one call.  After either no URL is
    held and no text is narrated. *)
Theorem resets_release_url_once (ai : GeminiService.Ai) (url : jsstring)
    (s : ImageGenerator.State) :
  ImageGenerator.generatedAudioUrl s = Some url ->
  truthy url = true ->
  ((ImageGenerator.handleStartNew s).2 = [ImageGenerator.RevokeObjectURL url]
   /\ ImageGenerator.generatedAudioUrl (ImageGenerator.handleStartNew s).1 = None
   /\ ImageGenerator.narratedText (ImageGenerator.handleStartNew s).1 = None)
  /\ (truthy (trim (ImageGenerator.bibleReference s)) = true ->
      (ImageGenerator.handleGeneratePrompt ai s).2
      = [ImageGenerator.Network (GeminiService.SceneCall
           (GeminiService.sceneRequest (ImageGenerator.bibleReference s) None));
         ImageGenerator.RevokeObjectURL url]
      /\ ImageGenerator.generatedAudioUrl (ImageGenerator.handleGeneratePrompt ai s).1
         = None
      /\ ImageGenerator.narratedText (ImageGenerator.handleGeneratePrompt ai s).1
         = None).
Proof.
  intros Hurl Ht.
  assert (Hcommit : forall s1, ImageGenerator.generatedAudioUrl s1 = None ->
            ImageGenerator.commit s s1 = [ImageGenerator.RevokeObjectURL url]).
  { intros s1 H1. unfold ImageGenerator.commit, ImageGenerator.cleanup.
    rewrite Hurl, H1, Ht. by rewrite bool_decide_false. }
  split.
  - unfold ImageGenerator.handleStartNew. cbn [fst snd].
    rewrite Hcommit by (by destruct s). by destruct s.
  - intros Href. unfold ImageGenerator.handleGeneratePrompt. rewrite Href.
    cbn [negb]. cbv zeta. unfold GeminiService.generateImagePrompt. cbv zeta.
    match goal with
    | |- context [match ?r with Ok _ => _ | Throw _ => _ end] =>
        destruct r as [res|err]; [|destruct (ImageGenerator.isServerError err)]
    end; cbn [fst snd]; rewrite Hcommit by (by destruct s);
    rewrite commit_same_url by (by destruct s); by destruct s.
Qed.

Lemma resets_release_url_once_witness :
  (ImageGenerator.handleStartNew
     (ImageGenerator.setGeneratedAudioUrl (Some (js "blob:1")) Scenario.genesis_1_5)).2
  = [ImageGenerator.RevokeObjectURL (js "blob:1")].
Proof.
  destruct (resets_release_url_once Scenario.chapterEnds (js "blob:1")
              (ImageGenerator.setGeneratedAudioUrl (Some (js "blob:1"))
                 Scenario.genesis_1_5)) as [[H _] _].
  - reflexivity.
  - reflexivity.
  - exact H.
Defined.

Section Frames.
Import GeminiService ImageGenerator.

Ltac advance_paths ai s :=
  unfold handleGenerateNextVerse, advanceOutcome;
  destruct (characterDescriptions s) as [chars|] eqn:Hchars; [|try done];
  destruct (truthy (getNextVerseRef s)) eqn:Hnext; cbn [negb]; cbv iota; [|try done];
  cbv zeta;
  destruct (generateImagePrompt ai (getNextVerseRef s) (Some chars)) as [calls1 [res|err1]];
  cbn [snd];
  [ destruct (generateImage ai (scenePrompt res) (aspectRatio s)) as [calls2 [img|err2]];
    cbn [snd] | ];
  unfold nextVerseCatch;
  repeat match goal with
         | |- context [if ?b then _ else _] => destruct b eqn:?
         end.

Lemma advance_promptText (ai : Ai) (s : State) :
  promptText (handleGenerateNextVerse ai s).1
  = match advanceOutcome ai s with
    | NotStarted | SceneFailed _ => promptText s
    | ImageFailed res _ | Advanced res _ => scenePrompt res
    end.
Proof. advance_paths ai s; by destruct s. Qed.

Lemma advance_narration (ai : Ai) (s : State) :
  let s' := (handleGenerateNextVerse ai s).1 in
  generatedAudioUrl s' = generatedAudioUrl s
  /\ narratedText s' = narratedText s
  /\ textForNarration s' = textForNarration s
  /\ audioError s' = audioError s.
Proof. cbv zeta. advance_paths ai s; by destruct s. Qed.

Lemma advance_settings (ai : Ai) (s : State) :
  let s' := (handleGenerateNextVerse ai s).1 in
  aspectRatio s' = aspectRatio s /\ language s' = language s
  /\ voiceType s' = voiceType s.
Proof. cbv zeta. advance_paths ai s; by destruct s. Qed.

End Frames.

(** X16.  What an advance leaves on the screen.  The image changes only
    when both calls succeeded, to the data URL of the new image; the prompt
    text is replaced as soon as the scene was described, so that after a
    failed image call the prompt is that of the next verse while the image
    and the reference are those of the last one.  The narration (text,
    audio URL, narrated text, audio error) and the settings are never
    touched. *)
Theorem advance_screen (ai : GeminiService.Ai) (s : ImageGenerator.State) :
  let s' := (ImageGenerator.handleGenerateNextVerse ai s).1 in
  ImageGenerator.generatedImage s'
  = match ImageGenerator.advanceOutcome ai s with
    | ImageGenerator.Advanced _ img => Some (js "data:image/jpeg;base64," ++ img)
    | _ => ImageGenerator.generatedImage s
    end
  /\ ImageGenerator.promptText s'
     = match ImageGenerator.advanceOutcome ai s with
       | ImageGenerator.NotStarted | ImageGenerator.SceneFailed _ =>
           ImageGenerator.promptText s
       | ImageGenerator.ImageFailed res _ | ImageGenerator.Advanced res _ =>
           GeminiService.scenePrompt res
       end
  /\ ImageGenerator.generatedAudioUrl s' = ImageGenerator.generatedAudioUrl s
  /\ ImageGenerator.narratedText s' = ImageGenerator.narratedText s
  /\ ImageGenerator.textForNarration s' = ImageGenerator.textForNarration s
  /\ ImageGenerator.audioError s' = ImageGenerator.audioError s
  /\ ImageGenerator.aspectRatio s' = ImageGenerator.aspectRatio s
  /\ ImageGenerator.language s' = ImageGenerator.language s
  /\ ImageGenerator.voiceType s' = ImageGenerator.voiceType s.
Proof.
  cbv zeta.
  split; [apply advance_image|]. split; [apply advance_promptText|].
  destruct (advance_narration ai s) as (H1 & H2 & H3 & H4).
  destruct (advance_settings ai s) as (H5 & H6 & H7).
  repeat split; assumption.
Qed.

(** X17.  After [handleStartNew] nothing can be generated until the user
    types: each of the five handlers that call the service returns at its
    guard, leaving the state as it is and sending nothing. *)
Theorem startNew_then_nothing_runs (ai : GeminiService.Ai) (url : jsstring)
    (s : ImageGenerator.State) (c : ImageGenerator.Control) :
  c <> ImageGenerator.StartNewButton ->
  ImageGenerator.handler ai url c (ImageGenerator.handleStartNew s).1
  = ((ImageGenerator.handleStartNew s).1, []).
Proof.
  intros Hc. destruct c; [done| | | | |]; by destruct s.
Qed.

Lemma startNew_then_nothing_runs_witness :
  ImageGenerator.handler Scenario.chapterEnds (js "blob:1")
    ImageGenerator.NextVerseButton
    (ImageGenerator.handleStartNew Scenario.genesis_1_5).1
  = ((ImageGenerator.handleStartNew Scenario.genesis_1_5).1, []).
Proof.
  apply (startNew_then_nothing_runs Scenario.chapterEnds (js "blob:1")
           Scenario.genesis_1_5 ImageGenerator.NextVerseButton).
  discriminate.
Defined.

(** X18.  A prompt generation that runs starts afresh: whatever cast the
    state holds, the request carries no characters and is not a
    continuation, and it is the one call of the handler, followed only by
    the clean-up of an audio URL that was held; the reference stays, the
    image and the narration text go, and the sequence is not active.  On success the prompt and the
    cast are those of the result.  On failure a message that is not empty
    is shown, no prompt and no cast are left, and so neither the image nor
    the next verse can be generated from the state. *)
Theorem generatePrompt_outcome (ai ai' : GeminiService.Ai) (s : ImageGenerator.State) :
  truthy (trim (ImageGenerator.bibleReference s)) = true ->
  let s' := (ImageGenerator.handleGeneratePrompt ai s).1 in
  let request :=
    {| GeminiService.req_bibleReference := ImageGenerator.bibleReference s;
       GeminiService.req_isContinuation := false;
       GeminiService.req_existingChars := ∅ |} in
  (ImageGenerator.handleGeneratePrompt ai s).2
  = [ImageGenerator.Network (GeminiService.SceneCall request)]
    ++ ImageGenerator.cleanup (ImageGenerator.generatedAudioUrl s)
  /\ ImageGenerator.bibleReference s' = ImageGenerator.bibleReference s
  /\ ImageGenerator.generatedImage s' = None
  /\ ImageGenerator.isSequenceActive s' = false
  /\ ImageGenerator.textForNarration s' = []
  /\ ImageGenerator.generatedAudioUrl s' = None
  /\ match (GeminiService.generateImagePrompt ai (ImageGenerator.bibleReference s)
              None).2 with
     | Ok res =>
         ImageGenerator.promptText s' = GeminiService.scenePrompt res
         /\ ImageGenerator.characterDescriptions s'
            = Some (GeminiService.characterDescriptions res)
         /\ ImageGenerator.promptError s' = None
     | Throw _ =>
         ImageGenerator.promptText s' = []
         /\ ImageGenerator.characterDescriptions s' = None
         /\ (exists msg, ImageGenerator.promptError s' = Some msg /\ msg <> [])
         /\ ImageGenerator.handleGenerateImage ai' s' = (s', [])
         /\ ImageGenerator.handleGenerateNextVerse ai' s' = (s', [])
     end.
Proof.
  intros Href. cbv zeta.
  assert (Hcommit : forall s1, ImageGenerator.generatedAudioUrl s1 = None ->
            ImageGenerator.commit s s1
            = ImageGenerator.cleanup (ImageGenerator.generatedAudioUrl s)).
  { intros s1 H1. unfold ImageGenerator.commit. rewrite H1.
    case_bool_decide as Hu; [by rewrite Hu|done]. }
  unfold ImageGenerator.handleGeneratePrompt. rewrite Href. cbn [negb]. cbv zeta.
  unfold GeminiService.generateImagePrompt. cbv zeta.
  match goal with
  | |- context [match ?r with Ok _ => _ | Throw _ => _ end] =>
      destruct r as [res|err]; [|destruct (ImageGenerator.isServerError err) eqn:Hsrv]
  end; cbn [fst snd]; rewrite Hcommit by (by destruct s);
  rewrite commit_same_url by (by destruct s); rewrite app_nil_r.
  - by destruct s.
  - destruct s; repeat split; try reflexivity.
    eexists; split; [reflexivity|]. intros Hd; vm_compute in Hd; discriminate Hd.
  - pose proof (messageOr_nonempty err
      (js "Ocorreu um erro ao gerar o prompt. Tente um versículo diferente.")) as Hm.
    destruct s; repeat split; try reflexivity.
    eexists; split; [reflexivity|]. apply Hm.
    intros Hd; vm_compute in Hd; discriminate Hd.
Qed.

Lemma generatePrompt_outcome_witness :
  ImageGenerator.characterDescriptions
    (ImageGenerator.handleGeneratePrompt Scenario.chapterEnds Scenario.genesis_1_5).1
  = None.
Proof.
  destruct (generatePrompt_outcome Scenario.chapterEnds Scenario.chapterEnds
              Scenario.genesis_1_5) as (_ & _ & _ & _ & _ & _ & H).
  - vm_compute. reflexivity.
  - change (GeminiService.generateImagePrompt Scenario.chapterEnds
              (ImageGenerator.bibleReference Scenario.genesis_1_5) None).2
      with (@Throw GeminiService.SceneGenerationResult
              (newError GeminiService.VERSE_NOT_FOUND)) in H.
    by destruct H as (_ & H & _).
Defined.

Section WriteString.
Import Wav.

Lemma setUint8_insert (view : list Z) (off : nat) (v : Z) :
  setUint8 view off v
  = if bool_decide (off + 1 ≤ length view)%nat
    then Ok (take off view ++ [v `mod` 256] ++ drop (S off) view)
    else Throw rangeError.
Proof.
  unfold setUint8, setUint. case_bool_decide as Hfit; [|done].
  destruct (lookup_lt_is_Some_2 view off) as [o Ho]; [lia|].
  f_equal. change (reverse (bytesOf 1 v)) with [v `mod` 256].
  pose proof (writeBytes_overwrite (take off view) [o] (drop (S off) view)
                [v `mod` 256] eq_refl) as Hw.
  rewrite length_take, Nat.min_l in Hw by lia.
  change ([o] ++ ?l) with (o :: l) in Hw.
  rewrite (take_drop_middle view off o Ho) in Hw.
  rewrite Hw. by rewrite <- app_assoc.
Qed.

Lemma writeString_from_spec (rest : jsstring) :
  forall (view : list Z) (offset i : nat),
  writeString_from i view offset rest
  = if bool_decide (rest = [] \/ offset + i + length rest ≤ length view)%nat
    then Ok (take (offset + i) view
             ++ ((fun c => Z.of_N c `mod` 256) <$> rest)
             ++ drop (offset + i + length rest) view)
    else Throw rangeError.
Proof.
  induction rest as [|c rest IH]; intros view offset i.
  - rewrite bool_decide_true by (by left). cbn [writeString_from fmap list_fmap length].
    rewrite Nat.add_0_r. cbn [app]. by rewrite take_drop.
  - cbn [writeString_from]. rewrite setUint8_insert.
    case_bool_decide as Hfit.
    + change (mbind ?f (Ok ?x)) with (f x). cbv beta. rewrite IH.
      assert (Hlen : length (take (offset + i) view ++ [Z.of_N c `mod` 256]
                             ++ drop (S (offset + i)) view) = length view).
      { rewrite !length_app, length_take, length_drop. simpl. lia. }
      rewrite Hlen.
      case_bool_decide as H1; case_bool_decide as H2.
      * f_equal. cbn [fmap list_fmap length].
        replace (take (offset + S i) _)
          with (take (offset + i) view ++ [Z.of_N c `mod` 256]).
        2:{ rewrite (app_assoc (take _ view)).
            rewrite take_app_length'; [done|].
            rewrite length_app, length_take. simpl. lia. }
        replace (drop (offset + S i + length rest) _)
          with (drop (offset + i + S (length rest)) view).
        2:{ rewrite (app_assoc (take _ view)).
            rewrite drop_app_ge by (rewrite length_app, length_take; simpl; lia).
            rewrite length_app, length_take. simpl.
            rewrite drop_drop. f_equal. lia. }
        by rewrite <- app_assoc.
      * exfalso. apply H2. right. simpl.
        destruct H1 as [->|H1]; simpl; lia.
      * exfalso. apply H1. destruct H2 as [H2|H2]; [done|]. simpl in H2. right. lia.
      * done.
    + rewrite bool_decide_false; [done|].
      intros [H|H]; [done|]. simpl in H. lia.
Qed.

End WriteString.

(** X19.  [writeString] on a buffer: when the string is empty or fits
    between the offset and the end of the buffer, the result is the buffer
    with the bytes from the offset on replaced by the code units of the
    string, each reduced modulo 256, and every other byte as it was;
    otherwise the write throws the range error of [setUint8]. *)
Theorem writeString_result (view : list Z) (offset : nat) (string : jsstring) :
  Wav.writeString view offset string
  = if bool_decide (string = [] \/ offset + length string ≤ length view)%nat
    then Ok (take offset view
             ++ ((fun c => Z.of_N c `mod` 256) <$> string)
             ++ drop (offset + length string) view)
    else Throw rangeError.
Proof.
  unfold Wav.writeString. rewrite writeString_from_spec.
  by rewrite Nat.add_0_r.
Qed.

Section JsonText.
Import GeminiService.

Lemma exec_from_cons r i c s :
  exec_from r i (c :: s)
  = match rmatch r i (c :: s) [] (fun _ _ caps => Some caps) with
    | Some caps => Some caps
    | None => exec_from r (S i) s
    end.
Proof. reflexivity. Qed.

Lemma rstar_thenClass_none {A} p q (f : nat -> A) s :
  forall i, Forall (fun c => q c = false) s -> rstar p (thenClass q f) i s = None.
Proof.
  induction s as [|c s IH]; intros i Hs; [done|].
  apply List.Forall_cons_iff in Hs as [Hc Hs]. cbn [rstar].
  rewrite (IH _ Hs). unfold thenClass. rewrite Hc. by destruct (p c).
Qed.

Lemma rstar_thenClass_last {A} p q (f : nat -> A) mid c post :
  (forall x, p x = true) -> q c = true -> Forall (fun x => q x = false) post ->
  forall i, rstar p (thenClass q f) i (mid ++ c :: post)
            = Some (f (S (i + length mid))).
Proof.
  intros Hp Hc Hpost. induction mid as [|m mid IH]; intros i.
  - cbn [app rstar length]. rewrite Hp, (rstar_thenClass_none _ _ _ _ _ Hpost).
    unfold thenClass. by rewrite Hc, Nat.add_0_r.
  - cbn [app rstar length]. rewrite Hp, IH. do 2 f_equal. lia.
Qed.

Lemma rmatch_jsonObjectRegex i s :
  rmatch jsonObjectRegex i s [] (fun _ _ caps => Some caps)
  = match s with
    | c :: s' =>
        if bool_decide (c = 123%N) then
          rstar (fun c => isWhiteSpace c || negb (isWhiteSpace c))
            (thenClass (fun c => bool_decide (c = 125%N))
               (fun i' => [take (i' - i) s])) (S i) s'
        else None
    | [] => None
    end.
Proof. by destruct s. Qed.

Lemma not_elem_Forall (x : N) (l : jsstring) :
  x ∉ l -> Forall (fun c => bool_decide (c = x) = false) l.
Proof.
  intros Hx. rewrite Forall_forall. intros c Hc.
  apply bool_decide_false. by intros ->.
Qed.

Lemma exec_from_no_close s :
  forall i, 125%N ∉ s -> exec_from jsonObjectRegex i s = None.
Proof.
  induction s as [|c s IH]; intros i Hs.
  - reflexivity.
  - rewrite exec_from_cons, rmatch_jsonObjectRegex.
    apply not_elem_of_cons in Hs as [_ Hs].
    rewrite (rstar_thenClass_none _ _ _ _ _ (not_elem_Forall _ _ Hs)).
    rewrite IH by done. by case_bool_decide.
Qed.

Lemma exec_from_skip pre t :
  forall i, 123%N ∉ pre ->
  exec_from jsonObjectRegex i (pre ++ t)
  = exec_from jsonObjectRegex (i + length pre) t.
Proof.
  induction pre as [|c pre IH]; intros i Hpre.
  - by rewrite Nat.add_0_r.
  - apply not_elem_of_cons in Hpre as [Hc Hpre].
    cbn [app length]. rewrite exec_from_cons, rmatch_jsonObjectRegex.
    rewrite bool_decide_false by done. rewrite IH by done. f_equal. lia.
Qed.

Lemma exec_from_object i mid post :
  125%N ∉ post ->
  exec_from jsonObjectRegex i (123%N :: mid ++ 125%N :: post)
  = Some [123%N :: mid ++ [125%N]].
Proof.
  intros Hpost. rewrite exec_from_cons, rmatch_jsonObjectRegex.
  rewrite bool_decide_true by done.
  rewrite (rstar_thenClass_last _ _ _ mid 125%N post);
    [|intros x; by destruct (isWhiteSpace x)|by rewrite bool_decide_true
     |by apply not_elem_Forall].
  replace (S (S i + length mid) - i)%nat with (length (123%N :: mid ++ [125%N]))
    by (cbn [length]; rewrite length_app; cbn [length]; lia).
  replace (123%N :: mid ++ 125%N :: post) with ((123%N :: mid ++ [125%N]) ++ post)
    by (cbn [app]; by rewrite <- app_assoc).
  by rewrite take_app_length.
Qed.

(** A closing brace after an opening one lies after the first opening
    one. *)
Lemma close_after_first_open (pre rest pre' mid post : jsstring) :
  123%N ∉ pre ->
  pre ++ 123%N :: rest = pre' ++ 123%N :: mid ++ 125%N :: post ->
  125%N ∈ rest.
Proof.
  intros Hpre Heq.
  assert (Hle : (length pre <= length pre')%nat).
  { destruct (decide (length pre' < length pre)%nat) as [Hlt|]; [|lia].
    exfalso. apply Hpre.
    apply (list_elem_of_lookup_2 _ (length pre')).
    rewrite <- (lookup_app_l pre (123%N :: rest)) by done.
    rewrite Heq. by apply list_lookup_middle. }
  apply (list_elem_of_lookup_2 _ (length pre' + length mid - length pre)).
  assert (Hcb : (pre' ++ 123%N :: mid ++ 125%N :: post)
                !! (length pre' + S (length mid))%nat = Some 125%N).
  { replace (pre' ++ 123%N :: mid ++ 125%N :: post)
      with ((pre' ++ 123%N :: mid) ++ 125%N :: post)
      by (by rewrite <- app_assoc).
    apply list_lookup_middle. rewrite length_app. reflexivity. }
  rewrite <- Heq in Hcb.
  rewrite lookup_app_r in Hcb by lia.
  replace (length pre' + S (length mid) - length pre)%nat
    with (S (length pre' + length mid - length pre)) in Hcb by lia.
  exact Hcb.
Qed.

Lemma exec_from_jsonObjectRegex (str : jsstring) :
  (exists pre mid post,
     str = pre ++ 123%N :: mid ++ 125%N :: post
     /\ (123%N ∉ pre) /\ (125%N ∉ post)
     /\ strMatch str jsonObjectRegex = Some [123%N :: mid ++ [125%N]])
  \/ ((forall pre mid post, str <> pre ++ 123%N :: mid ++ 125%N :: post)
      /\ strMatch str jsonObjectRegex = None).
Proof.
  unfold strMatch.
  destruct (decide (123%N ∈ str)) as [Hob|Hob].
  - apply list_elem_of_split_l in Hob as (pre & rest & -> & Hpre).
    rewrite exec_from_skip by done.
    destruct (decide (125%N ∈ rest)) as [Hcb|Hcb].
    + apply list_elem_of_split_r in Hcb as (mid & post & -> & Hpost).
      left. exists pre, mid, post. by rewrite exec_from_object.
    + right. split.
      * intros pre' mid post Heq. apply Hcb.
        by apply (close_after_first_open pre rest pre' mid post).
      * rewrite exec_from_cons, rmatch_jsonObjectRegex.
        rewrite bool_decide_true by done.
        rewrite (rstar_thenClass_none _ _ _ _ _ (not_elem_Forall _ _ Hcb)).
        by apply exec_from_no_close.
  - right. split.
    + intros pre mid post ->. apply Hob.
      apply elem_of_app. right. by left.
    + rewrite <- (app_nil_r str). rewrite exec_from_skip by done. reflexivity.
Qed.

End JsonText.

(** X20.  [extractJsonString] on any text: when an opening brace is
    followed, somewhere, by a closing one, the result runs from the first
    opening brace of the text to its last closing brace, both included;
    otherwise the text comes back as it is. *)
Theorem extractJsonString_result (str : jsstring) :
  (exists pre mid post,
     str = pre ++ js "{" ++ mid ++ js "}" ++ post
     /\ (123%N ∉ pre) /\ (125%N ∉ post)
     /\ GeminiService.extractJsonString str = js "{" ++ mid ++ js "}")
  \/ ((forall pre mid post, str <> pre ++ js "{" ++ mid ++ js "}" ++ post)
      /\ GeminiService.extractJsonString str = str).
Proof.
  change (js "{") with [123%N]. change (js "}") with [125%N].
  unfold GeminiService.extractJsonString.
  destruct (exec_from_jsonObjectRegex str)
    as [(pre & mid & post & Hstr & Hpre & Hpost & Hm)|[Hno Hm]]; rewrite Hm.
  - left. by exists pre, mid, post.
  - by right.
Qed.

(** X21.  [extractJsonString] applied to its own result changes nothing. *)
Theorem extractJsonString_idempotent (str : jsstring) :
  GeminiService.extractJsonString (GeminiService.extractJsonString str)
  = GeminiService.extractJsonString str.
Proof.
  destruct (exec_from_jsonObjectRegex str)
    as [(pre & mid & post & Hstr & Hpre & Hpost & Hm)|[Hno Hm]].
  - assert (E : GeminiService.extractJsonString str = 123%N :: mid ++ [125%N])
      by (unfold GeminiService.extractJsonString; by rewrite Hm).
    rewrite E. unfold GeminiService.extractJsonString, strMatch.
    by rewrite (exec_from_object 0 mid [] (not_elem_of_nil _)).
  - assert (E : GeminiService.extractJsonString str = str)
      by (unfold GeminiService.extractJsonString; by rewrite Hm).
    by rewrite !E.
Qed.

(** X22.  In a fresh start the verse-not-found reply is not told apart from
    other failures: the prompt error shown is the raw signal
    [VERSE_NOT_FOUND], not the end-of-chapter message that the advance
    shows for the same reply. *)
Theorem generatePrompt_verse_not_found_raw (ai : GeminiService.Ai)
    (s : ImageGenerator.State) (resp : GeminiService.ApiResponse) :
  truthy (trim (ImageGenerator.bibleReference s)) = true ->
  (forall req, GeminiService.req_bibleReference req = ImageGenerator.bibleReference s ->
               GeminiService.ai_scene ai req = Ok (Ok resp)) ->
  GeminiService.r_error resp = Some GeminiService.VERSE_NOT_FOUND ->
  ImageGenerator.promptError (ImageGenerator.handleGeneratePrompt ai s).1
  = Some (js "VERSE_NOT_FOUND")
  /\ ImageGenerator.promptError (ImageGenerator.handleGeneratePrompt ai s).1
     <> Some ImageGenerator.chapterEnded
  /\ ImageGenerator.imageError (ImageGenerator.handleGeneratePrompt ai s).1 = None.
Proof.
  intros Href Hai Herr.
  pose proof (generatePrompt_verse_not_found_message ai s Href
                (generateImagePrompt_verse_not_found ai _ None resp Hai Herr)) as Hmsg.
  split; [exact Hmsg|]. split.
  - rewrite Hmsg. intros Hd. vm_compute in Hd. discriminate Hd.
  - unfold ImageGenerator.handleGeneratePrompt. rewrite Href. cbn [negb]. cbv zeta.
    destruct (GeminiService.generateImagePrompt ai _ None) as [calls [res|err]];
      [|destruct (ImageGenerator.isServerError err)]; by destruct s.
Qed.

Lemma generatePrompt_verse_not_found_raw_witness :
  ImageGenerator.promptError
    (ImageGenerator.handleGeneratePrompt Scenario.chapterEnds Scenario.genesis_1_5).1
  = Some (js "VERSE_NOT_FOUND").
Proof.
  apply (generatePrompt_verse_not_found_raw Scenario.chapterEnds Scenario.genesis_1_5
           {| GeminiService.r_scenePrompt := None;
              GeminiService.r_characterDescriptions := None;
              GeminiService.r_error := Some GeminiService.VERSE_NOT_FOUND |}).
  - vm_compute. reflexivity.
  - intros req _. reflexivity.
  - reflexivity.
Defined.

(** X23.  When the image call answers without an image, [handleGenerateImage]
    shows the message of the service about the safety filters, as it is: it
    is not taken for a server error.  No image is shown, and the sequence
    flag stays as it was. *)
Theorem generateImage_no_image_message (ai : GeminiService.Ai)
    (s : ImageGenerator.State) (images : option (list jsstring)) :
  truthy (trim (ImageGenerator.promptText s)) = true ->
  ImageGenerator.isImageLoading s = false ->
  GeminiService.ai_image ai
    (ImageGenerator.promptText s ++ GeminiService.STYLE_PROMPT_APPENDIX)
    (ImageGenerator.aspectRatio s) = Ok images ->
  default [] images = [] ->
  let s' := (ImageGenerator.handleGenerateImage ai s).1 in
  ImageGenerator.imageError s'
  = Some (js "A imagem não pôde ser gerada. Isso pode ocorrer devido a filtros de segurança sobre o conteúdo da cena. Tente um versículo diferente ou uma nova cena com uma descrição menos explícita.")
  /\ ImageGenerator.generatedImage s' = None
  /\ ImageGenerator.isSequenceActive s' = ImageGenerator.isSequenceActive s
  /\ ImageGenerator.isImageLoading s' = false.
Proof.
  intros Hprompt Hload Hai Hnone. cbv zeta.
  unfold ImageGenerator.handleGenerateImage. rewrite Hprompt, Hload.
  cbn [negb orb]. cbv zeta. unfold GeminiService.generateImage. cbv zeta.
  rewrite Hai.
  set (M := js "A imagem não pôde ser gerada. Isso pode ocorrer devido a filtros de segurança sobre o conteúdo da cena. Tente um versículo diferente ou uma nova cena com uma descrição menos explícita.").
  assert (Hs : ImageGenerator.isServerError (newError M) = false)
    by (vm_compute; reflexivity).
  assert (Hm : forall fallback, ImageGenerator.messageOr (newError M) fallback = M)
    by (intros fallback; vm_compute; reflexivity).
  clearbody M.
  destruct images as [[|img imgs]|]; [|discriminate Hnone|];
    cbn [fst snd]; rewrite Hs, Hm; destruct s; repeat split; reflexivity.
Qed.

Lemma generateImage_no_image_message_witness :
  ImageGenerator.generatedImage
    (ImageGenerator.handleGenerateImage Scenario.imageFails Scenario.genesis_1_5).1
  = None.
Proof.
  apply (generateImage_no_image_message Scenario.imageFails Scenario.genesis_1_5
           (Some [])).
  - vm_compute. reflexivity.
  - reflexivity.
  - reflexivity.
  - reflexivity.
Defined.

Section Ownership.
Import GeminiService ImageGenerator.

Lemma cleanup_revokes (o : option jsstring) (u : jsstring) :
  RevokeObjectURL u ∈ cleanup o -> o = Some u.
Proof.
  unfold cleanup. destruct o as [x|]; [destruct (truthy x)|]; intros H.
  - apply list_elem_of_singleton in H. by injection H as ->.
  - by apply elem_of_nil in H.
  - by apply elem_of_nil in H.
Qed.

Lemma commit_revokes (a b : State) (u : jsstring) :
  RevokeObjectURL u ∈ commit a b -> generatedAudioUrl a = Some u.
Proof.
  unfold commit. case_bool_decide as Heq; intros Hu; [by apply elem_of_nil in Hu|].
  by apply cleanup_revokes.
Qed.

Lemma commit_no_create (a b : State) (u : jsstring) : CreateObjectURL u ∉ commit a b.
Proof.
  unfold commit, cleanup. case_bool_decide as Heq; [apply not_elem_of_nil|].
  destruct (generatedAudioUrl a) as [x|]; [destruct (truthy x)|];
    try apply not_elem_of_nil.
  intros Hu. apply list_elem_of_singleton in Hu. discriminate Hu.
Qed.

Lemma network_no_revoke (calls : list Call) (u : jsstring) :
  RevokeObjectURL u ∉ Network <$> calls.
Proof. intros H. apply list_elem_of_fmap in H as (c & Hc & _). discriminate Hc. Qed.

Ltac handler_paths ai s :=
  match goal with
  | |- context [handleGeneratePrompt ai s] =>
      unfold handleGeneratePrompt; destruct (negb _); [|cbv zeta;
        destruct (generateImagePrompt ai _ _) as [? [?|err]];
        [|destruct (isServerError err)]]
  | |- context [handleGenerateImage ai s] =>
      unfold handleGenerateImage; destruct (_ || _); [|cbv zeta;
        destruct (generateImage ai _ _) as [? [?|err]];
        [|destruct (isServerError err)]]
  | |- context [handleFetchVerseText ai s] =>
      unfold handleFetchVerseText; destruct (_ || _); [|cbv zeta;
        destruct (getVerseText ai _ _) as [? [?|err]];
        [|destruct (isServerError err)]]
  | |- context [handleGenerateAudioClick ai ?url s] =>
      unfold handleGenerateAudioClick; destruct (_ || _); [|cbv zeta;
        destruct (generateSpeech ai _ _) as [? r];
        destruct (r ≫= Wav.createWavBlob) as [?|err];
        [|destruct (isServerError err)]]
  | |- context [handleGenerateNextVerse ai s] =>
      unfold handleGenerateNextVerse;
      destruct (characterDescriptions s) as [chars|]; [|];
      [destruct (negb _); [|cbv zeta;
        destruct (generateImagePrompt ai _ _) as [? [res|err1]];
        [destruct (generateImage ai _ _) as [? [?|err2]]|];
        unfold nextVerseCatch;
        repeat match goal with
               | |- context [if ?b then _ else _] => destruct b
               end]|]
  end.

Ltac revoked_is_held s Hu :=
  repeat (apply elem_of_app in Hu as [Hu|Hu]);
  first [ by apply elem_of_nil in Hu
        | by apply network_no_revoke in Hu
        | apply commit_revokes in Hu;
          first [exact Hu | destruct s; exact Hu | destruct s; discriminate Hu]
        | apply cleanup_revokes in Hu; exact Hu
        | apply list_elem_of_singleton in Hu; discriminate Hu ].

(** What a handler revokes is the URL of the state it started from. *)
Lemma handler_revokes_held (ai : Ai) (url : jsstring) (c : Control) (s : State)
    (u : jsstring) :
  RevokeObjectURL u ∈ (handler ai url c s).2 -> generatedAudioUrl s = Some u.
Proof.
  destruct c; cbn [handler].
  - unfold handleStartNew. cbn [snd]. intros Hu. by apply commit_revokes in Hu.
  - handler_paths ai s; cbn [snd]; intros Hu; revoked_is_held s Hu.
  - handler_paths ai s; cbn [snd]; intros Hu; revoked_is_held s Hu.
  - handler_paths ai s; cbn [snd]; intros Hu; revoked_is_held s Hu.
  - handler_paths ai s; cbn [snd]; intros Hu; revoked_is_held s Hu.
  - handler_paths ai s; cbn [snd]; intros Hu; revoked_is_held s Hu.
Qed.

(** The URL a handler leaves in the state was there before, or the handler
    created it. *)
Lemma handler_url_origin (ai : Ai) (url : jsstring) (c : Control) (s : State)
    (u : jsstring) :
  generatedAudioUrl (handler ai url c s).1 = Some u ->
  generatedAudioUrl s = Some u \/ CreateObjectURL u ∈ (handler ai url c s).2.
Proof.
  destruct c; cbn [handler].
  - intros H. by destruct s.
  - handler_paths ai s; cbn [fst snd]; intros H;
      first [left; exact H | by destruct s].
  - handler_paths ai s; cbn [fst snd]; intros H;
      first [left; exact H | left; by destruct s].
  - handler_paths ai s; cbn [fst snd]; intros H;
      first [left; exact H | left; by destruct s].
  - handler_paths ai s; cbn [fst snd]; intros H;
      first [left; exact H | left; by destruct s].
  - handler_paths ai s; cbn [fst snd]; intros H;
      first [ left; exact H
            | by destruct s
            | right; assert (Hu : u = url) by (destruct s; by injection H);
              subst u; rewrite !elem_of_app; do 3 right; left;
              apply list_elem_of_singleton; reflexivity ].
Qed.

Lemma step_revokes_held (e : UserEvent) (s : State) (u : jsstring) :
  RevokeObjectURL u ∈ (step e s).2 -> generatedAudioUrl s = Some u.
Proof.
  destruct e as [ai url c|v|v|v|v|v|v]; cbn [step snd];
    try (intros H; by apply elem_of_nil in H).
  unfold click. destruct (_ && _); [apply handler_revokes_held|].
  intros H; by apply elem_of_nil in H.
Qed.

Lemma step_url_origin (e : UserEvent) (s : State) (u : jsstring) :
  generatedAudioUrl (step e s).1 = Some u ->
  generatedAudioUrl s = Some u \/ CreateObjectURL u ∈ (step e s).2.
Proof.
  destruct e as [ai url c|v|v|v|v|v|v]; cbn [step fst snd].
  - unfold click. destruct (_ && _); [apply handler_url_origin|by left].
  - destruct (_ || _); intros H; left; [done|by destruct s].
  - destruct (isAnyLoading s); intros H; left; [done|by destruct s].
  - destruct (isAnyLoading s); intros H; left; [done|by destruct s].
  - destruct (isAnyLoading s); intros H; left; [done|by destruct s].
  - destruct (_ || _); intros H; left; [done|by destruct s].
  - destruct (_ || _); intros H; left; [done|by destruct s].
Qed.

Lemma run_cons (e : UserEvent) (events : list UserEvent) (s : State) :
  (run (e :: events) s).2 = (step e s).2 ++ (run events (step e s).1).2.
Proof.
  cbn [run]. destruct (step e s) as [s1 t1]. cbn [fst snd].
  by destruct (run events s1).
Qed.

Lemma run_revokes_owned (events : list UserEvent) :
  forall (s : State) (pre post : list Effect) (u : jsstring),
  (run events s).2 = pre ++ RevokeObjectURL u :: post ->
  generatedAudioUrl s = Some u \/ CreateObjectURL u ∈ pre.
Proof.
  induction events as [|e events IH]; intros s pre post u Htrace.
  - cbn [run snd] in Htrace. by destruct pre.
  - rewrite run_cons in Htrace.
    apply List.app_eq_app in Htrace as [l [[H1 H2]|[H1 H2]]].
    + destruct l as [|x l].
      * rewrite app_nil_r in H1. cbn [app] in H2. symmetry in H2.
        destruct (IH _ [] post u H2) as [Hheld|Hin]; [|by apply elem_of_nil in Hin].
        destruct (step_url_origin e s u Hheld) as [?|Hc]; [by left|].
        right. by rewrite <- H1.
      * injection H2 as <- _. left. apply (step_revokes_held e).
        rewrite H1. apply elem_of_app. right. by left.
    + destruct (IH _ l post u H2) as [Hheld|Hin].
      * destruct (step_url_origin e s u Hheld) as [?|Hc]; [by left|].
        right. rewrite H1. apply elem_of_app. by left.
      * right. rewrite H1. apply elem_of_app. by right.
Qed.

End Ownership.

(** X24.  In a session every URL that the handlers revoke is one the
    component held: it was the audio URL of the state the session started
    from, or a [URL.createObjectURL] earlier in the same session made it. *)
Theorem session_revokes_own_urls (events : list ImageGenerator.UserEvent)
    (s : ImageGenerator.State) (pre post : list ImageGenerator.Effect) (u : jsstring) :
  (ImageGenerator.run events s).2 = pre ++ ImageGenerator.RevokeObjectURL u :: post ->
  ImageGenerator.generatedAudioUrl s = Some u
  \/ ImageGenerator.CreateObjectURL u ∈ pre.
Proof. apply run_revokes_owned. Qed.

Lemma session_revokes_own_urls_witness :
  ImageGenerator.generatedAudioUrl ImageGenerator.initialState = Some (js "blob:1")
  \/ ImageGenerator.CreateObjectURL (js "blob:1")
     ∈ [ImageGenerator.Network
          (GeminiService.SpeechCall (js "No princípio") (js "Puck"));
        ImageGenerator.CreateObjectURL (js "blob:1")].
Proof.
  apply (session_revokes_own_urls
           [ImageGenerator.ChangeNarrationText (js "No princípio");
            ImageGenerator.Click Scenario.imageFails (js "blob:1")
              ImageGenerator.GenerateAudioButton;
            ImageGenerator.ChangeNarrationText (js "Haja luz");
            ImageGenerator.Click Scenario.imageFails (js "blob:2")
              ImageGenerator.GenerateAudioButton]
           ImageGenerator.initialState
           [ImageGenerator.Network
              (GeminiService.SpeechCall (js "No princípio") (js "Puck"));
            ImageGenerator.CreateObjectURL (js "blob:1")]
           [ImageGenerator.Network
              (GeminiService.SpeechCall (js "Haja luz") (js "Puck"));
            ImageGenerator.RevokeObjectURL (js "blob:1");
            ImageGenerator.CreateObjectURL (js "blob:2")]
           (js "blob:1")).
  vm_compute. reflexivity.
Defined.
